(** * Spectral noise synthesis: [generate_white_noise.py]

    A shallow embedding of [get_signal] and [generate_white_noise].

    Numbers.  Every number the caller supplies (frequencies, responses,
    nyquist, sampling rate, duration, eps) is a Python float or int, hence
    a rational: values are modelled in [Q], with exact arithmetic, and all
    definitions over them compute.  For the nyquist limit, the sampling
    rate and the duration the Python type is kept as well ([pynum]): the
    number of frequency bins is computed from them, and [np.linspace]
    takes a count that is an [int] and rejects every [float].  The
    spectrum and the time-domain signal involve [exp(1j*phase)] and are
    modelled over the real numbers [R], complex numbers being pairs of
    reals.  Values are not rounded (the cast to [float32] is the identity
    here), with two exceptions where a floating-point result decides
    more than a value: the number of entries of the time axis, which
    [np.arange] takes from a quotient of floats, and the non-finite
    result of a division by zero.

    Effects.  The exceptions of the code are values of [result].  The
    random phases drawn by [np.random.uniform] are an argument [rng], the
    sequence of draws.  The value [generate_white_noise] returns is what
    it hands to [scipy.io.wavfile.write]; the writer itself, with the file
    system, is outside the model. *)

From Stdlib Require Import String List Bool Arith ZArith Lia.
From Stdlib Require Import QArith Qround Qabs Qreals.
From Stdlib Require Qcanon.
From Stdlib Require Import Reals Psatz.
Import ListNotations.

(** ** Exceptions and results *)

(** One constructor per [raise] of the source, named after its message,
    and the exceptions of the library functions the source calls. *)
Inductive exn : Type :=
| FrequenciesMustBeNonnegative      (* 'frequencies must be nonnegative' *)
| LbTypeMustBeOneOf                 (* "lb_type must be one of: 'zero', 'flat', 'linear'" *)
| FrequenciesCannotBeGreaterThanNyquist
                                    (* 'frequencies cannot be greater than nyquist' *)
| UbTypeMustBeOneOf                 (* "ub_type must be one of: 'zero', 'flat', 'linear'" *)
| EitherNyquistOrSamplingRate       (* 'Either nyquist or sampling_rate must be provided' *)
| NyquistMustEqualHalfSamplingRate  (* 'nyquist must equal sampling_rate/2' *)
| FreqsGreaterThanNyquist           (* 'freqs may not contain values greater than nyquist' *)
| FreqsGreaterThanHalfSamplingRate  (* 'freqs may not contain values greater than sampling_rate/2' *)
| ValueError                        (* numpy, scipy and the builtin max *)
| IndexError                        (* list indexing *)
| TypeError                         (* np.linspace with a float count *)
| ZeroDivisionError.                (* 1.0/sampling_rate *)

(** The taxonomy of the specification. *)
Inductive error_kind : Type :=
| ConfigError
| DomainError
| InvalidPolicyError
| LibraryError.

Definition kind_of (e : exn) : error_kind :=
  match e with
  | EitherNyquistOrSamplingRate | NyquistMustEqualHalfSamplingRate => ConfigError
  | FrequenciesMustBeNonnegative | FrequenciesCannotBeGreaterThanNyquist
  | FreqsGreaterThanNyquist | FreqsGreaterThanHalfSamplingRate => DomainError
  | LbTypeMustBeOneOf | UbTypeMustBeOneOf => InvalidPolicyError
  | ValueError | IndexError | TypeError | ZeroDivisionError => LibraryError
  end.

(** A computation returns or raises. *)
Inductive result (A : Type) : Type :=
| Ok (a : A)
| Raise (e : exn).

Arguments Ok {A} a.
Arguments Raise {A} e.

Definition bind {A B : Type} (m : result A) (k : A -> result B) : result B :=
  match m with
  | Ok a => k a
  | Raise e => Raise e
  end.

Notation "x <- m ;; k" := (bind m (fun x => k))
  (at level 61, m at next level, right associativity).
Notation "' pat <- m ;; k" := (bind m (fun x => match x with pat => k end))
  (at level 61, pat pattern, m at next level, right associativity).

Definition raises {A : Type} (m : result A) (k : error_kind) : Prop :=
  exists e, m = Raise e /\ kind_of e = k.

(** ** Python numbers *)

(** A number as the caller passes it, with its type.  The operators
    follow Python: two [int]s give an [int], a [float] operand gives a
    [float], and [/] always gives a [float]. *)
Inductive pynum : Type :=
| PyInt (z : Z)
| PyFloat (q : Q).

(** A numeral where a Python number is expected is an [int], as in the
    source text of a call. *)
Declare Scope pynum_scope.
Delimit Scope pynum_scope with py.
Bind Scope pynum_scope with pynum.

Definition pynum_of_Z (z : Z) : pynum := PyInt z.

Definition pynum_to_Z (x : pynum) : option Z :=
  match x with
  | PyInt z => Some z
  | PyFloat _ => None
  end.

Number Notation pynum pynum_of_Z pynum_to_Z : pynum_scope.

Definition value (x : pynum) : Q :=
  match x with
  | PyInt z => inject_Z z
  | PyFloat q => q
  end.

Coercion value : pynum >-> Q.

Definition py_add (a b : pynum) : pynum :=
  match a, b with
  | PyInt x, PyInt y => PyInt (x + y)
  | _, _ => PyFloat (value a + value b)%Q
  end.

Definition py_mul (a b : pynum) : pynum :=
  match a, b with
  | PyInt x, PyInt y => PyInt (x * y)
  | _, _ => PyFloat (value a * value b)%Q
  end.

Definition py_truediv (a b : pynum) : pynum := PyFloat (value a / value b)%Q.

(** ** Rational helpers *)

Definition Qltb (x y : Q) : bool := negb (Qle_bool y x).

(** The integer nearest to [x], a tie going to the even one. *)
Definition round_half_even (x : Q) : Z :=
  let n := Qnum x in
  let d := Zpos (Qden x) in
  let q := (n / d)%Z in
  match (2 * (n mod d) ?= d)%Z with
  | Lt => q
  | Gt => (q + 1)%Z
  | Eq => if Z.even q then q else (q + 1)%Z
  end.

(** The exponent [e] of a positive [x]: [2^e <= x < 2^(e+1)]. *)
Definition binade (x : Q) : Z :=
  let e := (Z.log2 (Qnum x) - Z.log2 (Zpos (Qden x)))%Z in
  if Qle_bool (2 ^ e)%Q x then e else (e - 1)%Z.

(** The binary64 number nearest to [x]: 53 significant bits, ties to
    even.  The range of the exponent is not modelled (no overflow, no
    subnormal numbers). *)
Definition fl (x : Q) : Q :=
  if Qeq_bool x 0 then 0%Q
  else
    let s := (binade (Qabs x) - 52)%Z in
    let r := (inject_Z (round_half_even (Qabs x / 2 ^ s)) * 2 ^ s)%Q in
    if Qle_bool 0 x then r else (- r)%Q.

(** [l[i]] for a nonnegative index. *)
Definition py_index {A : Type} (l : list A) (i : nat) : result A :=
  match nth_error l i with
  | Some a => Ok a
  | None => Raise IndexError
  end.

(** Index and value of the first minimum of [x :: r]. *)
Fixpoint first_min (x : Q) (r : list Q) : nat * Q :=
  match r with
  | [] => (O, x)
  | y :: r' =>
      let (j, m) := first_min y r' in
      if Qle_bool x m then (O, x) else (S j, m)
  end.

(** Index and value of the first maximum of [x :: r]. *)
Fixpoint first_max (x : Q) (r : list Q) : nat * Q :=
  match r with
  | [] => (O, x)
  | y :: r' =>
      let (j, m) := first_max y r' in
      if Qle_bool m x then (O, x) else (S j, m)
  end.

(** [np.argmin]: the index of the first occurrence of the minimum. *)
Definition np_argmin (l : list Q) : result nat :=
  match l with
  | [] => Raise ValueError
  | x :: r => Ok (fst (first_min x r))
  end.

(** [np.argmax]: the index of the first occurrence of the maximum. *)
Definition np_argmax (l : list Q) : result nat :=
  match l with
  | [] => Raise ValueError
  | x :: r => Ok (fst (first_max x r))
  end.

(** The builtin [max] of a list. *)
Definition py_max (l : list Q) : result Q :=
  match l with
  | [] => Raise ValueError
  | x :: r => Ok (snd (first_max x r))
  end.

(** ** Boundary extension (lines 40-75 of [get_signal]) *)

Section BoundaryExtender.
Local Open Scope Q_scope.

(** Lines 43-58: the low boundary. *)
Definition extend_low (freqs_extended responses_extended : list Q)
    (lb_type : string) (eps : Q) : result (list Q * list Q) :=
  min_freq_idx <- np_argmin freqs_extended ;;
  min_freq <- py_index freqs_extended min_freq_idx ;;
  if Qltb min_freq 0 then Raise FrequenciesMustBeNonnegative
  else if Qltb 0 min_freq then
    if String.eqb lb_type "flat"%string then
      r <- py_index responses_extended min_freq_idx ;;
      Ok (freqs_extended ++ [0], responses_extended ++ [r])
    else if String.eqb lb_type "linear"%string then
      Ok (freqs_extended ++ [0], responses_extended ++ [0])
    else if String.eqb lb_type "zero"%string then
      Ok (freqs_extended ++ [min_freq - eps; 0], responses_extended ++ [0; 0])
    else Raise LbTypeMustBeOneOf
  else Ok (freqs_extended, responses_extended).

(** Lines 60-75: the high boundary, on the lists the low boundary left. *)
Definition extend_high (freqs_extended responses_extended : list Q)
    (nyquist : Q) (ub_type : string) (eps : Q) : result (list Q * list Q) :=
  max_freq_idx <- np_argmax freqs_extended ;;
  max_freq <- py_index freqs_extended max_freq_idx ;;
  if Qltb nyquist max_freq then Raise FrequenciesCannotBeGreaterThanNyquist
  else if Qltb max_freq nyquist then
    if String.eqb ub_type "flat"%string then
      r <- py_index responses_extended max_freq_idx ;;
      Ok (freqs_extended ++ [nyquist], responses_extended ++ [r])
    else if String.eqb ub_type "linear"%string then
      Ok (freqs_extended ++ [nyquist], responses_extended ++ [0])
    else if String.eqb ub_type "zero"%string then
      Ok (freqs_extended ++ [max_freq + eps; nyquist], responses_extended ++ [0; 0])
    else Raise UbTypeMustBeOneOf
  else Ok (freqs_extended, responses_extended).

Definition extend_boundaries (freqs responses : list Q) (nyquist : Q)
    (lb_type ub_type : string) (eps : Q) : result (list Q * list Q) :=
  '(fe, re) <- extend_low freqs responses lb_type eps ;;
  extend_high fe re nyquist ub_type eps.

End BoundaryExtender.

(** ** Linear interpolation: scipy's [interp1d(x, y, 'linear')] *)

(** [interp1d] is library code.  The model follows its linear kind:
    [x] and [y] of different lengths, or no point at all, are a
    [ValueError]; the points are sorted by [x] with a stable sort; a
    query outside [[x[0], x[-1]]] raises [ValueError] ([bounds_error]);
    a query [q] is answered by [np.interp], which looks up the last
    index [j] with [x[j] <= q]: the answer is [y[j]] when [x[j] == q] or
    when [j] is the last index, and otherwise lies on the line from
    point [j] to point [j+1], where [x[j] < q < x[j+1]].  A frequency
    carried by several points is therefore answered with the response
    of the last of them, and no slope is taken over a segment of width
    zero. *)

(** A control point: frequency and response. *)
Abbreviation point := (Q * Q)%type (only parsing).

Section Interpolator.
Local Open Scope Q_scope.

Fixpoint insert_point (p : point) (l : list point) : list point :=
  match l with
  | [] => [p]
  | q :: r => if Qle_bool (fst p) (fst q) then p :: l else q :: insert_point p r
  end.

(** Stable: of two points with the same [x], the earlier stays first. *)
Fixpoint sort_points (l : list point) : list point :=
  match l with
  | [] => []
  | p :: r => insert_point p (sort_points r)
  end.

Definition interp1d (x y : list Q) : result (list point) :=
  if negb (length x =? length y)%nat then Raise ValueError
  else if (length x <? 1)%nat then Raise ValueError
  else Ok (sort_points (combine x y)).

(** The binary search of [np.interp] on a sorted [xs]: how many entries
    are not above [q].  The index [j] of the search is one less. *)
Fixpoint bisect_right (xs : list Q) (q : Q) : nat :=
  match xs with
  | [] => O
  | x :: r => if Qle_bool x q then S (bisect_right r q) else O
  end.

Definition out_of_bounds (f : list point) (q : Q) : bool :=
  Qltb q (fst (hd (0, 0) f)) || Qltb (fst (last f (0, 0))) q.

(** [np.interp(q, x, y)] on the sorted points.  Below the first point
    the answer is the first response, which the bounds check of
    [interp1d] then replaces by an error. *)
Definition call_linear (f : list point) (q : Q) : Q :=
  match bisect_right (map fst f) q with
  | O => snd (hd (0, 0) f)
  | S j =>
      let lo := nth j f (0, 0) in
      let hi := nth (S j) f (0, 0) in
      if (S j =? length f)%nat then snd lo
      else if Qeq_bool (fst lo) q then snd lo
      else (snd hi - snd lo) / (fst hi - fst lo) * (q - fst lo) + snd lo
  end.

(** [freq_func(q)] for one frequency [q]. *)
Definition interp_at (f : list point) (q : Q) : result Q :=
  if out_of_bounds f q then Raise ValueError else Ok (call_linear f q).

(** The interpolant applied to an array of queries: one query out of
    the bounds fails the call. *)
Definition interp_call (f : list point) (qs : list Q) : result (list Q) :=
  if existsb (out_of_bounds f) qs then Raise ValueError
  else Ok (map (call_linear f) qs).

End Interpolator.

(** ** The frequency grid (lines 78-83) *)

Section SpectralSampler.
Local Open Scope Q_scope.

(** The count [np.linspace] is given, as a natural number: a [float]
    is a [TypeError] whatever its value, a negative [int] a
    [ValueError]. *)
Definition as_count (n : pynum) : result nat :=
  match n with
  | PyFloat _ => Raise TypeError
  | PyInt z => if (z <? 0)%Z then Raise ValueError else Ok (Z.to_nat z)
  end.

(** [np.linspace(start, stop, num)]: [num] points, both ends included
    (the single point of [num = 1] is [start]: in [Q], [x / 0] is [0]). *)
Definition np_linspace (start stop : Q) (num : nat) : list Q :=
  map (fun k => start + inject_Z (Z.of_nat k) * ((stop - start) / (inject_Z (Z.of_nat num) - 1)))
      (seq 0 num).

(** [np.arange(start, stop, step)] for a [float] step: the number of
    entries is the ceiling of the quotient [(stop - start) / step] as
    binary64 arithmetic gives it. *)
Definition np_arange (start stop step : Q) : list Q :=
  map (fun k => start + inject_Z (Z.of_nat k) * step)
      (seq 0 (Z.to_nat (Qceiling (fl ((stop - start) / step))))).

Definition sample_response (freqs_extended responses_extended : list Q)
    (nyquist duration : pynum) : result (list Q * list Q) :=
  freq_func <- interp1d freqs_extended responses_extended ;;
  let n_samples := py_add (py_mul duration nyquist) (PyInt 1) in
  num <- as_count n_samples ;;
  let x_f := np_linspace 0 nyquist num in
  y <- interp_call freq_func x_f ;;
  Ok (x_f, y).

End SpectralSampler.

(** ** Complex numbers and the inverse transform (lines 84-87) *)

Section SignalReconstructor.
Local Open Scope R_scope.

Definition C : Type := (R * R)%type.

Definition Re (z : C) : R := fst z.
Definition Im (z : C) : R := snd z.
Definition Cadd (a b : C) : C := (Re a + Re b, Im a + Im b).
Definition Cmul (a b : C) : C :=
  (Re a * Re b - Im a * Im b, Re a * Im b + Im a * Re b).
Definition Cscale (r : R) (z : C) : C := (r * Re z, r * Im z).
Definition Cconj (z : C) : C := (Re z, - Im z).

(** [np.exp(1j*phase)]. *)
Definition cis (phase : R) : C := (cos phase, sin phase).

(** [y*np.exp(1j*phase)], entry by entry. *)
Fixpoint spectral_samples (y : list Q) (phase : list R) : list C :=
  match y, phase with
  | a :: y', p :: phase' => Cscale (Q2R a) (cis p) :: spectral_samples y' phase'
  | _, _ => []
  end.

(** The slice [z[-2:0:-1]]: the entries at [len-2], [len-3], ..., [1]. *)
Definition interior_reversed {A : Type} (z : list A) : list A :=
  rev (tl (removelast z)).

(** [np.concatenate((signal_z, np.conjugate(signal_z[-2:0:-1])))]. *)
Definition mirror (signal_z : list C) : list C :=
  signal_z ++ map Cconj (interior_reversed signal_z).

(** The sum of [x[i] * w (k + i)] over the entries of [x]. *)
Fixpoint weighted_sum (w : nat -> C) (k : nat) (x : list C) : C :=
  match x with
  | [] => (0, 0)
  | z :: r => Cadd (Cmul z (w k)) (weighted_sum w (S k) r)
  end.

Definition twiddle (N j k : nat) : C :=
  cis (2 * PI * INR j * INR k / INR N).

(** The inverse discrete Fourier transform:
    [y[j] = 1/N * sum_k x[k] * exp(2*pi*1j*j*k/N)]. *)
Definition ifft (x : list C) : list C :=
  let N := length x in
  map (fun j => Cscale (/ INR N) (weighted_sum (twiddle N j) 0 x)) (seq 0 N).

(** [scipy.fftpack.ifft], which rejects an empty array. *)
Definition fftpack_ifft (x : list C) : result (list C) :=
  match x with
  | [] => Raise ValueError
  | _ :: _ => Ok (ifft x)
  end.

End SignalReconstructor.

(** ** [get_signal] *)

(** The defaults of [duration], of [lb_type] and [ub_type], and of
    [eps]. *)
Definition default_duration : pynum := PyInt 10.
Definition default_type : string := "linear".
Definition default_eps : Q := 1 # 1000.

(** The spectrum handed to [ifft] (lines 84-86). *)
Definition full_spectrum (rng : nat -> R) (y : list Q) : list C :=
  let phase := map rng (seq 0 (length y)) in
  mirror (spectral_samples y phase).

(** [rng k] is the [k]-th phase drawn by [np.random.uniform]; the
    times [x_t] and the signal [signal_t] are returned.  The step of the
    time axis is the float [1.0/sampling_rate]. *)
Definition get_signal (rng : nat -> R) (freqs responses : list Q)
    (nyquist sampling_rate duration : pynum) (lb_type ub_type : string) (eps : Q)
    : result (list Q * list R) :=
  '(freqs_extended, responses_extended) <-
     extend_boundaries freqs responses nyquist lb_type ub_type eps ;;
  '(x_f, y) <- sample_response freqs_extended responses_extended nyquist duration ;;
  let signal_z := full_spectrum rng y in
  z_t <- fftpack_ifft signal_z ;;
  let signal_t := map Re z_t in
  if Qeq_bool sampling_rate 0 then Raise ZeroDivisionError
  else
    let x_t := np_arange 0 duration (fl (1 / sampling_rate)) in
    Ok (x_t, signal_t).

(** ** [generate_white_noise] *)

(** Truth value of an optional number: [None] and [0] are false. *)
Definition truthy (o : option pynum) : bool :=
  match o with
  | Some q => negb (Qeq_bool q 0)
  | None => false
  end.

(** The number an argument holds, read only where it is true. *)
Definition number (o : option pynum) : pynum :=
  match o with
  | Some q => q
  | None => PyInt 0
  end.

(** Lines 119-131: the effective nyquist and sampling rate.  A nyquist
    limit taken from the sampling rate is the float
    [sampling_rate/2.0]. *)
Definition resolve_rates (freqs : list Q) (nyquist sampling_rate : option pynum)
    : result (pynum * pynum) :=
  if negb (truthy nyquist) && negb (truthy sampling_rate) then
    Raise EitherNyquistOrSamplingRate
  else if truthy nyquist && truthy sampling_rate then
    if negb (Qeq_bool (number nyquist)
                      (py_truediv (number sampling_rate) (PyFloat 2))) then
      Raise NyquistMustEqualHalfSamplingRate
    else Ok (number nyquist, number sampling_rate)
  else if truthy nyquist then
    let sampling_rate' := py_mul (PyInt 2) (number nyquist) in
    m <- py_max freqs ;;
    if Qltb (number nyquist) m then Raise FreqsGreaterThanNyquist
    else Ok (number nyquist, sampling_rate')
  else
    let nyquist' := py_truediv (number sampling_rate) (PyFloat 2) in
    m <- py_max freqs ;;
    if Qltb (py_truediv (number sampling_rate) (PyFloat 2)) m
    then Raise FreqsGreaterThanHalfSamplingRate
    else Ok (nyquist', number sampling_rate).

(** A sample of the written file: a number, or what numpy's division
    leaves when the divisor is zero. *)
Inductive sample : Type :=
| Finite (r : R)
| PosInf
| NegInf
| NotANumber.

(** numpy's [a / b]. *)
Definition np_div (a b : R) : sample :=
  if Req_dec_T b 0 then
    if Req_dec_T a 0 then NotANumber
    else if Rlt_dec 0 a then PosInf else NegInf
  else Finite (a / b).

(** The builtin [max] of a sequence of reals. *)
Definition py_max_R (l : list R) : result R :=
  match l with
  | [] => Raise ValueError
  | x :: r => Ok (fold_left Rmax r x)
  end.

(** What [write(outfile_path, sampling_rate, signal)] is given. *)
Record wav : Type := {
  wav_path : string;
  wav_rate : Q;
  wav_data : list sample
}.

(** Lines 134-135: the rescaling by [0.8/max(abs(signal))] and the call
    of [write]. *)
Definition write_normalized (outfile_path : string) (sampling_rate : Q)
    (signal : list R) : result wav :=
  m <- py_max_R (map Rabs signal) ;;
  Ok {| wav_path := outfile_path;
        wav_rate := sampling_rate;
        wav_data := map (fun s => np_div (8 / 10 * s) m) signal |}.

Definition generate_white_noise (rng : nat -> R) (outfile_path : string)
    (freqs responses : list Q) (nyquist sampling_rate : option pynum)
    (duration : pynum) (lb_type ub_type : string) (eps : Q) : result wav :=
  '(nyquist', sampling_rate') <- resolve_rates freqs nyquist sampling_rate ;;
  '(t, signal) <- get_signal rng freqs responses nyquist' sampling_rate'
                    duration lb_type ub_type eps ;;
  write_normalized outfile_path sampling_rate' signal.

(** ** The vocabulary of the specification *)

(** [m] is the least entry of [l] and [j] the first index that holds it:
    [min(l)] and [np.argmin(l)]. *)
Definition is_first_min (l : list Q) (j : nat) (m : Q) : Prop :=
  nth_error l j = Some m /\
  (forall z, In z l -> (m <= z)%Q) /\
  (forall i z, (i < j)%nat -> nth_error l i = Some z -> (m < z)%Q).

(** [m] is the greatest entry of [l] and [j] the first index that holds
    it: [max(l)] and [np.argmax(l)]. *)
Definition is_first_max (l : list Q) (j : nat) (m : Q) : Prop :=
  nth_error l j = Some m /\
  (forall z, In z l -> (z <= m)%Q) /\
  (forall i z, (i < j)%nat -> nth_error l i = Some z -> (z < m)%Q).

(** The policies of the specification, and the strings that name them. *)
Inductive BoundaryPolicy : Type :=
| Zero
| Flat
| Linear.

Definition policy_of (s : string) : option BoundaryPolicy :=
  if String.eqb s "zero" then Some Zero
  else if String.eqb s "flat" then Some Flat
  else if String.eqb s "linear" then Some Linear
  else None.

(** The specification's low-boundary points (section 4.1), in the order
    they are appended. *)
Definition spec_low_points (p : BoundaryPolicy) (min_freq response_at_min eps : Q)
    : list point :=
  match p with
  | Flat => [(0, response_at_min)]
  | Linear => [(0, 0)]
  | Zero => [(min_freq - eps, 0); (0, 0)]
  end%Q.

(** The specification's high-boundary points. *)
Definition spec_high_points (p : BoundaryPolicy)
    (max_freq response_at_max nyquist eps : Q) : list point :=
  match p with
  | Flat => [(nyquist, response_at_max)]
  | Linear => [(nyquist, 0)]
  | Zero => [(max_freq + eps, 0); (nyquist, 0)]
  end%Q.

(** A rate argument of the interface: absent, or a number other than
    zero (the interface asks for a positive one). *)
Definition rate_argument (o : option pynum) : Prop :=
  match o with
  | Some q => ~ (q == 0)%Q
  | None => True
  end.

(** The nyquist limit in force: the one given, or half the sampling
    rate. *)
Definition effective_nyquist (nyquist sampling_rate : option pynum) : Q :=
  if truthy nyquist then number nyquist else (number sampling_rate / 2)%Q.

(** A rate configuration that raises no [ConfigError]. *)
Definition rates_consistent (nyquist sampling_rate : option pynum) : Prop :=
  (truthy nyquist = true \/ truthy sampling_rate = true) /\
  (truthy nyquist = true -> truthy sampling_rate = true ->
   (number nyquist == number sampling_rate / 2)%Q).

(** No entry of [l] other than the one at index [i] equals [m]: the
    value [m] occurs once. *)
Definition occurs_once (l : list Q) (i : nat) (m : Q) : Prop :=
  forall k f, k <> i -> nth_error l k = Some f -> ~ (f == m)%Q.

(** Points in the order of their frequencies. *)
Fixpoint sorted_by_x (l : list point) : Prop :=
  match l with
  | [] => True
  | p :: r => (forall q, In q r -> (fst p <= fst q)%Q) /\ sorted_by_x r
  end.

(** [freq_func(q)] is a number equal to [v]. *)
Definition responds (f : list point) (q v : Q) : Prop :=
  exists v', interp_at f q = Ok v' /\ (v' == v)%Q.

(** A sample of the file is a number of absolute value at most [b]. *)
Definition within (b : R) (x : sample) : Prop :=
  exists r, x = Finite r /\ (Rabs r <= b)%R.

(** A sample of the file is a number of absolute value exactly [b]. *)
Definition peaks_at (b : R) (x : sample) : Prop :=
  exists r, x = Finite r /\ Rabs r = b.

(** The phases of the instances below: every draw is [0]. *)
Definition rng_zero : nat -> R := fun _ => 0%R.

(** ** Further vocabulary *)

(** The line through two control points, at the frequency [q]. *)
Definition line_through (a b : point) (q : Q) : Q :=
  ((snd b - snd a) / (fst b - fst a) * (q - fst a) + snd a)%Q.



(** The modulus of a complex number: [np.abs]. *)
Definition Cabs (z : C) : R := sqrt (Re z * Re z + Im z * Im z).

(** The sum of [y[k] * cos(phase[k] + 2*pi*t*k/N)] over the bins [l]
    that start at index [k]: with [rng k] the phase of bin [k], the
    cosines that the bins contribute to sample [t] of a signal of [N]
    samples. *)
Fixpoint cosine_sum (rng : nat -> R) (N t k : nat) (l : list Q) : R :=
  match l with
  | [] => 0%R
  | a :: r =>
      (Q2R a * cos (rng k + 2 * PI * INR t * INR k / INR N)
       + cosine_sum rng N t (S k) r)%R
  end.

(** The sum of the entries of an array: [np.sum]. *)
Definition total (l : list R) : R := fold_right Rplus 0%R l.

(** ** [examples.py] *)

(** One call of [generate_white_noise] in [examples.py]: the path, the
    control points and the two policies.  Every call passes
    [nyquist=8000] and leaves the sampling rate, the duration and [eps]
    at their defaults. *)
Record example : Type := {
  ex_path : string;
  ex_freqs : list Q;
  ex_responses : list Q;
  ex_lb_type : string;
  ex_ub_type : string
}.

(** The eight calls, in the order of the script (lines 9-30). *)
Definition examples : list example :=
  [ {| ex_path := "Examples/uniform_0Hz-8000Hz.wav";
       ex_freqs := [4000%Q]; ex_responses := [1%Q];
       ex_lb_type := "flat"; ex_ub_type := "flat" |};
    {| ex_path := "Examples/uniform_2000Hz-6000Hz_zero_boundary.wav";
       ex_freqs := [2000%Q; 6000%Q]; ex_responses := [1%Q; 1%Q];
       ex_lb_type := "zero"; ex_ub_type := "zero" |};
    {| ex_path := "Examples/uniform_2000Hz-6000Hz_linear_boundary.wav";
       ex_freqs := [2000%Q; 6000%Q]; ex_responses := [1%Q; 1%Q];
       ex_lb_type := "linear"; ex_ub_type := "linear" |};
    {| ex_path := "Examples/triangular_0Hz-8000Hz.wav";
       ex_freqs := [4000%Q]; ex_responses := [1%Q];
       ex_lb_type := "linear"; ex_ub_type := "linear" |};
    {| ex_path := "Examples/triangular_2000Hz-6000Hz_zero_boundary.wav.wav";
       ex_freqs := [2000%Q; 4000%Q; 6000%Q]; ex_responses := [0%Q; 1%Q; 0%Q];
       ex_lb_type := default_type; ex_ub_type := default_type |};
    {| ex_path := "Examples/decreasing_0Hz-8000Hz.wav";
       ex_freqs := [0%Q]; ex_responses := [1%Q];
       ex_lb_type := default_type; ex_ub_type := "linear" |};
    {| ex_path := "Examples/decreasing_2000Hz-8000Hz_zero_boundary.wav";
       ex_freqs := [2000%Q]; ex_responses := [1%Q];
       ex_lb_type := "zero"; ex_ub_type := "linear" |};
    {| ex_path := "Examples/impulse_4000Hz.wav";
       ex_freqs := [4000%Q]; ex_responses := [1%Q];
       ex_lb_type := "zero"; ex_ub_type := "zero" |} ].

Definition run_example (rng : nat -> R) (c : example) : result wav :=
  generate_white_noise rng (ex_path c) (ex_freqs c) (ex_responses c)
    (Some (PyInt 8000)) None default_duration (ex_lb_type c) (ex_ub_type c)
    default_eps.

(** The script: the calls in order, call [k] with the draws [rngs k];
    the first exception ends it. *)
Fixpoint run_examples (rngs : nat -> nat -> R) (k : nat) (l : list example)
    : result (list wav) :=
  match l with
  | [] => Ok []
  | c :: rest =>
      w <- run_example (rngs k) c ;;
      ws <- run_examples rngs (S k) rest ;;
      Ok (w :: ws)
  end.

Definition examples_main (rngs : nat -> nat -> R) : result (list wav) :=
  run_examples rngs 0 examples.

(** * Properties *)

(** ** Results *)

Lemma bind_ok {A B : Type} (m : result A) (k : A -> result B) (b : B) :
  bind m k = Ok b -> exists a, m = Ok a /\ k a = Ok b.
Proof.
  destruct m as [a | e]; simpl; intros H; try discriminate.
  exists a; split; [reflexivity | exact H].
Qed.

Ltac bind_inv H :=
  let a := fresh "a" in
  let Ha := fresh "Ha" in
  apply bind_ok in H as [a [Ha H]].

(** ** Order on the rationals *)

Lemma Qltb_lt (x y : Q) : Qltb x y = true <-> (x < y)%Q.
Proof.
  unfold Qltb; rewrite negb_true_iff; split; intros H.
  - apply Qnot_le_lt; intros Hle.
    apply Qle_bool_iff in Hle; congruence.
  - destruct (Qle_bool y x) eqn:E; [| reflexivity].
    apply Qle_bool_iff in E; exfalso; exact (Qlt_not_le _ _ H E).
Qed.

Lemma Qltb_ge (x y : Q) : Qltb x y = false <-> (y <= x)%Q.
Proof.
  unfold Qltb; rewrite negb_false_iff; apply Qle_bool_iff.
Qed.

Lemma Qle_bool_gt (x y : Q) : Qle_bool x y = false <-> (y < x)%Q.
Proof.
  rewrite <- Qltb_lt; unfold Qltb; rewrite negb_true_iff; reflexivity.
Qed.

(** ** Lengths along the pipeline *)

Lemma spectral_samples_length (rng : nat -> R) (y : list Q) :
  length (spectral_samples y (map rng (seq 0 (length y)))) = length y.
Proof.
  generalize 0%nat as k.
  induction y as [| a y IH]; intros k; simpl; [reflexivity |].
  f_equal; apply IH.
Qed.

Lemma interior_reversed_length {A : Type} (z : list A) :
  length (interior_reversed z) = (length z - 2)%nat.
Proof.
  unfold interior_reversed.
  rewrite length_rev, length_tl, removelast_firstn_len, length_firstn; lia.
Qed.

Lemma mirror_length (z : list C) :
  length (mirror z) = (length z + (length z - 2))%nat.
Proof.
  unfold mirror; rewrite length_app, length_map, interior_reversed_length.
  reflexivity.
Qed.

Lemma ifft_length (x : list C) : length (ifft x) = length x.
Proof. unfold ifft; rewrite length_map, length_seq; reflexivity. Qed.

Lemma np_linspace_length (start stop : Q) (num : nat) :
  length (np_linspace start stop num) = num.
Proof. unfold np_linspace; rewrite length_map, length_seq; reflexivity. Qed.

Lemma value_py_add (a b : pynum) : (value (py_add a b) == a + b)%Q.
Proof.
  destruct a, b; simpl; first [reflexivity | rewrite inject_Z_plus; reflexivity].
Qed.

Lemma value_py_mul (a b : pynum) : (value (py_mul a b) == a * b)%Q.
Proof.
  destruct a, b; simpl; first [reflexivity | rewrite inject_Z_mult; reflexivity].
Qed.

Lemma n_samples_value (duration nyquist : pynum) :
  (value (py_add (py_mul duration nyquist) (PyInt 1)) == duration * nyquist + 1)%Q.
Proof. rewrite value_py_add, value_py_mul; reflexivity. Qed.

Lemma as_count_integer (z : Z) :
  (0 <= z)%Z -> as_count (PyInt z) = Ok (Z.to_nat z).
Proof.
  intros Hz; simpl.
  destruct (z <? 0)%Z eqn:E; [apply Z.ltb_lt in E; lia | reflexivity].
Qed.

(** A count that [np.linspace] accepts is an [int], and not negative. *)
Lemma as_count_ok (n : pynum) (num : nat) :
  as_count n = Ok num ->
  exists z, n = PyInt z /\ (0 <= z)%Z /\ num = Z.to_nat z.
Proof.
  destruct n as [z | q]; simpl; [| discriminate].
  destruct (z <? 0)%Z eqn:E; [discriminate |].
  apply Z.ltb_ge in E. intros H; inversion H.
  exists z; repeat split; [exact E].
Qed.

Lemma as_count_value (n : pynum) (num : nat) (z : Z) :
  as_count n = Ok num -> (value n == inject_Z z)%Q -> num = Z.to_nat z.
Proof.
  intros H Hz. destruct (as_count_ok _ _ H) as (z' & -> & _ & ->).
  cbn [value] in Hz. apply (proj1 (inject_Z_injective z' z)) in Hz.
  rewrite Hz; reflexivity.
Qed.

Lemma interp_call_length (f : list point) (qs ys : list Q) :
  interp_call f qs = Ok ys -> length ys = length qs.
Proof.
  unfold interp_call; destruct (existsb _ _); [discriminate |].
  intros H; inversion H. apply length_map.
Qed.

Lemma sample_response_length (fe re : list Q) (nyquist duration : pynum)
    (x_f y : list Q) (z : Z) :
  sample_response fe re nyquist duration = Ok (x_f, y) ->
  (duration * nyquist + 1 == inject_Z z)%Q -> (0 <= z)%Z ->
  length x_f = Z.to_nat z /\ length y = Z.to_nat z.
Proof.
  intros H Hz Hpos; unfold sample_response in H.
  bind_inv H. bind_inv H.
  rewrite <- n_samples_value in Hz.
  apply (as_count_value _ _ _ Ha0) in Hz; subst a0.
  bind_inv H. inversion H; subst; clear H.
  apply interp_call_length in Ha1.
  rewrite np_linspace_length in *; split; [reflexivity | exact Ha1].
Qed.

Lemma full_spectrum_length (rng : nat -> R) (y : list Q) :
  length (full_spectrum rng y) = (length y + (length y - 2))%nat.
Proof.
  unfold full_spectrum; rewrite mirror_length, spectral_samples_length.
  reflexivity.
Qed.

Lemma get_signal_stages (rng : nat -> R) (freqs responses : list Q)
    (nyquist sampling_rate duration : pynum) (lb_type ub_type : string) (eps : Q)
    (x_t : list Q) (signal_t : list R) :
  get_signal rng freqs responses nyquist sampling_rate duration lb_type ub_type eps
    = Ok (x_t, signal_t) ->
  exists fe re x_f y,
    extend_boundaries freqs responses nyquist lb_type ub_type eps = Ok (fe, re) /\
    sample_response fe re nyquist duration = Ok (x_f, y) /\
    Qeq_bool sampling_rate 0 = false /\
    x_t = np_arange 0 duration (fl (1 / sampling_rate)) /\
    signal_t = map Re (ifft (full_spectrum rng y)) /\
    (0 < length y)%nat.
Proof.
  unfold get_signal; intros H.
  bind_inv H. destruct a as [fe re].
  bind_inv H. destruct a as [x_f y].
  bind_inv H.
  destruct (Qeq_bool sampling_rate 0) eqn:E; [discriminate |].
  inversion H; subst; clear H.
  assert (Hz : a = ifft (full_spectrum rng y) /\ (0 < length y)%nat).
  { unfold fftpack_ifft in Ha1.
    destruct (full_spectrum rng y) as [| c l] eqn:Ef; [discriminate |].
    inversion Ha1; split; [reflexivity |].
    apply (f_equal (@length C)) in Ef.
    rewrite full_spectrum_length in Ef. simpl in Ef; lia. }
  destruct Hz as [-> Hy].
  exists fe, re, x_f, y; repeat split; assumption.
Qed.

Lemma get_signal_run (rng : nat -> R) (freqs responses : list Q)
    (nyquist sampling_rate duration : pynum) (lb_type ub_type : string) (eps : Q)
    (fe re x_f y : list Q) :
  extend_boundaries freqs responses nyquist lb_type ub_type eps = Ok (fe, re) ->
  sample_response fe re nyquist duration = Ok (x_f, y) ->
  Qeq_bool sampling_rate 0 = false ->
  (0 < length y)%nat ->
  get_signal rng freqs responses nyquist sampling_rate duration lb_type ub_type eps
    = Ok (np_arange 0 duration (fl (1 / sampling_rate)),
          map Re (ifft (full_spectrum rng y))).
Proof.
  intros He Hs Hr Hy; unfold get_signal.
  rewrite He; cbn [bind]. rewrite Hs; cbn [bind].
  unfold fftpack_ifft.
  destruct (full_spectrum rng y) as [| c l] eqn:Ef.
  - apply (f_equal (@length C)) in Ef.
    rewrite full_spectrum_length in Ef. simpl in Ef; lia.
  - cbn [bind]. rewrite Hr; reflexivity.
Qed.

Lemma generate_white_noise_stages (rng : nat -> R) (outfile_path : string)
    (freqs responses : list Q) (nyquist sampling_rate : option pynum)
    (duration : pynum) (lb_type ub_type : string) (eps : Q) (w : wav) :
  generate_white_noise rng outfile_path freqs responses nyquist sampling_rate
    duration lb_type ub_type eps = Ok w ->
  exists nyq sr t signal m,
    resolve_rates freqs nyquist sampling_rate = Ok (nyq, sr) /\
    get_signal rng freqs responses nyq sr duration lb_type ub_type eps
      = Ok (t, signal) /\
    py_max_R (map Rabs signal) = Ok m /\
    w = {| wav_path := outfile_path; wav_rate := sr;
           wav_data := map (fun s => np_div (8 / 10 * s) m) signal |}.
Proof.
  unfold generate_white_noise; intros H.
  bind_inv H. destruct a as [nyq sr].
  bind_inv H. destruct a as [t signal].
  unfold write_normalized in H.
  bind_inv H. inversion H; subst; clear H.
  exists nyq, sr, t, signal, a; repeat split; assumption.
Qed.

(** C1.  When [nyquist = sampling_rate/2] and [duration*nyquist] is a
    positive integer [p], a signal that [get_signal] returns comes from a
    grid of [n = p + 1] bins and a mirrored spectrum of [2n - 2] entries,
    and has exactly [duration*sampling_rate] samples; the file that
    [generate_white_noise] writes has as many samples, at that rate. *)
Theorem get_signal_sample_count (rng : nat -> R) (freqs responses : list Q)
    (nyquist sampling_rate duration : pynum) (lb_type ub_type : string) (eps : Q)
    (x_t : list Q) (signal_t : list R) (p : positive) :
  get_signal rng freqs responses nyquist sampling_rate duration lb_type ub_type eps
    = Ok (x_t, signal_t) ->
  (nyquist == sampling_rate / 2)%Q ->
  (duration * nyquist == inject_Z (Zpos p))%Q ->
  (exists fe re x_f y,
     extend_boundaries freqs responses nyquist lb_type ub_type eps = Ok (fe, re) /\
     sample_response fe re nyquist duration = Ok (x_f, y) /\
     length x_f = (Pos.to_nat p + 1)%nat /\
     length y = length x_f /\
     length (full_spectrum rng y) = (2 * length x_f - 2)%nat /\
     signal_t = map Re (ifft (full_spectrum rng y))) /\
  (inject_Z (Z.of_nat (length signal_t)) == duration * sampling_rate)%Q /\
  (forall (outfile_path : string) (nyquist_arg sampling_rate_arg : option pynum) (w : wav),
     resolve_rates freqs nyquist_arg sampling_rate_arg = Ok (nyquist, sampling_rate) ->
     generate_white_noise rng outfile_path freqs responses nyquist_arg
       sampling_rate_arg duration lb_type ub_type eps = Ok w ->
     length (wav_data w) = length signal_t /\ wav_rate w = sampling_rate).
Proof.
  intros Hget Hnyq Hp.
  destruct (get_signal_stages _ _ _ _ _ _ _ _ _ _ _ Hget)
    as (fe & re & x_f & y & Hext & Hsamp & Hrate & Hxt & Hsig & _).
  assert (Hn : (duration * nyquist + 1 == inject_Z (Zpos p + 1))%Q).
  { rewrite Hp, inject_Z_plus; reflexivity. }
  destruct (sample_response_length _ _ _ _ _ _ _ Hsamp Hn ltac:(lia)) as [Lx Ly].
  assert (Lp : Z.to_nat (Z.pos p + 1) = (Pos.to_nat p + 1)%nat) by lia.
  assert (Lsig : length signal_t = (2 * Pos.to_nat p)%nat).
  { rewrite Hsig, length_map, ifft_length, full_spectrum_length, Ly; lia. }
  split; [| split].
  - exists fe, re, x_f, y; repeat split; try assumption.
    + lia.
    + lia.
    + rewrite full_spectrum_length; lia.
  - rewrite Lsig.
    assert (Hsr : (sampling_rate == 2 * nyquist)%Q) by (rewrite Hnyq; field).
    rewrite Hsr.
    assert (E : (duration * (2 * nyquist) == 2 * (duration * nyquist))%Q) by ring.
    rewrite E, Hp.
    rewrite Nat2Z.inj_mul, positive_nat_Z, inject_Z_mult; reflexivity.
  - intros outfile_path nyquist_arg sampling_rate_arg w Hres Hgen.
    destruct (generate_white_noise_stages _ _ _ _ _ _ _ _ _ _ _ Hgen)
      as (nyq & sr & t & signal & m & Hres' & Hget' & _ & Hw).
    rewrite Hres in Hres'; inversion Hres'; subst nyq sr.
    rewrite Hget in Hget'; inversion Hget'; subst t signal.
    rewrite Hw; simpl; rewrite length_map; split; reflexivity.
Qed.

(** ** The mirrored spectrum *)

Lemma interior_reversed_nth {A : Type} (z : list A) (d : A) (j : nat) :
  (j < length z - 2)%nat ->
  nth j (interior_reversed z) d = nth (length z - 2 - j) z d.
Proof.
  intros Hj; unfold interior_reversed.
  assert (Hlen : length (tl (removelast z)) = (length z - 2)%nat).
  { rewrite length_tl, removelast_firstn_len, length_firstn; lia. }
  rewrite rev_nth by (rewrite Hlen; exact Hj).
  rewrite Hlen.
  destruct z as [| a z]; [simpl in Hj; lia |].
  destruct z as [| b z]; [simpl in Hj; lia |].
  change (removelast (a :: b :: z)) with (a :: removelast (b :: z)).
  cbn [tl].
  rewrite removelast_firstn_len, nth_firstn.
  simpl length in *.
  destruct (Nat.ltb_spec (S (S (length z)) - 2 - S j) (Nat.pred (S (length z))));
    [| lia].
  replace (S (S (length z)) - 2 - j)%nat with (S (S (S (length z)) - 2 - S j)) by lia.
  reflexivity.
Qed.

Lemma mirror_nth_low (z : list C) (d : C) (k : nat) :
  (k < length z)%nat -> nth k (mirror z) d = nth k z d.
Proof. intros Hk; unfold mirror; apply app_nth1; exact Hk. Qed.

Lemma mirror_nth_high (z : list C) (d : C) (k : nat) :
  (1 <= k <= length z - 2)%nat ->
  nth (2 * length z - 2 - k) (mirror z) d = Cconj (nth k z d).
Proof.
  intros Hk; unfold mirror.
  rewrite app_nth2 by lia.
  rewrite (nth_indep _ d (Cconj d))
    by (rewrite length_map, interior_reversed_length; lia).
  rewrite map_nth, interior_reversed_nth by lia.
  do 2 f_equal; lia.
Qed.

(** C8.  The spectrum handed to [ifft] starts with the [n]
    positive-frequency samples and goes on with [n - 2] entries, the
    conjugates of the bins [n-2] down to [1]: its length is [2n - 2] and
    for every interior index [1 <= k <= n-2] its entry at [2n-2-k] is the
    conjugate of its entry at [k].  The bins [0] and [n-1] have no
    mirrored copy. *)
Theorem full_spectrum_conjugate_symmetry (rng : nat -> R) (y : list Q) (k : nat) :
  let n := length y in
  let positive := spectral_samples y (map rng (seq 0 n)) in
  let S := full_spectrum rng y in
  (1 <= k <= n - 2)%nat ->
  length positive = n /\
  firstn n S = positive /\
  skipn n S = map Cconj (rev (firstn (n - 2) (skipn 1 positive))) /\
  length S = (2 * n - 2)%nat /\
  nth (2 * n - 2 - k) S (0, 0)%R = Cconj (nth k S (0, 0)%R).
Proof.
  intros n positive S Hk.
  assert (Hlen : length positive = n) by apply spectral_samples_length.
  assert (HS : S = mirror positive) by reflexivity.
  split; [exact Hlen |].
  split; [| split; [| split]].
  - rewrite HS; unfold mirror.
    rewrite <- Hlen, firstn_app, Nat.sub_diag, firstn_all; simpl.
    apply app_nil_r.
  - rewrite HS; unfold mirror.
    rewrite <- Hlen, skipn_app, Nat.sub_diag, skipn_all; simpl.
    unfold interior_reversed.
    do 2 f_equal.
    rewrite removelast_firstn_len.
    destruct positive as [| a r]; [reflexivity |].
    simpl length. simpl Nat.pred.
    destruct (length r) as [| m] eqn:E; [reflexivity |].
    simpl. rewrite Nat.sub_0_r; reflexivity.
  - rewrite HS, mirror_length, Hlen; lia.
  - rewrite HS, <- Hlen.
    rewrite mirror_nth_high by lia.
    rewrite mirror_nth_low by lia.
    reflexivity.
Qed.

(** ** First minimum and first maximum *)

Lemma first_min_correct (x : Q) (r : list Q) :
  is_first_min (x :: r) (fst (first_min x r)) (snd (first_min x r)).
Proof.
  revert x; induction r as [| y r IH]; intros x.
  - simpl; repeat split.
    + intros z [<- | []]; apply Qle_refl.
    + intros i z Hi; lia.
  - simpl. destruct (first_min y r) as [j m] eqn:E.
    specialize (IH y); rewrite E in IH; simpl in IH.
    destruct IH as (Hnth & Hall & Hbefore).
    destruct (Qle_bool x m) eqn:Hc; simpl.
    + apply Qle_bool_iff in Hc. repeat split.
      * intros z [<- | Hz]; [apply Qle_refl |].
        eapply Qle_trans; [exact Hc | apply Hall; exact Hz].
      * intros i z Hi; lia.
    + apply Qle_bool_gt in Hc. repeat split.
      * exact Hnth.
      * intros z [<- | Hz]; [apply Qlt_le_weak; exact Hc | apply Hall; exact Hz].
      * intros [| i] z Hi Hz; simpl in Hz.
        -- inversion Hz; subst; exact Hc.
        -- apply (Hbefore i z); [lia | exact Hz].
Qed.

Lemma first_max_correct (x : Q) (r : list Q) :
  is_first_max (x :: r) (fst (first_max x r)) (snd (first_max x r)).
Proof.
  revert x; induction r as [| y r IH]; intros x.
  - simpl; repeat split.
    + intros z [<- | []]; apply Qle_refl.
    + intros i z Hi; lia.
  - simpl. destruct (first_max y r) as [j m] eqn:E.
    specialize (IH y); rewrite E in IH; simpl in IH.
    destruct IH as (Hnth & Hall & Hbefore).
    destruct (Qle_bool m x) eqn:Hc; simpl.
    + apply Qle_bool_iff in Hc. repeat split.
      * intros z [<- | Hz]; [apply Qle_refl |].
        eapply Qle_trans; [apply Hall; exact Hz | exact Hc].
      * intros i z Hi; lia.
    + apply Qle_bool_gt in Hc. repeat split.
      * exact Hnth.
      * intros z [<- | Hz]; [apply Qlt_le_weak; exact Hc | apply Hall; exact Hz].
      * intros [| i] z Hi Hz; simpl in Hz.
        -- inversion Hz; subst; exact Hc.
        -- apply (Hbefore i z); [lia | exact Hz].
Qed.

Lemma is_first_min_unique (l : list Q) (j j' : nat) (m m' : Q) :
  is_first_min l j m -> is_first_min l j' m' -> j = j' /\ m = m'.
Proof.
  intros (Hn & Ha & Hb) (Hn' & Ha' & Hb').
  assert (Hj : j = j').
  { destruct (Nat.lt_trichotomy j j') as [H | [H | H]]; [| exact H |].
    - pose proof (Hb' j m H Hn) as H1.
      pose proof (Ha m' (nth_error_In _ _ Hn')) as H2.
      exfalso; exact (Qlt_not_le _ _ H1 H2).
    - pose proof (Hb j' m' H Hn') as H1.
      pose proof (Ha' m (nth_error_In _ _ Hn)) as H2.
      exfalso; exact (Qlt_not_le _ _ H1 H2). }
  subst j'; split; [reflexivity | congruence].
Qed.

Lemma is_first_max_unique (l : list Q) (j j' : nat) (m m' : Q) :
  is_first_max l j m -> is_first_max l j' m' -> j = j' /\ m = m'.
Proof.
  intros (Hn & Ha & Hb) (Hn' & Ha' & Hb').
  assert (Hj : j = j').
  { destruct (Nat.lt_trichotomy j j') as [H | [H | H]]; [| exact H |].
    - pose proof (Hb' j m H Hn) as H1.
      pose proof (Ha m' (nth_error_In _ _ Hn')) as H2.
      exfalso; exact (Qlt_not_le _ _ H1 H2).
    - pose proof (Hb j' m' H Hn') as H1.
      pose proof (Ha' m (nth_error_In _ _ Hn)) as H2.
      exfalso; exact (Qlt_not_le _ _ H1 H2). }
  subst j'; split; [reflexivity | congruence].
Qed.

Lemma is_first_min_nonempty (l : list Q) (j : nat) (m : Q) :
  is_first_min l j m -> exists x r, l = x :: r.
Proof.
  intros (Hn & _); destruct l as [| x r]; [destruct j; discriminate |].
  exists x, r; reflexivity.
Qed.

Lemma is_first_max_nonempty (l : list Q) (j : nat) (m : Q) :
  is_first_max l j m -> exists x r, l = x :: r.
Proof.
  intros (Hn & _); destruct l as [| x r]; [destruct j; discriminate |].
  exists x, r; reflexivity.
Qed.

(** What [np.argmin] and the indexing that follows it return. *)
Lemma np_argmin_first_min (l : list Q) (j : nat) (m : Q) :
  is_first_min l j m -> np_argmin l = Ok j /\ py_index l j = Ok m.
Proof.
  intros H. destruct (is_first_min_nonempty _ _ _ H) as (x & r & ->).
  destruct (is_first_min_unique _ _ _ _ _ H (first_min_correct x r)) as [Hj Hm].
  unfold np_argmin, py_index; rewrite <- Hj.
  destruct H as (Hn & _); rewrite Hn; split; reflexivity.
Qed.

Lemma np_argmax_first_max (l : list Q) (j : nat) (m : Q) :
  is_first_max l j m -> np_argmax l = Ok j /\ py_index l j = Ok m.
Proof.
  intros H. destruct (is_first_max_nonempty _ _ _ H) as (x & r & ->).
  destruct (is_first_max_unique _ _ _ _ _ H (first_max_correct x r)) as [Hj Hm].
  unfold np_argmax, py_index; rewrite <- Hj.
  destruct H as (Hn & _); rewrite Hn; split; reflexivity.
Qed.

Lemma py_max_first_max (l : list Q) (j : nat) (m : Q) :
  is_first_max l j m -> py_max l = Ok m.
Proof.
  intros H. destruct (is_first_max_nonempty _ _ _ H) as (x & r & ->).
  destruct (is_first_max_unique _ _ _ _ _ H (first_max_correct x r)) as [Hj Hm].
  unfold py_max; rewrite Hm; reflexivity.
Qed.

(** Appending entries that do not exceed the maximum moves neither the
    maximum nor its first index. *)
Lemma is_first_max_app (l extra : list Q) (j : nat) (m : Q) :
  is_first_max l j m ->
  (forall z, In z extra -> (z <= m)%Q) ->
  is_first_max (l ++ extra) j m.
Proof.
  intros (Hn & Ha & Hb) He.
  assert (Hj : (j < length l)%nat) by (apply nth_error_Some; congruence).
  repeat split.
  - rewrite nth_error_app1 by exact Hj; exact Hn.
  - intros z Hz; apply in_app_or in Hz as [Hz | Hz]; [apply Ha | apply He]; exact Hz.
  - intros i z Hi Hz. rewrite nth_error_app1 in Hz by lia.
    apply (Hb i z Hi Hz).
Qed.

Lemma is_first_min_le_max (l : list Q) (i j : nat) (m M : Q) :
  is_first_min l i m -> is_first_max l j M -> (m <= M)%Q.
Proof.
  intros (Hn & _) (_ & Ha & _); apply Ha; exact (nth_error_In _ _ Hn).
Qed.

(** ** The boundary extender against its specification *)

Lemma policy_of_cases (s : string) (p : BoundaryPolicy) :
  policy_of s = Some p ->
  match p with
  | Flat => String.eqb s "flat" = true
  | Linear => String.eqb s "flat" = false /\ String.eqb s "linear" = true
  | Zero => String.eqb s "flat" = false /\ String.eqb s "linear" = false /\
            String.eqb s "zero" = true
  end.
Proof.
  unfold policy_of.
  destruct (String.eqb s "zero") eqn:Ez.
  - apply String.eqb_eq in Ez; subst s; intros H; inversion H; subst p.
    repeat split; reflexivity.
  - destruct (String.eqb s "flat") eqn:Ef.
    + intros H; inversion H; reflexivity.
    + destruct (String.eqb s "linear") eqn:El; intros H; inversion H.
      split; reflexivity.
Qed.

Lemma policy_of_none (s : string) :
  policy_of s = None ->
  String.eqb s "flat" = false /\ String.eqb s "linear" = false /\
  String.eqb s "zero" = false.
Proof.
  unfold policy_of.
  destruct (String.eqb s "zero"); [discriminate |].
  destruct (String.eqb s "flat"); [discriminate |].
  destruct (String.eqb s "linear"); [discriminate |].
  intros _; repeat split; reflexivity.
Qed.

Lemma extend_low_result (freqs responses : list Q) (lb_type : string) (eps : Q)
    (i : nat) (m r_m : Q) (p : BoundaryPolicy) :
  is_first_min freqs i m ->
  nth_error responses i = Some r_m ->
  (0 <= m)%Q ->
  ((0 < m)%Q -> policy_of lb_type = Some p) ->
  let low := if Qltb 0 m then spec_low_points p m r_m eps else [] in
  extend_low freqs responses lb_type eps
    = Ok (freqs ++ map fst low, responses ++ map snd low).
Proof.
  intros Hmin Hr Hm Hp low; unfold extend_low.
  destruct (np_argmin_first_min _ _ _ Hmin) as [H1 H2].
  rewrite H1; cbn [bind]; rewrite H2; cbn [bind].
  apply Qltb_ge in Hm; rewrite Hm.
  subst low. destruct (Qltb 0 m) eqn:E.
  - apply Qltb_lt in E. specialize (Hp E).
    apply policy_of_cases in Hp. destruct p.
    + destruct Hp as (-> & -> & ->); reflexivity.
    + rewrite Hp. unfold py_index; rewrite Hr; reflexivity.
    + destruct Hp as (-> & ->); reflexivity.
  - simpl; rewrite !app_nil_r; reflexivity.
Qed.

Lemma extend_high_result (fe re : list Q) (nyquist : Q) (ub_type : string)
    (eps : Q) (j : nat) (M r_M : Q) (p : BoundaryPolicy) :
  is_first_max fe j M ->
  nth_error re j = Some r_M ->
  (M <= nyquist)%Q ->
  ((M < nyquist)%Q -> policy_of ub_type = Some p) ->
  let high := if Qltb M nyquist then spec_high_points p M r_M nyquist eps else [] in
  extend_high fe re nyquist ub_type eps
    = Ok (fe ++ map fst high, re ++ map snd high).
Proof.
  intros Hmax Hr Hm Hp high; unfold extend_high.
  destruct (np_argmax_first_max _ _ _ Hmax) as [H1 H2].
  rewrite H1; cbn [bind]; rewrite H2; cbn [bind].
  apply Qltb_ge in Hm; rewrite Hm.
  subst high. destruct (Qltb M nyquist) eqn:E.
  - apply Qltb_lt in E. specialize (Hp E).
    apply policy_of_cases in Hp. destruct p.
    + destruct Hp as (-> & -> & ->); reflexivity.
    + rewrite Hp. unfold py_index; rewrite Hr; reflexivity.
    + destruct Hp as (-> & ->); reflexivity.
  - simpl; rewrite !app_nil_r; reflexivity.
Qed.

(** The low-boundary points do not exceed the maximum. *)
Lemma low_points_below_max (p : BoundaryPolicy) (m r_m eps M : Q) :
  (0 <= eps)%Q -> (0 <= m)%Q -> (m <= M)%Q ->
  forall z, In z (map fst (if Qltb 0 m then spec_low_points p m r_m eps else [])) ->
  (z <= M)%Q.
Proof.
  intros He Hm HM z Hz.
  destruct (Qltb 0 m); [| destruct Hz].
  destruct p; cbn [spec_low_points map fst In] in Hz.
  - destruct Hz as [<- | [<- | []]]; lra.
  - destruct Hz as [<- | []]; lra.
  - destruct Hz as [<- | []]; lra.
Qed.

(** The result of the extender on frequencies within [[0, nyquist]]. *)
Lemma extend_boundaries_result
    (freqs responses : list Q) (nyquist : Q) (lb_type ub_type : string) (eps : Q)
    (i j : nat) (m M r_m r_M : Q) (pl pu : BoundaryPolicy) :
  is_first_min freqs i m ->
  is_first_max freqs j M ->
  nth_error responses i = Some r_m ->
  nth_error responses j = Some r_M ->
  (0 <= eps)%Q ->
  (0 <= m)%Q ->
  (M <= nyquist)%Q ->
  ((0 < m)%Q -> policy_of lb_type = Some pl) ->
  ((M < nyquist)%Q -> policy_of ub_type = Some pu) ->
  let low := if Qltb 0 m then spec_low_points pl m r_m eps else [] in
  let high := if Qltb M nyquist then spec_high_points pu M r_M nyquist eps else [] in
  extend_boundaries freqs responses nyquist lb_type ub_type eps
    = Ok (freqs ++ map fst low ++ map fst high,
          responses ++ map snd low ++ map snd high).
Proof.
  intros Hmin Hmax Hrm HrM Heps Hm HM Hpl Hpu low high.
  unfold extend_boundaries.
  rewrite (extend_low_result _ _ _ eps _ _ _ pl Hmin Hrm Hm Hpl); simpl.
  fold low.
  assert (Hmax' : is_first_max (freqs ++ map fst low) j M).
  { apply is_first_max_app; [exact Hmax |].
    apply low_points_below_max; [exact Heps | exact Hm |].
    exact (is_first_min_le_max _ _ _ _ _ Hmin Hmax). }
  assert (HrM' : nth_error (responses ++ map snd low) j = Some r_M).
  { rewrite nth_error_app1; [exact HrM |].
    apply nth_error_Some; congruence. }
  rewrite (extend_high_result _ _ _ _ eps _ _ _ pu Hmax' HrM' HM Hpu).
  fold high. rewrite <- !app_assoc; reflexivity.
Qed.

(** C6.  With [m = min(freqs)] first attained at index [i],
    [M = max(freqs)] first attained at index [j], the responses [r_m] and
    [r_M] at these indices, [0 <= m], [M <= nyquist] and [0 <= eps], the
    extender returns the control points unchanged, followed by the
    low-boundary points of the specification when [0 < m] (none when
    [m == 0]), followed by the high-boundary points of the specification
    when [M < nyquist] (none when [M == nyquist]).  A policy has to be a
    valid one only on a side that is extended. *)
Theorem extend_boundaries_appends_policy_points
    (freqs responses : list Q) (nyquist : Q) (lb_type ub_type : string) (eps : Q)
    (i j : nat) (m M r_m r_M : Q) (pl pu : BoundaryPolicy) :
  is_first_min freqs i m ->
  is_first_max freqs j M ->
  nth_error responses i = Some r_m ->
  nth_error responses j = Some r_M ->
  (0 <= eps)%Q ->
  (0 <= m)%Q ->
  (M <= nyquist)%Q ->
  ((0 < m)%Q -> policy_of lb_type = Some pl) ->
  ((M < nyquist)%Q -> policy_of ub_type = Some pu) ->
  let low := if Qltb 0 m then spec_low_points pl m r_m eps else [] in
  let high := if Qltb M nyquist then spec_high_points pu M r_M nyquist eps else [] in
  extend_boundaries freqs responses nyquist lb_type ub_type eps
    = Ok (freqs ++ map fst low ++ map fst high,
          responses ++ map snd low ++ map snd high) /\
  ((0 < m)%Q -> low = spec_low_points pl m r_m eps) /\
  ((m == 0)%Q -> low = []) /\
  ((M < nyquist)%Q -> high = spec_high_points pu M r_M nyquist eps) /\
  ((M == nyquist)%Q -> high = []).
Proof.
  intros Hmin Hmax Hrm HrM Heps Hm HM Hpl Hpu low high.
  split; [| repeat split].
  - exact (extend_boundaries_result _ _ _ _ _ _ _ _ _ _ _ _ _ _
             Hmin Hmax Hrm HrM Heps Hm HM Hpl Hpu).
  - intros H0. subst low. apply Qltb_lt in H0; rewrite H0; reflexivity.
  - intros H0. subst low.
    destruct (Qltb 0 m) eqn:E; [| reflexivity].
    apply Qltb_lt in E; lra.
  - intros H0. subst high. apply Qltb_lt in H0; rewrite H0; reflexivity.
  - intros H0. subst high.
    destruct (Qltb M nyquist) eqn:E; [| reflexivity].
    apply Qltb_lt in E; lra.
Qed.

(** ** Which exceptions a stage can raise *)

Lemma bind_raise {A B : Type} (m : result A) (k : A -> result B) (e : exn) :
  bind m k = Raise e -> m = Raise e \/ exists a, m = Ok a /\ k a = Raise e.
Proof.
  destruct m as [a | e']; simpl; intros H; try discriminate.
  - right; exists a; split; [reflexivity | exact H].
  - left; inversion H; reflexivity.
Qed.

Lemma py_index_raise {A : Type} (l : list A) (i : nat) (e : exn) :
  py_index l i = Raise e -> e = IndexError.
Proof.
  unfold py_index; destruct (nth_error l i); intros H; inversion H; reflexivity.
Qed.

Lemma sample_response_raise (fe re : list Q) (nyquist duration : pynum) (e : exn) :
  sample_response fe re nyquist duration = Raise e -> kind_of e = LibraryError.
Proof.
  unfold sample_response; intros H.
  apply bind_raise in H as [H | (f & _ & H)].
  - unfold interp1d in H.
    destruct (negb _); [inversion H; reflexivity |].
    destruct (_ <? _)%nat; inversion H; reflexivity.
  - apply bind_raise in H as [H | (num & _ & H)].
    + unfold as_count in H.
      destruct (py_add _ _) as [z | q]; [| inversion H; reflexivity].
      destruct (_ <? _)%Z; inversion H; reflexivity.
    + apply bind_raise in H as [H | (y & _ & H)]; [| discriminate].
      unfold interp_call in H.
      destruct (existsb _ _); inversion H; reflexivity.
Qed.

Lemma extend_low_raise (freqs responses : list Q) (lb_type : string) (eps : Q)
    (e : exn) :
  extend_low freqs responses lb_type eps = Raise e ->
  e = FrequenciesMustBeNonnegative \/ e = LbTypeMustBeOneOf \/
  kind_of e = LibraryError.
Proof.
  unfold extend_low; intros H.
  apply bind_raise in H as [H | (i & _ & H)].
  { destruct freqs; inversion H; auto. }
  apply bind_raise in H as [H | (m & _ & H)].
  { apply py_index_raise in H; subst; auto. }
  destruct (Qltb m 0); [inversion H; auto |].
  destruct (Qltb 0 m); [| discriminate].
  destruct (String.eqb lb_type "flat").
  { apply bind_raise in H as [H | (r & _ & H)]; [| discriminate].
    apply py_index_raise in H; subst; auto. }
  destruct (String.eqb lb_type "linear"); [discriminate |].
  destruct (String.eqb lb_type "zero"); [discriminate |].
  inversion H; auto.
Qed.

Lemma extend_high_raise (fe re : list Q) (nyquist : Q) (ub_type : string)
    (eps : Q) (e : exn) :
  extend_high fe re nyquist ub_type eps = Raise e ->
  e = FrequenciesCannotBeGreaterThanNyquist \/ e = UbTypeMustBeOneOf \/
  kind_of e = LibraryError.
Proof.
  unfold extend_high; intros H.
  apply bind_raise in H as [H | (i & _ & H)].
  { destruct fe; inversion H; auto. }
  apply bind_raise in H as [H | (m & _ & H)].
  { apply py_index_raise in H; subst; auto. }
  destruct (Qltb nyquist m); [inversion H; auto |].
  destruct (Qltb m nyquist); [| discriminate].
  destruct (String.eqb ub_type "flat").
  { apply bind_raise in H as [H | (r & _ & H)]; [| discriminate].
    apply py_index_raise in H; subst; auto. }
  destruct (String.eqb ub_type "linear"); [discriminate |].
  destruct (String.eqb ub_type "zero"); [discriminate |].
  inversion H; auto.
Qed.

(** An exception of [get_signal] is one of the boundary extender or a
    library error. *)
Lemma get_signal_raise (rng : nat -> R) (freqs responses : list Q)
    (nyquist sampling_rate duration : pynum) (lb_type ub_type : string) (eps : Q)
    (e : exn) :
  get_signal rng freqs responses nyquist sampling_rate duration lb_type ub_type eps
    = Raise e ->
  extend_boundaries freqs responses nyquist lb_type ub_type eps = Raise e \/
  kind_of e = LibraryError.
Proof.
  unfold get_signal; intros H.
  apply bind_raise in H as [H | ([fe re] & _ & H)]; [left; exact H |].
  right.
  apply bind_raise in H as [H | ([x_f y] & _ & H)].
  - exact (sample_response_raise _ _ _ _ _ H).
  - apply bind_raise in H as [H | (z_t & _ & H)].
    + unfold fftpack_ifft in H.
      destruct (full_spectrum rng y); inversion H; reflexivity.
    + destruct (Qeq_bool sampling_rate 0); inversion H; reflexivity.
Qed.

Lemma extend_boundaries_raise (freqs responses : list Q) (nyquist : Q)
    (lb_type ub_type : string) (eps : Q) (e : exn) :
  extend_boundaries freqs responses nyquist lb_type ub_type eps = Raise e ->
  extend_low freqs responses lb_type eps = Raise e \/
  exists fe re, extend_low freqs responses lb_type eps = Ok (fe, re) /\
                extend_high fe re nyquist ub_type eps = Raise e.
Proof.
  unfold extend_boundaries; intros H.
  apply bind_raise in H as [H | ([fe re] & Hl & H)]; [left; exact H |].
  right; exists fe, re; split; assumption.
Qed.

(** [get_signal] stops where the boundary extender raises. *)
Lemma get_signal_extend_raise (rng : nat -> R) (freqs responses : list Q)
    (nyquist sampling_rate duration : pynum) (lb_type ub_type : string) (eps : Q)
    (e : exn) :
  extend_boundaries freqs responses nyquist lb_type ub_type eps = Raise e ->
  get_signal rng freqs responses nyquist sampling_rate duration lb_type ub_type eps
    = Raise e.
Proof. intros H; unfold get_signal; rewrite H; reflexivity. Qed.

(** The lists the low boundary leaves: the frequencies, then entries
    that are [0] or [min - eps]; and the minimum is not negative. *)
Lemma extend_low_ok (freqs responses : list Q) (lb_type : string) (eps : Q)
    (i : nat) (m : Q) (fe re : list Q) :
  is_first_min freqs i m ->
  extend_low freqs responses lb_type eps = Ok (fe, re) ->
  (0 <= m)%Q /\
  exists extra, fe = freqs ++ extra /\
                forall z, In z extra -> z = 0%Q \/ z = (m - eps)%Q.
Proof.
  intros Hmin; unfold extend_low.
  destruct (np_argmin_first_min _ _ _ Hmin) as [H1 H2].
  rewrite H1; cbn [bind]; rewrite H2; cbn [bind].
  destruct (Qltb m 0) eqn:E; [discriminate |].
  apply Qltb_ge in E. intros H; split; [exact E |].
  destruct (Qltb 0 m).
  - destruct (String.eqb lb_type "flat").
    { bind_inv H. inversion H; subst.
      exists [0%Q]; split; [reflexivity |].
      intros z [<- | []]; auto. }
    destruct (String.eqb lb_type "linear").
    { inversion H; subst. exists [0%Q]; split; [reflexivity |].
      intros z [<- | []]; auto. }
    destruct (String.eqb lb_type "zero"); [| discriminate].
    inversion H; subst. exists [(m - eps)%Q; 0%Q]; split; [reflexivity |].
    intros z [<- | [<- | []]]; auto.
  - inversion H; subst. exists []; split; [symmetry; apply app_nil_r |].
    intros z [].
Qed.

(** ** Invalid policies *)

Lemma extend_high_at_nyquist (fe re : list Q) (nyquist : Q) (ub_type : string)
    (eps : Q) (j : nat) (M : Q) :
  is_first_max fe j M -> (M == nyquist)%Q ->
  extend_high fe re nyquist ub_type eps = Ok (fe, re).
Proof.
  intros Hmax HM; unfold extend_high.
  destruct (np_argmax_first_max _ _ _ Hmax) as [H1 H2].
  rewrite H1; cbn [bind]; rewrite H2; cbn [bind].
  assert (E1 : Qltb nyquist M = false) by (apply Qltb_ge; lra).
  assert (E2 : Qltb M nyquist = false) by (apply Qltb_ge; lra).
  rewrite E1, E2; reflexivity.
Qed.

Lemma extend_low_at_zero (freqs responses : list Q) (lb_type : string) (eps : Q)
    (i : nat) (m : Q) :
  is_first_min freqs i m -> (m == 0)%Q ->
  extend_low freqs responses lb_type eps = Ok (freqs, responses).
Proof.
  intros Hmin Hm; unfold extend_low.
  destruct (np_argmin_first_min _ _ _ Hmin) as [H1 H2].
  rewrite H1; cbn [bind]; rewrite H2; cbn [bind].
  assert (E1 : Qltb m 0 = false) by (apply Qltb_ge; lra).
  assert (E2 : Qltb 0 m = false) by (apply Qltb_ge; lra).
  rewrite E1, E2; reflexivity.
Qed.

Lemma extend_low_invalid (freqs responses : list Q) (lb_type : string) (eps : Q)
    (i : nat) (m : Q) :
  is_first_min freqs i m -> (0 < m)%Q -> policy_of lb_type = None ->
  extend_low freqs responses lb_type eps = Raise LbTypeMustBeOneOf.
Proof.
  intros Hmin Hm Hp; unfold extend_low.
  destruct (np_argmin_first_min _ _ _ Hmin) as [H1 H2].
  rewrite H1; cbn [bind]; rewrite H2; cbn [bind].
  assert (E1 : Qltb m 0 = false) by (apply Qltb_ge; lra).
  assert (E2 : Qltb 0 m = true) by (apply Qltb_lt; exact Hm).
  rewrite E1, E2.
  destruct (policy_of_none _ Hp) as (-> & -> & ->); reflexivity.
Qed.

Lemma extend_high_invalid (fe re : list Q) (nyquist : Q) (ub_type : string)
    (eps : Q) (j : nat) (M : Q) :
  is_first_max fe j M -> (M < nyquist)%Q -> policy_of ub_type = None ->
  extend_high fe re nyquist ub_type eps = Raise UbTypeMustBeOneOf.
Proof.
  intros Hmax HM Hp; unfold extend_high.
  destruct (np_argmax_first_max _ _ _ Hmax) as [H1 H2].
  rewrite H1; cbn [bind]; rewrite H2; cbn [bind].
  assert (E1 : Qltb nyquist M = false) by (apply Qltb_ge; lra).
  assert (E2 : Qltb M nyquist = true) by (apply Qltb_lt; exact HM).
  rewrite E1, E2.
  destruct (policy_of_none _ Hp) as (-> & -> & ->); reflexivity.
Qed.

(** The maximum of the list the low boundary leaves is the maximum of
    the frequencies. *)
Lemma extend_low_keeps_max (freqs responses : list Q) (lb_type : string)
    (eps : Q) (i j : nat) (m M : Q) (fe re : list Q) :
  is_first_min freqs i m -> is_first_max freqs j M -> (0 <= eps)%Q ->
  extend_low freqs responses lb_type eps = Ok (fe, re) ->
  is_first_max fe j M.
Proof.
  intros Hmin Hmax Heps H.
  destruct (extend_low_ok _ _ _ _ _ _ _ _ Hmin H) as (Hm & extra & -> & Hex).
  apply is_first_max_app; [exact Hmax |].
  pose proof (is_first_min_le_max _ _ _ _ _ Hmin Hmax) as HmM.
  intros z Hz; destruct (Hex z Hz) as [-> | ->]; lra.
Qed.

(** C2 (amended).  A policy is inspected only on a side that is
    extended.  With [m = min(freqs)], first attained at index [i]: an
    invalid [lb_type] raises the invalid-policy error when [0 < m]; an
    invalid [ub_type] raises it when [max(freqs) < nyquist], [0 <= eps],
    [0 <= m], [lb_type] is valid if [0 < m], and [responses] has an
    entry at index [i]; when [m == 0] the value of [lb_type] changes
    nothing, and when [max(freqs) == nyquist] and [0 <= eps] the value
    of [ub_type] changes nothing.  When the checks of the rates (lines
    119-131) raise nothing, what [get_signal] raises
    [generate_white_noise] raises, and [write] is not reached. *)
Theorem invalid_policy_raises_on_extended_side (rng : nat -> R)
    (freqs responses : list Q) (nyquist sampling_rate duration : pynum)
    (lb_type ub_type : string) (eps : Q) (i : nat) (m : Q) :
  is_first_min freqs i m ->
  ((0 < m)%Q -> policy_of lb_type = None ->
   get_signal rng freqs responses nyquist sampling_rate duration lb_type ub_type eps
     = Raise LbTypeMustBeOneOf) /\
  (forall (j : nat) (M r_m : Q) (pl : BoundaryPolicy),
     is_first_max freqs j M -> nth_error responses i = Some r_m ->
     (0 <= eps)%Q -> (0 <= m)%Q -> (M < nyquist)%Q ->
     ((0 < m)%Q -> policy_of lb_type = Some pl) ->
     policy_of ub_type = None ->
     get_signal rng freqs responses nyquist sampling_rate duration lb_type ub_type eps
       = Raise UbTypeMustBeOneOf) /\
  ((m == 0)%Q -> forall lb_type' : string,
     get_signal rng freqs responses nyquist sampling_rate duration lb_type' ub_type eps
     = get_signal rng freqs responses nyquist sampling_rate duration lb_type ub_type eps) /\
  (forall (j : nat) (M : Q),
     is_first_max freqs j M -> (0 <= eps)%Q -> (M == nyquist)%Q ->
     forall ub_type' : string,
     get_signal rng freqs responses nyquist sampling_rate duration lb_type ub_type' eps
     = get_signal rng freqs responses nyquist sampling_rate duration lb_type ub_type eps) /\
  (forall (outfile_path : string) (nyquist_arg sampling_rate_arg : option pynum) (e : exn),
     resolve_rates freqs nyquist_arg sampling_rate_arg = Ok (nyquist, sampling_rate) ->
     get_signal rng freqs responses nyquist sampling_rate duration lb_type ub_type eps
       = Raise e ->
     generate_white_noise rng outfile_path freqs responses nyquist_arg
       sampling_rate_arg duration lb_type ub_type eps = Raise e).
Proof.
  intros Hmin; repeat split.
  - intros Hm Hp. apply get_signal_extend_raise.
    unfold extend_boundaries.
    rewrite (extend_low_invalid _ _ _ _ _ _ Hmin Hm Hp); reflexivity.
  - intros j M r_m pl Hmax Hr Heps Hm HM Hpl Hpu.
    apply get_signal_extend_raise.
    unfold extend_boundaries.
    pose proof (extend_low_result _ _ _ eps _ _ _ pl Hmin Hr Hm Hpl) as Hl.
    cbv zeta in Hl. rewrite Hl; cbn [bind].
    apply (extend_high_invalid _ _ _ _ _ j M); [| exact HM | exact Hpu].
    exact (extend_low_keeps_max _ _ _ _ _ _ _ _ _ _ Hmin Hmax Heps Hl).
  - intros Hm lb_type'. unfold get_signal, extend_boundaries.
    rewrite !(extend_low_at_zero _ _ _ _ _ _ Hmin Hm); reflexivity.
  - intros j M Hmax Heps HM ub_type'. unfold get_signal, extend_boundaries.
    destruct (extend_low freqs responses lb_type eps) as [[fe re] | e] eqn:El;
      try reflexivity.
    pose proof (extend_low_keeps_max _ _ _ _ _ _ _ _ _ _ Hmin Hmax Heps El) as Hmax'.
    cbn [bind].
    rewrite !(extend_high_at_nyquist _ _ _ _ _ _ _ Hmax' HM); reflexivity.
  - intros outfile_path nyquist_arg sampling_rate_arg e Hres Hget.
    unfold generate_white_noise.
    rewrite Hres; cbn [bind]. rewrite Hget; reflexivity.
Qed.

(** ** Running [generate_white_noise] *)

Lemma generate_white_noise_writes (rng : nat -> R) (outfile_path : string)
    (freqs responses : list Q) (nyquist sampling_rate : option pynum)
    (duration : pynum) (lb_type ub_type : string) (eps : Q)
    (nyq sr : pynum) (fe re x_f y : list Q) :
  resolve_rates freqs nyquist sampling_rate = Ok (nyq, sr) ->
  extend_boundaries freqs responses nyq lb_type ub_type eps = Ok (fe, re) ->
  sample_response fe re nyq duration = Ok (x_f, y) ->
  Qeq_bool sr 0 = false ->
  (0 < length y)%nat ->
  exists m,
    py_max_R (map Rabs (map Re (ifft (full_spectrum rng y)))) = Ok m /\
    generate_white_noise rng outfile_path freqs responses nyquist sampling_rate
      duration lb_type ub_type eps
    = Ok {| wav_path := outfile_path;
            wav_rate := sr;
            wav_data := map (fun s => np_div (8 / 10 * s) m)
                            (map Re (ifft (full_spectrum rng y))) |}.
Proof.
  intros Hres Hext Hsamp Hsr Hy.
  unfold generate_white_noise. rewrite Hres; cbn [bind].
  rewrite (get_signal_run rng _ _ _ _ _ _ _ _ _ _ _ _ Hext Hsamp Hsr Hy); cbn [bind].
  unfold write_normalized.
  destruct (map Rabs (map Re (ifft (full_spectrum rng y)))) as [| a l] eqn:E.
  - apply (f_equal (@length R)) in E.
    rewrite !length_map, ifft_length, full_spectrum_length in E.
    simpl in E; lia.
  - exists (fold_left Rmax l a); split; reflexivity.
Qed.

(** An exception raised after the rates were resolved is not a
    [ConfigError]. *)
Lemma get_signal_raise_kind (rng : nat -> R) (freqs responses : list Q)
    (nyquist sampling_rate duration : pynum) (lb_type ub_type : string) (eps : Q)
    (e : exn) :
  get_signal rng freqs responses nyquist sampling_rate duration lb_type ub_type eps
    = Raise e ->
  kind_of e <> ConfigError.
Proof.
  intros H. apply get_signal_raise in H as [H | H]; [| rewrite H; discriminate].
  apply extend_boundaries_raise in H as [H | (fe & re & _ & H)].
  - apply extend_low_raise in H as [-> | [-> | H]];
      [discriminate | discriminate | rewrite H; discriminate].
  - apply extend_high_raise in H as [-> | [-> | H]];
      [discriminate | discriminate | rewrite H; discriminate].
Qed.

Lemma write_normalized_raise (outfile_path : string) (sampling_rate : Q)
    (signal : list R) (e : exn) :
  write_normalized outfile_path sampling_rate signal = Raise e -> e = ValueError.
Proof.
  unfold write_normalized; intros H.
  apply bind_raise in H as [H | (m & _ & H)]; [| discriminate].
  destruct (map Rabs signal); inversion H; reflexivity.
Qed.

Lemma generate_white_noise_raise (rng : nat -> R) (outfile_path : string)
    (freqs responses : list Q) (nyquist sampling_rate : option pynum)
    (duration : pynum) (lb_type ub_type : string) (eps : Q) (e : exn) :
  generate_white_noise rng outfile_path freqs responses nyquist sampling_rate
    duration lb_type ub_type eps = Raise e ->
  resolve_rates freqs nyquist sampling_rate = Raise e \/
  exists nyq sr,
    resolve_rates freqs nyquist sampling_rate = Ok (nyq, sr) /\
    (get_signal rng freqs responses nyq sr duration lb_type ub_type eps = Raise e \/
     e = ValueError).
Proof.
  unfold generate_white_noise; intros H.
  apply bind_raise in H as [H | ([nyq sr] & Hres & H)]; [left; exact H |].
  right; exists nyq, sr; split; [exact Hres |].
  apply bind_raise in H as [H | ([t signal] & _ & H)]; [left; exact H |].
  right; exact (write_normalized_raise _ _ _ _ H).
Qed.

(** ** The rate configuration *)

Lemma truthy_rate_argument (q : pynum) :
  rate_argument (Some q) -> truthy (Some q) = true.
Proof.
  simpl; intros H. destruct (Qeq_bool q 0) eqn:E; [| reflexivity].
  apply Qeq_bool_iff in E; contradiction.
Qed.

Lemma rate_argument_absent (o : option pynum) :
  rate_argument o -> (truthy o = false <-> o = None).
Proof.
  intros Ho; split.
  - destruct o as [q |]; [| reflexivity].
    rewrite (truthy_rate_argument _ Ho); discriminate.
  - intros ->; reflexivity.
Qed.

Lemma rate_argument_supplied (o : option pynum) :
  rate_argument o -> (truthy o = true <-> exists q, o = Some q).
Proof.
  intros Ho; split.
  - destruct o as [q |]; [exists q; reflexivity | discriminate].
  - intros [q ->]; exact (truthy_rate_argument _ Ho).
Qed.

(** The [ConfigError]s, an argument being supplied when it is true for
    Python. *)
Lemma config_error_truthy (rng : nat -> R) (outfile_path : string)
    (freqs responses : list Q) (nyquist sampling_rate : option pynum)
    (duration : pynum) (lb_type ub_type : string) (eps : Q) :
  raises (generate_white_noise rng outfile_path freqs responses nyquist
            sampling_rate duration lb_type ub_type eps) ConfigError
  <-> (truthy nyquist = false /\ truthy sampling_rate = false) \/
      (truthy nyquist = true /\ truthy sampling_rate = true /\
       ~ (number nyquist == number sampling_rate / 2)%Q).
Proof.
  split.
  - intros (e & He & Hk).
    apply generate_white_noise_raise in He as [He | (nyq & sr & Hres & He)].
    + unfold resolve_rates in He. cbn [py_truediv value] in He.
      destruct (truthy nyquist) eqn:Tn, (truthy sampling_rate) eqn:Ts;
        cbn [negb andb] in He.
      * destruct (Qeq_bool (number nyquist) (number sampling_rate / 2)) eqn:E;
          cbn [negb] in He; [discriminate |].
        right; repeat split.
        intros Heq; apply Qeq_bool_iff in Heq; congruence.
      * apply bind_raise in He as [He | (m & _ & He)].
        -- destruct freqs; inversion He; subst; discriminate.
        -- destruct (Qltb (number nyquist) m); inversion He; subst; discriminate.
      * apply bind_raise in He as [He | (m & _ & He)].
        -- destruct freqs; inversion He; subst; discriminate.
        -- destruct (Qltb (number sampling_rate / 2) m);
             inversion He; subst; discriminate.
      * left; split; reflexivity.
    + exfalso. destruct He as [He | ->]; [| discriminate].
      exact (get_signal_raise_kind _ _ _ _ _ _ _ _ _ _ He Hk).
  - intros [[Tn Ts] | (Tn & Ts & Hab)].
    + exists EitherNyquistOrSamplingRate; split; [| reflexivity].
      unfold generate_white_noise, resolve_rates. rewrite Tn, Ts; reflexivity.
    + exists NyquistMustEqualHalfSamplingRate; split; [| reflexivity].
      unfold generate_white_noise, resolve_rates. rewrite Tn, Ts.
      cbn [negb andb py_truediv value].
      destruct (Qeq_bool (number nyquist) (number sampling_rate / 2)) eqn:E;
        [| reflexivity].
      apply Qeq_bool_iff in E; contradiction.
Qed.

(** C4.  [generate_white_noise] raises a [ConfigError] exactly when
    neither [nyquist] nor [sampling_rate] is supplied, or both are and
    [nyquist <> sampling_rate/2]: so it is with "supplied" read as Python
    reads it (neither [None] nor zero), and so it is, for rate arguments
    of the interface, with "supplied" read as "not [None]".  With
    [nyquist] alone (and no frequency above it) [get_signal] is called
    with [sampling_rate = 2*nyquist]; with [sampling_rate] alone (and no
    frequency above its half) it is called with
    [nyquist = sampling_rate/2]. *)
Theorem config_error_iff (rng : nat -> R) (outfile_path : string)
    (freqs responses : list Q) (nyquist sampling_rate : option pynum)
    (duration : pynum) (lb_type ub_type : string) (eps : Q) :
  (raises (generate_white_noise rng outfile_path freqs responses nyquist
             sampling_rate duration lb_type ub_type eps) ConfigError
   <-> (truthy nyquist = false /\ truthy sampling_rate = false) \/
       (truthy nyquist = true /\ truthy sampling_rate = true /\
        ~ (number nyquist == number sampling_rate / 2)%Q)) /\
  (rate_argument nyquist -> rate_argument sampling_rate ->
   (raises (generate_white_noise rng outfile_path freqs responses nyquist
              sampling_rate duration lb_type ub_type eps) ConfigError
    <-> (nyquist = None /\ sampling_rate = None) \/
        (exists a b, nyquist = Some a /\ sampling_rate = Some b /\
                     ~ (a == b / 2)%Q))) /\
  (forall (j : nat) (M : Q),
     truthy nyquist = true -> truthy sampling_rate = false ->
     is_first_max freqs j M -> (M <= number nyquist)%Q ->
     generate_white_noise rng outfile_path freqs responses nyquist
       sampling_rate duration lb_type ub_type eps
     = ('(t, signal) <- get_signal rng freqs responses (number nyquist)
                          (py_mul (PyInt 2) (number nyquist))
                          duration lb_type ub_type eps ;;
        write_normalized outfile_path (py_mul (PyInt 2) (number nyquist)) signal)) /\
  (forall (j : nat) (M : Q),
     truthy nyquist = false -> truthy sampling_rate = true ->
     is_first_max freqs j M -> (M <= number sampling_rate / 2)%Q ->
     generate_white_noise rng outfile_path freqs responses nyquist
       sampling_rate duration lb_type ub_type eps
     = ('(t, signal) <- get_signal rng freqs responses
                          (py_truediv (number sampling_rate) (PyFloat 2))
                          (number sampling_rate)
                          duration lb_type ub_type eps ;;
        write_normalized outfile_path (number sampling_rate) signal)).
Proof.
  split; [apply config_error_truthy | split; [| split]].
  - intros Hn Hs.
    rewrite config_error_truthy.
    rewrite (rate_argument_absent _ Hn), (rate_argument_absent _ Hs).
    rewrite (rate_argument_supplied _ Hn), (rate_argument_supplied _ Hs).
    split.
    + intros [H | ([a ->] & [b ->] & Hab)]; [left; exact H |].
      right; exists a, b; repeat split; exact Hab.
    + intros [H | (a & b & -> & -> & Hab)]; [left; exact H |].
      right; split; [exists a; reflexivity | split; [exists b; reflexivity |]].
      exact Hab.
  - intros j M Tn Ts Hmax HM.
    unfold generate_white_noise, resolve_rates.
    rewrite Tn, Ts. cbn [negb andb].
    rewrite (py_max_first_max _ _ _ Hmax); cbn [bind].
    assert (E : Qltb (number nyquist) M = false) by (apply Qltb_ge; exact HM).
    rewrite E; reflexivity.
  - intros j M Tn Ts Hmax HM.
    unfold generate_white_noise, resolve_rates.
    rewrite Tn, Ts. cbn [negb andb].
    rewrite (py_max_first_max _ _ _ Hmax); cbn [bind py_truediv value].
    assert (E : Qltb (number sampling_rate / 2) M = false)
      by (apply Qltb_ge; exact HM).
    rewrite E; reflexivity.
Qed.

(** ** Frequencies out of range *)

Lemma extend_low_negative (freqs responses : list Q) (lb_type : string) (eps : Q)
    (i : nat) (m : Q) :
  is_first_min freqs i m -> (m < 0)%Q ->
  extend_low freqs responses lb_type eps = Raise FrequenciesMustBeNonnegative.
Proof.
  intros Hmin Hm; unfold extend_low.
  destruct (np_argmin_first_min _ _ _ Hmin) as [H1 H2].
  rewrite H1; cbn [bind]; rewrite H2; cbn [bind].
  apply Qltb_lt in Hm; rewrite Hm; reflexivity.
Qed.

Lemma extend_high_above (fe re : list Q) (nyquist : Q) (ub_type : string)
    (eps : Q) (j : nat) (M : Q) :
  is_first_max fe j M -> (nyquist < M)%Q ->
  extend_high fe re nyquist ub_type eps = Raise FrequenciesCannotBeGreaterThanNyquist.
Proof.
  intros Hmax HM; unfold extend_high.
  destruct (np_argmax_first_max _ _ _ Hmax) as [H1 H2].
  rewrite H1; cbn [bind]; rewrite H2; cbn [bind].
  apply Qltb_lt in HM; rewrite HM; reflexivity.
Qed.

Lemma extend_low_raise_negative (freqs responses : list Q) (lb_type : string)
    (eps : Q) :
  extend_low freqs responses lb_type eps = Raise FrequenciesMustBeNonnegative ->
  exists i m, is_first_min freqs i m /\ (m < 0)%Q.
Proof.
  intros H. destruct freqs as [| x r]; [discriminate |].
  pose proof (first_min_correct x r) as Hmin.
  exists (fst (first_min x r)), (snd (first_min x r)); split; [exact Hmin |].
  unfold extend_low in H.
  destruct (np_argmin_first_min _ _ _ Hmin) as [H1 H2].
  rewrite H1 in H; cbn [bind] in H; rewrite H2 in H; cbn [bind] in H.
  destruct (Qltb (snd (first_min x r)) 0) eqn:E; [apply Qltb_lt; exact E |].
  destruct (Qltb 0 (snd (first_min x r))); [| discriminate].
  destruct (String.eqb lb_type "flat").
  { apply bind_raise in H as [H | (a & _ & H)]; [| discriminate].
    apply py_index_raise in H; discriminate. }
  destruct (String.eqb lb_type "linear"); [discriminate |].
  destruct (String.eqb lb_type "zero"); discriminate.
Qed.

Lemma extend_high_raise_above (fe re : list Q) (nyquist : Q) (ub_type : string)
    (eps : Q) :
  extend_high fe re nyquist ub_type eps = Raise FrequenciesCannotBeGreaterThanNyquist ->
  exists j M, is_first_max fe j M /\ (nyquist < M)%Q.
Proof.
  intros H. destruct fe as [| x r]; [discriminate |].
  pose proof (first_max_correct x r) as Hmax.
  exists (fst (first_max x r)), (snd (first_max x r)); split; [exact Hmax |].
  unfold extend_high in H.
  destruct (np_argmax_first_max _ _ _ Hmax) as [H1 H2].
  rewrite H1 in H; cbn [bind] in H; rewrite H2 in H; cbn [bind] in H.
  destruct (Qltb nyquist (snd (first_max x r))) eqn:E; [apply Qltb_lt; exact E |].
  destruct (Qltb (snd (first_max x r)) nyquist); [| discriminate].
  destruct (String.eqb ub_type "flat").
  { apply bind_raise in H as [H | (a & _ & H)]; [| discriminate].
    apply py_index_raise in H; discriminate. }
  destruct (String.eqb ub_type "linear"); [discriminate |].
  destruct (String.eqb ub_type "zero"); discriminate.
Qed.

(** A negative frequency makes [get_signal] raise a [DomainError]. *)
Lemma get_signal_negative (rng : nat -> R) (freqs responses : list Q)
    (nyquist sampling_rate duration : pynum) (lb_type ub_type : string) (eps : Q) :
  Exists (fun f => (f < 0)%Q) freqs ->
  raises (get_signal rng freqs responses nyquist sampling_rate duration
            lb_type ub_type eps) DomainError.
Proof.
  intros Hex.
  destruct freqs as [| x r]; [inversion Hex |].
  pose proof (first_min_correct x r) as Hmin.
  destruct (first_min x r) as [i m]; simpl in Hmin.
  assert (Hneg : (m < 0)%Q).
  { apply Exists_exists in Hex as (f & Hf & Hf0).
    destruct Hmin as (_ & Hle & _). specialize (Hle f Hf). lra. }
  exists FrequenciesMustBeNonnegative; split; [| reflexivity].
  apply get_signal_extend_raise. unfold extend_boundaries.
  rewrite (extend_low_negative _ _ _ _ _ _ Hmin Hneg); reflexivity.
Qed.

(** A frequency above [nyquist] makes [get_signal] raise a
    [DomainError], the low policy being a valid one. *)
Lemma get_signal_above_nyquist (rng : nat -> R) (freqs responses : list Q)
    (nyquist sampling_rate duration : pynum) (lb_type ub_type : string) (eps : Q) :
  policy_of lb_type <> None ->
  length responses = length freqs ->
  Exists (fun f => (nyquist < f)%Q) freqs ->
  raises (get_signal rng freqs responses nyquist sampling_rate duration
            lb_type ub_type eps) DomainError.
Proof.
  intros Hlb Hlen Hex.
  destruct freqs as [| x r] eqn:Efreqs; [inversion Hex |].
  pose proof (first_min_correct x r) as Hmin.
  destruct (first_min x r) as [i m]; simpl in Hmin.
  destruct (Qlt_le_dec m 0) as [Hneg | Hpos].
  { apply get_signal_negative.
    destruct Hmin as (Hn & _). apply Exists_exists.
    exists m; split; [exact (nth_error_In _ _ Hn) | exact Hneg]. }
  exists FrequenciesCannotBeGreaterThanNyquist; split; [| reflexivity].
  apply get_signal_extend_raise. unfold extend_boundaries.
  assert (Hr : exists r_m, nth_error responses i = Some r_m).
  { destruct (nth_error responses i) as [r_m |] eqn:E; [exists r_m; reflexivity |].
    apply nth_error_None in E.
    destruct Hmin as (Hn & _).
    assert (i < length (x :: r))%nat by (apply nth_error_Some; congruence).
    lia. }
  destruct Hr as [r_m Hr].
  destruct (policy_of lb_type) as [pl |] eqn:Hpl; [| contradiction].
  pose proof (extend_low_result _ _ _ eps _ _ _ pl Hmin Hr Hpos (fun _ => Hpl)) as Hl.
  cbv zeta in Hl. rewrite Hl; cbn [bind].
  set (fe := (x :: r) ++ _).
  assert (Hfe : exists x' r', fe = x' :: r') by (exists x; eexists; reflexivity).
  destruct Hfe as (x' & r' & Hfe). rewrite Hfe.
  pose proof (first_max_correct x' r') as Hmax.
  apply (extend_high_above _ _ _ _ _ _ _ Hmax).
  destruct Hmax as (_ & Hall & _). rewrite <- Hfe in Hall.
  apply Exists_exists in Hex as (f & Hf & HfN).
  assert (Hin : In f fe) by (apply in_or_app; left; exact Hf).
  specialize (Hall f Hin). lra.
Qed.

(** What [resolve_rates] does on a consistent configuration: it raises
    for a frequency above the effective nyquist, or returns that
    nyquist. *)
Lemma resolve_rates_consistent (freqs : list Q) (nyquist sampling_rate : option pynum) :
  rates_consistent nyquist sampling_rate ->
  freqs <> [] ->
  (raises (resolve_rates freqs nyquist sampling_rate) DomainError /\
   (truthy nyquist && truthy sampling_rate = false)) \/
  (exists nyq sr,
     resolve_rates freqs nyquist sampling_rate = Ok (nyq, sr) /\
     value nyq = effective_nyquist nyquist sampling_rate /\
     (truthy nyquist && truthy sampling_rate = false ->
      Forall (fun f => (f <= effective_nyquist nyquist sampling_rate)%Q) freqs)).
Proof.
  intros [Hsome Hcons] Hne.
  destruct freqs as [| x r]; [congruence |].
  pose proof (first_max_correct x r) as Hmax.
  set (M := snd (first_max x r)) in *.
  pose proof (py_max_first_max _ _ _ Hmax) as Hpymax.
  assert (Hbelow : forall N, Qltb N M = false -> Forall (fun f => (f <= N)%Q) (x :: r)).
  { intros N E. apply Qltb_ge in E. apply Forall_forall. intros f Hf.
    destruct Hmax as (_ & Hall & _). specialize (Hall f Hf). lra. }
  unfold resolve_rates, effective_nyquist.
  destruct (truthy nyquist) eqn:Tn, (truthy sampling_rate) eqn:Ts;
    cbn [negb andb py_truediv value].
  - right. specialize (Hcons eq_refl eq_refl).
    apply Qeq_bool_iff in Hcons; rewrite Hcons; cbn [negb].
    do 2 eexists; split; [reflexivity | split; [reflexivity | discriminate]].
  - rewrite Hpymax; cbn [bind].
    destruct (Qltb (number nyquist) M) eqn:E.
    + left; split; [| reflexivity].
      exists FreqsGreaterThanNyquist; split; reflexivity.
    + right. do 2 eexists; split; [reflexivity | split; [reflexivity |]].
      intros _; apply Hbelow; exact E.
  - rewrite Hpymax; cbn [bind].
    destruct (Qltb (number sampling_rate / 2) M) eqn:E.
    + left; split; [| reflexivity].
      exists FreqsGreaterThanHalfSamplingRate; split; reflexivity.
    + right. do 2 eexists; split; [reflexivity | split; [reflexivity |]].
      intros _; apply Hbelow; exact E.
  - destruct Hsome; discriminate.
Qed.

(** C5 (amended).  With a consistent rate configuration, a negative
    frequency makes the synthesis fail with a [DomainError], and so does
    a frequency above the effective nyquist: at once when one rate is
    supplied, and, when both are, for an input with a valid low policy
    and as many responses as frequencies (the low boundary is processed
    before the frequencies are compared with nyquist).  With
    [0 <= eps] and every frequency in [[0, nyquist]], no [DomainError]
    is raised. *)
Theorem domain_error_on_out_of_range_frequency (rng : nat -> R)
    (outfile_path : string) (freqs responses : list Q)
    (nyquist sampling_rate : option pynum) (duration : pynum)
    (lb_type ub_type : string) (eps : Q) :
  let N := effective_nyquist nyquist sampling_rate in
  (rates_consistent nyquist sampling_rate ->
   Exists (fun f => (f < 0)%Q) freqs ->
   raises (generate_white_noise rng outfile_path freqs responses nyquist
             sampling_rate duration lb_type ub_type eps) DomainError) /\
  (rates_consistent nyquist sampling_rate ->
   Exists (fun f => (N < f)%Q) freqs ->
   truthy nyquist && truthy sampling_rate = false \/
   (policy_of lb_type <> None /\ length responses = length freqs) ->
   raises (generate_white_noise rng outfile_path freqs responses nyquist
             sampling_rate duration lb_type ub_type eps) DomainError) /\
  ((0 <= eps)%Q ->
   Forall (fun f => (0 <= f)%Q /\ (f <= N)%Q) freqs ->
   ~ raises (generate_white_noise rng outfile_path freqs responses nyquist
               sampling_rate duration lb_type ub_type eps) DomainError).
Proof.
  intros N.
  assert (Hlift : forall nyq sr,
             resolve_rates freqs nyquist sampling_rate = Ok (nyq, sr) ->
             raises (get_signal rng freqs responses nyq sr duration
                       lb_type ub_type eps) DomainError ->
             raises (generate_white_noise rng outfile_path freqs responses nyquist
                       sampling_rate duration lb_type ub_type eps) DomainError).
  { intros nyq sr Hres (e & He & Hk). exists e; split; [| exact Hk].
    unfold generate_white_noise; rewrite Hres; cbn [bind].
    rewrite He; reflexivity. }
  assert (Hstop : raises (resolve_rates freqs nyquist sampling_rate) DomainError ->
             raises (generate_white_noise rng outfile_path freqs responses nyquist
                       sampling_rate duration lb_type ub_type eps) DomainError).
  { intros (e & He & Hk). exists e; split; [| exact Hk].
    unfold generate_white_noise; rewrite He; reflexivity. }
  split; [| split].
  - intros Hrates Hex.
    assert (Hne : freqs <> []) by (intros ->; inversion Hex).
    destruct (resolve_rates_consistent freqs nyquist sampling_rate Hrates Hne)
      as [[Hr _] | (nyq & sr & Hres & _)]; [exact (Hstop Hr) |].
    apply (Hlift _ _ Hres). apply get_signal_negative; exact Hex.
  - intros Hrates Hex Hcase.
    assert (Hne : freqs <> []) by (intros ->; inversion Hex).
    destruct (resolve_rates_consistent freqs nyquist sampling_rate Hrates Hne)
      as [[Hr _] | (nyq & sr & Hres & Hnyq & Hbelow)]; [exact (Hstop Hr) |].
    destruct Hcase as [Hone | [Hlb Hlen]].
    + exfalso. specialize (Hbelow Hone). rewrite Forall_forall in Hbelow.
      apply Exists_exists in Hex as (f & Hf & HfN).
      specialize (Hbelow f Hf). unfold N in HfN. lra.
    + apply (Hlift _ _ Hres).
      apply get_signal_above_nyquist; [exact Hlb | exact Hlen |].
      rewrite Hnyq; exact Hex.
  - intros Heps Hall (e & He & Hk).
    rewrite Forall_forall in Hall.
    apply generate_white_noise_raise in He as [He | (nyq & sr & Hres & He)].
    + (* the checks of lines 126 and 130 *)
      unfold resolve_rates in He. unfold N, effective_nyquist in Hall.
      cbn [py_truediv value] in He.
      destruct (truthy nyquist) eqn:Tn, (truthy sampling_rate) eqn:Ts;
        cbn [negb andb] in He.
      * destruct (negb _); inversion He; subst; discriminate.
      * apply bind_raise in He as [He | (m & Hm & He)].
        { destruct freqs; inversion He; subst; discriminate. }
        destruct (Qltb (number nyquist) m) eqn:E; [| discriminate].
        apply Qltb_lt in E.
        destruct freqs as [| x r]; [discriminate |].
        inversion Hm; subst m.
        destruct (first_max_correct x r) as (Hn & _).
        apply nth_error_In in Hn. destruct (Hall _ Hn). lra.
      * apply bind_raise in He as [He | (m & Hm & He)].
        { destruct freqs; inversion He; subst; discriminate. }
        destruct (Qltb (number sampling_rate / 2) m) eqn:E; [| discriminate].
        apply Qltb_lt in E.
        destruct freqs as [| x r]; [discriminate |].
        inversion Hm; subst m.
        destruct (first_max_correct x r) as (Hn & _).
        apply nth_error_In in Hn. destruct (Hall _ Hn). lra.
      * inversion He; subst; discriminate.
    + (* the checks of [get_signal] *)
      assert (HN : (nyq == N)%Q).
      { unfold resolve_rates in Hres. unfold N, effective_nyquist.
        destruct (truthy nyquist) eqn:Tn, (truthy sampling_rate) eqn:Ts;
          cbn [negb andb] in Hres.
        - destruct (negb _); inversion Hres; reflexivity.
        - bind_inv Hres. destruct (Qltb _ _); inversion Hres; reflexivity.
        - bind_inv Hres. destruct (Qltb _ _); inversion Hres; reflexivity.
        - discriminate. }
      destruct He as [He | ->]; [| discriminate].
      apply get_signal_raise in He as [He | He]; [| rewrite He in Hk; discriminate].
      apply extend_boundaries_raise in He as [He | (fe & re & Hl & He)].
      * apply extend_low_raise in He as H'.
        destruct H' as [-> | [-> | H']];
          [| discriminate | rewrite H' in Hk; discriminate].
        apply extend_low_raise_negative in He as (i & m & (Hn & _) & Hm).
        apply nth_error_In in Hn. destruct (Hall _ Hn). lra.
      * apply extend_high_raise in He as H'.
        destruct H' as [-> | [-> | H']];
          [| discriminate | rewrite H' in Hk; discriminate].
        apply extend_high_raise_above in He as (j & M & (Hn & _) & HM).
        apply nth_error_In in Hn.
        destruct freqs as [| x r]; [discriminate |].
        pose proof (first_min_correct x r) as Hmin.
        destruct (extend_low_ok _ _ _ _ _ _ _ _ Hmin Hl) as (Hm0 & extra & -> & Hextra).
        assert (HmN : (snd (first_min x r) <= N)%Q).
        { destruct Hmin as (Hmn & _). apply nth_error_In in Hmn.
          destruct (Hall _ Hmn); assumption. }
        apply in_app_or in Hn as [Hn | Hn].
        -- destruct (Hall _ Hn). lra.
        -- destruct (Hextra _ Hn) as [-> | ->]; lra.
Qed.

(** ** Sorting the control points *)

Lemma in_around_index {A : Type} (c1 c2 : list A) (p q : A) :
  In q (c1 ++ c2) ->
  exists k, k <> length c1 /\ nth_error (c1 ++ p :: c2) k = Some q.
Proof.
  intros Hq. apply in_app_or in Hq as [Hq | Hq].
  - apply In_nth_error in Hq as [k Hk].
    assert (Hlt : (k < length c1)%nat) by (apply nth_error_Some; congruence).
    exists k; split; [lia |]. rewrite nth_error_app1 by exact Hlt. exact Hk.
  - apply In_nth_error in Hq as [k Hk].
    exists (length c1 + S k)%nat; split; [lia |].
    rewrite nth_error_app2 by lia.
    replace (length c1 + S k - length c1)%nat with (S k) by lia.
    exact Hk.
Qed.

Section Sorting.
Local Open Scope Q_scope.

Lemma insert_point_in (p q : point) (l : list point) :
  In q (insert_point p l) <-> q = p \/ In q l.
Proof.
  induction l as [| a l IH]; simpl.
  - intuition.
  - destruct (Qle_bool (fst p) (fst a)); simpl; [intuition |].
    rewrite IH; intuition.
Qed.

Lemma sort_points_in (q : point) (l : list point) :
  In q (sort_points l) <-> In q l.
Proof.
  induction l as [| a l IH]; simpl; [reflexivity |].
  rewrite insert_point_in, IH; intuition.
Qed.

Lemma insert_point_sorted (p : point) (l : list point) :
  sorted_by_x l -> sorted_by_x (insert_point p l).
Proof.
  induction l as [| a l IH]; simpl.
  - intros _; split; [intros q [] | exact I].
  - intros [Ha Hl]. destruct (Qle_bool (fst p) (fst a)) eqn:E; simpl.
    + apply Qle_bool_iff in E. split; [| split; assumption].
      intros q [<- | Hq]; [exact E |].
      eapply Qle_trans; [exact E | apply Ha; exact Hq].
    + apply Qle_bool_gt in E. split; [| apply IH; exact Hl].
      intros q Hq. apply (proj1 (insert_point_in _ _ _)) in Hq as [-> | Hq].
      * apply Qlt_le_weak; exact E.
      * apply Ha; exact Hq.
Qed.

Lemma sort_points_sorted (l : list point) : sorted_by_x (sort_points l).
Proof.
  induction l as [| a l IH]; simpl; [exact I |].
  apply insert_point_sorted; exact IH.
Qed.

Lemma last_in (l : list point) (d : point) : l <> [] -> In (last l d) l.
Proof.
  induction l as [| a l IH]; [congruence |].
  intros _. destruct l as [| b l]; [left; reflexivity |].
  right. apply IH; discriminate.
Qed.

Lemma sorted_last_greatest (l : list point) (d q : point) :
  sorted_by_x l -> In q l -> fst q <= fst (last l d).
Proof.
  induction l as [| a l IH]; [intros _ [] |].
  intros [Ha Hl] Hq.
  destruct l as [| b l].
  - destruct Hq as [<- | []]; apply Qle_refl.
  - change (last (a :: b :: l) d) with (last (b :: l) d).
    destruct Hq as [<- | Hq]; [| apply IH; assumption].
    apply Ha. apply last_in; discriminate.
Qed.

Lemma insert_point_front (p : point) (l : list point) :
  (forall q, In q l -> fst p <= fst q) -> insert_point p l = p :: l.
Proof.
  destruct l as [| a l]; [reflexivity |]; intros H; simpl.
  assert (E : Qle_bool (fst p) (fst a) = true)
    by (apply Qle_bool_iff; apply H; left; reflexivity).
  rewrite E; reflexivity.
Qed.

(** A point strictly to the left of those before it and not to the right
    of those after it comes first. *)
Lemma sort_points_min_front (l1 l2 : list point) (p : point) :
  (forall q, In q l1 -> fst p < fst q) ->
  (forall q, In q l2 -> fst p <= fst q) ->
  sort_points (l1 ++ p :: l2) = p :: sort_points (l1 ++ l2).
Proof.
  intros H1 H2. induction l1 as [| a l1 IH]; simpl.
  - apply insert_point_front. intros q Hq. apply (proj1 (sort_points_in _ _)) in Hq.
    apply H2; exact Hq.
  - rewrite IH by (intros q Hq; apply H1; right; exact Hq).
    simpl.
    assert (E : Qle_bool (fst a) (fst p) = false)
      by (apply Qle_bool_gt; apply H1; left; reflexivity).
    rewrite E; reflexivity.
Qed.

(** The sorted list starts with the first point of least [x]; the
    other points follow. *)
Lemma sort_points_head (l : list point) (i : nat) (p : point) :
  nth_error l i = Some p ->
  (forall q, In q l -> fst p <= fst q) ->
  (forall k q, (k < i)%nat -> nth_error l k = Some q -> fst p < fst q) ->
  exists tl,
    sort_points l = p :: tl /\
    forall q, In q tl -> exists k, k <> i /\ nth_error l k = Some q.
Proof.
  intros Hn Hall Hbefore.
  destruct (nth_error_split _ _ Hn) as (l1 & l2 & -> & Hi).
  exists (sort_points (l1 ++ l2)). split.
  - apply sort_points_min_front.
    + intros q Hq. apply In_nth_error in Hq as [k Hk].
      assert (Hlt : (k < length l1)%nat) by (apply nth_error_Some; congruence).
      apply (Hbefore k q); [lia |].
      rewrite nth_error_app1 by exact Hlt. exact Hk.
    + intros q Hq. apply Hall. apply in_or_app; right; right; exact Hq.
  - intros q Hq. apply (proj1 (sort_points_in _ _)) in Hq.
    destruct (in_around_index l1 l2 p q Hq) as (k & Hk & Hnth).
    exists k; split; [lia | exact Hnth].
Qed.

Lemma combine_app_same {A B : Type} (a a' : list A) (b b' : list B) :
  length a = length b ->
  combine (a ++ a') (b ++ b') = combine a b ++ combine a' b'.
Proof.
  revert b; induction a as [| x a IH]; intros [| y b] H; simpl in *;
    try discriminate; [reflexivity |].
  f_equal; apply IH; lia.
Qed.

Lemma combine_fst_snd {A B : Type} (l : list (A * B)) :
  combine (map fst l) (map snd l) = l.
Proof.
  induction l as [| [a b] l IH]; simpl; [reflexivity | f_equal; exact IH].
Qed.

Lemma nth_error_combine {A B : Type} (a : list A) (b : list B) (i : nat)
    (x : A) (y : B) :
  nth_error a i = Some x -> nth_error b i = Some y ->
  nth_error (combine a b) i = Some (x, y).
Proof.
  revert a b; induction i as [| i IH]; intros [| x' a] [| y' b] Ha Hb;
    simpl in *; try discriminate.
  - congruence.
  - apply IH; assumption.
Qed.

Lemma nth_error_combine_inv {A B : Type} (a : list A) (b : list B) (i : nat)
    (p : A * B) :
  nth_error (combine a b) i = Some p ->
  nth_error a i = Some (fst p) /\ nth_error b i = Some (snd p).
Proof.
  revert a b; induction i as [| i IH]; intros [| x' a] [| y' b] H;
    simpl in *; try discriminate.
  - inversion H; subst; split; reflexivity.
  - apply IH; exact H.
Qed.

(** ** The interpolant on a segment *)

Lemma bisect_right_app (xs ys : list Q) (q : Q) :
  (forall x, In x xs -> x <= q) ->
  bisect_right (xs ++ ys) q = (length xs + bisect_right ys q)%nat.
Proof.
  induction xs as [| x xs IH]; intros H; [reflexivity |].
  cbn [app bisect_right length].
  assert (E : Qle_bool x q = true)
    by (apply Qle_bool_iff; apply H; left; reflexivity).
  rewrite E, IH by (intros z Hz; apply H; right; exact Hz).
  reflexivity.
Qed.

Lemma sorted_app_le (pre post : list point) (a : point) :
  sorted_by_x (pre ++ a :: post) -> forall p, In p pre -> fst p <= fst a.
Proof.
  induction pre as [| c pre IH]; intros Hs p Hp; [destruct Hp |].
  cbn [app sorted_by_x] in Hs. destruct Hs as [Hc Hs].
  destruct Hp as [<- | Hp].
  - apply Hc. apply in_or_app; right; left; reflexivity.
  - exact (IH Hs p Hp).
Qed.


Lemma sorted_hd_least (l : list point) (d q : point) :
  sorted_by_x l -> In q l -> fst (hd d l) <= fst q.
Proof.
  destruct l as [| a l]; [intros _ [] |].
  intros [Ha _] [<- | Hq]; cbn [hd]; [apply Qle_refl | exact (Ha q Hq)].
Qed.

(** A query between two points of the sorted list is within the
    bounds. *)
Lemma within_bounds (f : list point) (a b : point) (q : Q) :
  sorted_by_x f -> In a f -> In b f -> fst a <= q -> q <= fst b ->
  out_of_bounds f q = false.
Proof.
  intros Hs Ha Hb H1 H2. unfold out_of_bounds.
  pose proof (sorted_hd_least f (0, 0) a Hs Ha).
  pose proof (sorted_last_greatest f (0, 0) b Hs Hb).
  assert (E0 : Qltb q (fst (hd (0, 0) f)) = false) by (apply Qltb_ge; lra).
  assert (E1 : Qltb (fst (last f (0, 0))) q = false) by (apply Qltb_ge; lra).
  rewrite E0, E1; reflexivity.
Qed.


Lemma line_through_left (a b : point) (q : Q) :
  fst a < fst b -> q == fst a -> line_through a b q == snd a.
Proof.
  intros Hab Hq. unfold line_through. rewrite Hq. field. lra.
Qed.


(** The search stops at the last point that is not to the right of the
    query: a query from the frequency of [a] up to, and not including,
    the frequency of the next point [b] is answered on the line from [a]
    to [b]. *)
Lemma call_linear_segment (pre post : list point) (a b : point) (q : Q) :
  sorted_by_x (pre ++ a :: b :: post) ->
  fst a <= q -> q < fst b ->
  call_linear (pre ++ a :: b :: post) q == line_through a b q.
Proof.
  intros Hs Ha Hb. unfold call_linear.
  rewrite map_app, bisect_right_app.
  2:{ intros x Hx. apply in_map_iff in Hx as (p & <- & Hp).
      pose proof (sorted_app_le _ _ _ Hs p Hp). lra. }
  cbn [map bisect_right].
  assert (E1 : Qle_bool (fst a) q = true) by (apply Qle_bool_iff; exact Ha).
  assert (E2 : Qle_bool (fst b) q = false) by (apply Qle_bool_gt; exact Hb).
  rewrite E1, E2, length_map.
  replace (length pre + 1)%nat with (S (length pre)) by lia.
  cbv zeta.
  assert (E3 : (S (length pre) =? length (pre ++ a :: b :: post))%nat = false).
  { apply Nat.eqb_neq. rewrite length_app. cbn [length]. lia. }
  rewrite E3.
  rewrite (app_nth2 pre (a :: b :: post) (0, 0) (n := length pre)) by lia.
  rewrite (app_nth2 pre (a :: b :: post) (0, 0) (n := S (length pre))) by lia.
  replace (length pre - length pre)%nat with 0%nat by lia.
  replace (S (length pre) - length pre)%nat with 1%nat by lia.
  cbn [nth].
  destruct (Qeq_bool (fst a) q) eqn:E.
  - apply Qeq_bool_iff in E. symmetry. apply line_through_left; lra.
  - reflexivity.
Qed.

(** At the last point and beyond, the answer is the last response. *)
Lemma call_linear_last (pre : list point) (a : point) (q : Q) :
  sorted_by_x (pre ++ [a]) -> fst a <= q ->
  call_linear (pre ++ [a]) q = snd a.
Proof.
  intros Hs Ha. unfold call_linear.
  rewrite map_app, bisect_right_app.
  2:{ intros x Hx. apply in_map_iff in Hx as (p & <- & Hp).
      pose proof (sorted_app_le _ _ _ Hs p Hp). lra. }
  cbn [map bisect_right].
  assert (E1 : Qle_bool (fst a) q = true) by (apply Qle_bool_iff; exact Ha).
  rewrite E1, length_map.
  replace (length pre + 1)%nat with (S (length pre)) by lia.
  cbv zeta.
  assert (E3 : (S (length pre) =? length (pre ++ [a]))%nat = true).
  { apply Nat.eqb_eq. rewrite length_app. cbn [length]. lia. }
  rewrite E3.
  rewrite (app_nth2 pre [a] (0, 0) (n := length pre)) by lia.
  replace (length pre - length pre)%nat with 0%nat by lia.
  reflexivity.
Qed.

(** A query that is not to the left of the first point lies at or beyond
    the last point, or between two neighbours. *)
Lemma segment_of_query (f : list point) (q : Q) :
  f <> [] -> fst (hd (0, 0) f) <= q ->
  (exists pre a, f = pre ++ [a] /\ fst a <= q) \/
  (exists pre a b post, f = pre ++ a :: b :: post /\ fst a <= q /\ q < fst b).
Proof.
  induction f as [| a f IH]; [congruence |]. intros _ Ha. cbn [hd] in Ha.
  destruct f as [| b f].
  - left. exists [], a; split; [reflexivity | exact Ha].
  - destruct (Qlt_le_dec q (fst b)) as [Hb | Hb].
    + right. exists [], a, b, f; repeat split; assumption.
    + destruct (IH ltac:(discriminate) Hb)
        as [(pre & c & E & Hc) | (pre & c & d & post & E & Hc & Hd)].
      * left. exists (a :: pre), c. rewrite E; split; [reflexivity | exact Hc].
      * right. exists (a :: pre), c, d, post. rewrite E.
        repeat split; assumption.
Qed.

Lemma interp_at_segment (pre post : list point) (a b : point) (q : Q) :
  sorted_by_x (pre ++ a :: b :: post) ->
  fst a <= q -> q < fst b ->
  responds (pre ++ a :: b :: post) q (line_through a b q).
Proof.
  intros Hs Ha Hb. unfold responds, interp_at.
  rewrite (within_bounds _ a b q Hs); try lra.
  - eexists; split; [reflexivity |]. apply call_linear_segment; assumption.
  - apply in_or_app; right; left; reflexivity.
  - apply in_or_app; right; right; left; reflexivity.
Qed.

Lemma interp_at_last (pre : list point) (a : point) (q : Q) :
  sorted_by_x (pre ++ [a]) -> q == fst a ->
  interp_at (pre ++ [a]) q = Ok (snd a).
Proof.
  intros Hs Hq. unfold interp_at.
  assert (Hin : In a (pre ++ [a])) by (apply in_or_app; right; left; reflexivity).
  rewrite (within_bounds _ a a q Hs Hin Hin) by lra.
  rewrite call_linear_last by (assumption || lra). reflexivity.
Qed.

(** At the frequency of a point that lies strictly to the left of all
    points after it, the interpolant takes the response of that point. *)
Lemma interp_at_point (pre post : list point) (a : point) (q : Q) :
  sorted_by_x (pre ++ a :: post) ->
  (forall p, In p post -> fst a < fst p) ->
  q == fst a ->
  responds (pre ++ a :: post) q (snd a).
Proof.
  intros Hs Hpost Hq.
  destruct post as [| b post].
  - exists (snd a); split; [apply interp_at_last; assumption | reflexivity].
  - pose proof (Hpost b (or_introl eq_refl)) as Hab.
    destruct (interp_at_segment pre post a b q Hs) as (v & Hv & E); try lra.
    exists v; split; [exact Hv |].
    rewrite E. apply line_through_left; assumption.
Qed.

(** The first segment, as the proofs below use it. *)
Lemma interp_at_first_segment (x0 y0 x1 y1 : Q) (tl : list point) (q : Q) :
  sorted_by_x ((x0, y0) :: (x1, y1) :: tl) ->
  x0 <= q -> q < x1 ->
  responds ((x0, y0) :: (x1, y1) :: tl) q
    ((y1 - y0) / (x1 - x0) * (q - x0) + y0).
Proof.
  intros Hs H0 H1.
  exact (interp_at_segment [] tl (x0, y0) (x1, y1) q Hs H0 H1).
Qed.

Lemma interp_at_ok (f : list point) (q v : Q) :
  interp_at f q = Ok v ->
  fst (hd (0, 0) f) <= q /\ q <= fst (last f (0, 0)) /\ v = call_linear f q.
Proof.
  unfold interp_at, out_of_bounds.
  destruct (Qltb q (fst (hd (0, 0) f))) eqn:E1; [discriminate |].
  destruct (Qltb (fst (last f (0, 0))) q) eqn:E2; [discriminate |].
  cbn [orb]. apply Qltb_ge in E1, E2. intros H; inversion H.
  repeat split; assumption.
Qed.

End Sorting.

(** ** The interpolant on an array and on one frequency *)

(** Each entry of [freq_func(x_f)] is [freq_func] at the entry of
    [x_f]. *)
Lemma interp_call_nth (f : list point) (qs ys : list Q) (k : nat) (q : Q) :
  interp_call f qs = Ok ys -> nth_error qs k = Some q ->
  exists v, nth_error ys k = Some v /\ interp_at f q = Ok v.
Proof.
  unfold interp_call, interp_at; intros H Hk.
  destruct (existsb (out_of_bounds f) qs) eqn:E; [discriminate |].
  assert (Hq : out_of_bounds f q = false).
  { destruct (out_of_bounds f q) eqn:Eq; [| reflexivity].
    assert (Hex : existsb (out_of_bounds f) qs = true).
    { apply existsb_exists. exists q; split; [| exact Eq].
      exact (nth_error_In _ _ Hk). }
    congruence. }
  rewrite Hq. inversion H; subst ys.
  exists (call_linear f q); split; [| reflexivity].
  rewrite nth_error_map, Hk; reflexivity.
Qed.

(** ** The interpolated response below the lowest control frequency *)

Section LowBoundaryResponse.
Local Open Scope Q_scope.

Variables (freqs responses : list Q) (nyquist eps : Q).
Variables (i j : nat) (m M r_m r_M : Q).
Hypothesis Hmin : is_first_min freqs i m.
Hypothesis Hmax : is_first_max freqs j M.
Hypothesis Hlen : length responses = length freqs.
Hypothesis Hrm : nth_error responses i = Some r_m.
Hypothesis Heps : 0 < eps.
Hypothesis Hm : eps < m.
Hypothesis HM : M <= nyquist.

Let cf : list point := combine freqs responses.

Lemma control_points_right_of_min (p : point) : In p cf -> m <= fst p.
Proof.
  destruct p as [x y]; intros Hp. apply in_combine_l in Hp.
  destruct Hmin as (_ & Hall & _). apply Hall; exact Hp.
Qed.

Lemma control_point_at_min : nth_error cf i = Some (m, r_m).
Proof.
  apply nth_error_combine; [| exact Hrm]. destruct Hmin as (Hn & _); exact Hn.
Qed.

Lemma control_points_before_min (k : nat) (p : point) :
  (k < i)%nat -> nth_error cf k = Some p -> m < fst p.
Proof.
  intros Hk Hp. apply nth_error_combine_inv in Hp as [Hp _].
  destruct Hmin as (_ & _ & Hb). exact (Hb k (fst p) Hk Hp).
Qed.

Lemma high_points_right_of_min (pu : BoundaryPolicy) (p : point) :
  In p (if Qltb M nyquist then spec_high_points pu M r_M nyquist eps else []) ->
  m < fst p.
Proof.
  pose proof (is_first_min_le_max _ _ _ _ _ Hmin Hmax) as HmM.
  destruct (Qltb M nyquist) eqn:E; [| intros []].
  apply Qltb_lt in E.
  destruct pu; cbn [spec_high_points In].
  - intros [<- | [<- | []]]; cbn [fst]; lra.
  - intros [<- | []]; cbn [fst]; lra.
  - intros [<- | []]; cbn [fst]; lra.
Qed.

(** The leftmost points after sorting, for each low policy: the points
    the policy adds, then the control point at the least frequency; the
    points [tl] that follow are the other control points and the points
    of the high boundary. *)
Lemma sorted_low_segment (pl : BoundaryPolicy) (high : list point) :
  (forall p, In p high -> m <= fst p) ->
  exists tl,
    (forall p, In p tl ->
       In p high \/ exists k, k <> i /\ nth_error cf k = Some p) /\
    sort_points (cf ++ spec_low_points pl m r_m eps ++ high)
    = match pl with
      | Zero => (0, 0) :: (m - eps, 0) :: (m, r_m) :: tl
      | Flat => (0, r_m) :: (m, r_m) :: tl
      | Linear => (0, 0) :: (m, r_m) :: tl
      end.
Proof.
  intros Hhigh.
  assert (Hhead : exists tl,
             sort_points (cf ++ high) = (m, r_m) :: tl /\
             forall p, In p tl ->
               In p high \/ exists k, k <> i /\ nth_error cf k = Some p).
  { destruct (sort_points_head (cf ++ high) i (m, r_m)) as (tl & Htl & Hrest).
    - rewrite nth_error_app1; [exact control_point_at_min |].
      apply nth_error_Some. rewrite control_point_at_min; discriminate.
    - intros q Hq. apply in_app_or in Hq as [Hq | Hq]; cbn [fst].
      + apply control_points_right_of_min; exact Hq.
      + apply Hhigh; exact Hq.
    - intros k q Hk Hq. cbn [fst].
      assert (Hi : (i < length cf)%nat).
      { apply nth_error_Some. rewrite control_point_at_min; discriminate. }
      rewrite nth_error_app1 in Hq by lia.
      exact (control_points_before_min _ _ Hk Hq).
    - exists tl; split; [exact Htl |].
      intros p Hp. destruct (Hrest p Hp) as (k & Hk & Hnth).
      destruct (Nat.lt_ge_cases k (length cf)) as [Hlt | Hge].
      + right. exists k; split; [exact Hk |].
        rewrite nth_error_app1 in Hnth by exact Hlt. exact Hnth.
      + left. rewrite nth_error_app2 in Hnth by exact Hge.
        exact (nth_error_In _ _ Hnth). }
  assert (Hzero : forall (y : Q) (l1 : list point),
             (forall q, In q l1 -> 0 < fst q) ->
             sort_points (l1 ++ (0, y) :: high) = (0, y) :: sort_points (l1 ++ high)).
  { intros y l1 Hl1. apply sort_points_min_front; cbn [fst].
    - exact Hl1.
    - intros q Hq. specialize (Hhigh q Hq). lra. }
  assert (Hcf : forall q, In q cf -> 0 < fst q).
  { intros q Hq. pose proof (control_points_right_of_min _ Hq). lra. }
  destruct Hhead as (tl & Htl & Hrest). exists tl. split; [exact Hrest |].
  destruct pl; cbn [spec_low_points app].
  - (* zero *)
    change (cf ++ (m - eps, 0) :: (0, 0) :: high)
      with (cf ++ [(m - eps, 0)] ++ (0, 0) :: high).
    rewrite app_assoc, Hzero.
    + rewrite <- app_assoc. cbn [app]. f_equal.
      rewrite <- Htl.
      apply sort_points_min_front; cbn [fst].
      * intros q Hq. pose proof (control_points_right_of_min _ Hq). lra.
      * intros q Hq. specialize (Hhigh q Hq). lra.
    + intros q Hq. apply in_app_or in Hq as [Hq | [<- | []]];
        [apply Hcf; exact Hq | cbn [fst]; lra].
  - (* flat *)
    rewrite Hzero by exact Hcf. rewrite Htl; reflexivity.
  - (* linear *)
    rewrite Hzero by exact Hcf. rewrite Htl; reflexivity.
Qed.


End LowBoundaryResponse.


(** ** The inverse transform of the mirrored spectrum *)

Section InverseTransform.
Local Open Scope R_scope.

Lemma Im_weighted_sum_app (w : nat -> C) (k : nat) (l1 l2 : list C) :
  Im (weighted_sum w k (l1 ++ l2))
  = Im (weighted_sum w k l1) + Im (weighted_sum w (k + length l1) l2).
Proof.
  revert k; induction l1 as [| z l1 IH]; intros k; simpl.
  - rewrite Nat.add_0_r; lra.
  - rewrite IH. replace (S k + length l1)%nat with (k + S (length l1))%nat by lia.
    lra.
Qed.

(** A bin and its conjugate, weighted by conjugate factors, add up to a
    real number. *)
Lemma Im_conjugate_pair (z u : C) :
  Im (Cmul z u) + Im (Cmul (Cconj z) (Cconj u)) = 0.
Proof. destruct z, u; simpl; lra. Qed.

Lemma Im_weighted_sum_mirrored (w : nat -> C) (M : list C) (k1 k2 : nat) :
  (forall i, (i < length M)%nat ->
             w (k2 + (length M - 1 - i))%nat = Cconj (w (k1 + i)%nat)) ->
  Im (weighted_sum w k1 M) + Im (weighted_sum w k2 (map Cconj (rev M))) = 0.
Proof.
  revert k1; induction M as [| z M IH]; intros k1 Hw.
  - simpl; lra.
  - cbn [rev weighted_sum]. rewrite map_app, Im_weighted_sum_app.
    rewrite length_map, length_rev. cbn [map weighted_sum].
    specialize (IH (S k1)).
    assert (Hstep : forall i, (i < length M)%nat ->
               w (k2 + (length M - 1 - i))%nat = Cconj (w (S k1 + i)%nat)).
    { intros i Hi. specialize (Hw (S i)). simpl length in Hw.
      replace (k1 + S i)%nat with (S k1 + i)%nat in Hw by lia.
      rewrite <- Hw by lia. f_equal; lia. }
    specialize (IH Hstep).
    assert (H0 : w (k2 + length M)%nat = Cconj (w k1)).
    { specialize (Hw O). simpl length in Hw.
      rewrite Nat.add_0_r in Hw. rewrite <- Hw by lia. f_equal; lia. }
    rewrite H0.
    pose proof (Im_conjugate_pair z (w k1)) as Hpair.
    unfold Cadd at 1 2. cbn [Im snd] in *.
    lra.
Qed.

Lemma cos_nat_PI (t : nat) : cos (PI * INR t) = (-1) ^ t.
Proof.
  induction t as [| t IH].
  - simpl. rewrite Rmult_0_r. apply cos_0.
  - rewrite S_INR, Rmult_plus_distr_l, Rmult_1_r, neg_cos, IH. simpl; lra.
Qed.

Lemma sin_nat_PI (t : nat) : sin (PI * INR t) = 0.
Proof.
  induction t as [| t IH].
  - simpl. rewrite Rmult_0_r. apply sin_0.
  - rewrite S_INR, Rmult_plus_distr_l, Rmult_1_r, neg_sin, IH. lra.
Qed.

Lemma twiddle_zero (N t : nat) : twiddle N t 0 = (1, 0).
Proof.
  unfold twiddle, cis. simpl INR.
  replace (2 * PI * INR t * 0 / INR N) with 0 by (unfold Rdiv; ring).
  rewrite cos_0, sin_0; reflexivity.
Qed.

Lemma twiddle_half (h t : nat) :
  (0 < h)%nat -> twiddle (2 * h) t h = ((-1) ^ t, 0).
Proof.
  intros Hh. unfold twiddle, cis.
  assert (Hh' : INR h <> 0) by (apply not_0_INR; lia).
  replace (2 * PI * INR t * INR h / INR (2 * h)) with (PI * INR t).
  - rewrite cos_nat_PI, sin_nat_PI; reflexivity.
  - rewrite mult_INR. simpl INR. field. exact Hh'.
Qed.

Lemma twiddle_conjugate (N t k k' : nat) :
  (0 < N)%nat -> (k + k' = N)%nat ->
  twiddle N t k' = Cconj (twiddle N t k).
Proof.
  intros HN Hk. unfold twiddle, cis, Cconj. cbn [Re Im fst snd].
  assert (HN' : INR N <> 0) by (apply not_0_INR; lia).
  assert (Hangle : 2 * PI * INR t * INR k' / INR N
                   = - (2 * PI * INR t * INR k / INR N) + 2 * INR t * PI).
  { rewrite <- Hk, plus_INR. field. rewrite <- plus_INR, Hk. exact HN'. }
  rewrite Hangle, cos_period, sin_period, cos_neg, sin_neg; reflexivity.
Qed.

Lemma interior_reversed_middle (a b : C) (M : list C) :
  interior_reversed (a :: M ++ [b]) = rev M.
Proof.
  unfold interior_reversed.
  change (a :: M ++ [b]) with ((a :: M) ++ [b]).
  rewrite removelast_last; reflexivity.
Qed.

Lemma nth_ifft (x : list C) (t : nat) :
  (t < length x)%nat ->
  nth t (ifft x) (0, 0)
  = Cscale (/ INR (length x)) (weighted_sum (twiddle (length x) t) 0 x).
Proof.
  intros Ht. unfold ifft.
  set (f := fun j => Cscale (/ INR (length x)) (weighted_sum (twiddle (length x) j) 0 x)).
  rewrite (nth_indep _ (0, 0) (f O)) by (rewrite length_map, length_seq; exact Ht).
  rewrite map_nth, seq_nth by exact Ht. reflexivity.
Qed.

(** The imaginary part of the inverse transform of a mirrored spectrum:
    only the two bins that have no mirrored copy contribute. *)
Lemma ifft_mirror_imaginary (a b : C) (M : list C) (t : nat) :
  (t < 2 * length M + 2)%nat ->
  Im (nth t (ifft (mirror (a :: M ++ [b]))) (0, 0))
  = (Im a + (-1) ^ t * Im b) / INR (2 * length M + 2).
Proof.
  intros Ht.
  assert (Hlen : length (mirror (a :: M ++ [b])) = (2 * length M + 2)%nat).
  { rewrite mirror_length. simpl length. rewrite length_app. simpl. lia. }
  rewrite nth_ifft by (rewrite Hlen; exact Ht).
  rewrite Hlen. set (N := (2 * length M + 2)%nat) in *.
  unfold mirror. rewrite interior_reversed_middle.
  unfold Cscale; cbn [Im snd].
  change (a :: M ++ [b]) with ([a] ++ M ++ [b]).
  rewrite <- !app_assoc, !Im_weighted_sum_app.
  cbn [length weighted_sum Nat.add].
  rewrite twiddle_zero.
  replace (1 + length M)%nat with (S (length M)) by lia.
  replace N with (2 * S (length M))%nat by lia.
  rewrite twiddle_half by lia.
  assert (Hmir : Im (weighted_sum (twiddle (2 * S (length M)) t) 1 M)
                 + Im (weighted_sum (twiddle (2 * S (length M)) t)
                         (S (length M + 1)) (map Cconj (rev M))) = 0).
  { apply Im_weighted_sum_mirrored.
    intros i Hi. apply twiddle_conjugate; lia. }
  set (X := Im (weighted_sum _ 1 M)) in *.
  set (Y := Im (weighted_sum _ _ (map Cconj (rev M)))) in *.
  unfold Cadd, Cmul; cbn [Re Im fst snd].
  replace Y with (- X) by lra.
  unfold Rdiv; ring.
Qed.

End InverseTransform.

Lemma list_ends {A : Type} (l : list A) (d : A) :
  (2 <= length l)%nat ->
  exists M, l = nth 0 l d :: M ++ [nth (length l - 1) l d] /\
            length M = (length l - 2)%nat.
Proof.
  intros Hl. destruct l as [| a l]; [simpl in Hl; lia |].
  destruct (exists_last (l := l)) as (M & b & ->).
  { intros ->; simpl in Hl; lia. }
  exists M; split.
  - assert (E : (length (a :: M ++ [b]) - 1 = S (length M))%nat)
      by (simpl; rewrite length_app; simpl; lia).
    rewrite E. cbn [nth]. rewrite app_nth2 by lia.
    rewrite Nat.sub_diag; reflexivity.
  - cbn [length]. rewrite length_app; simpl; lia.
Qed.

Lemma nth_spectral_samples (rng : nat -> R) (y : list Q) (s k : nat) :
  (k < length y)%nat ->
  nth k (spectral_samples y (map rng (seq s (length y)))) (0, 0)%R
  = Cscale (Q2R (nth k y 0%Q)) (cis (rng (s + k)%nat)).
Proof.
  revert s k; induction y as [| a y IH]; intros s k Hk; simpl in Hk; [lia |].
  destruct k as [| k]; simpl.
  - rewrite Nat.add_0_r; reflexivity.
  - rewrite IH by lia. do 3 f_equal; lia.
Qed.

(** C3 (amended).  For a grid of [n >= 2] bins, the inverse transform of
    the constructed spectrum has at each sample [t] the imaginary part
    [(Im S0 + (-1)^t * Im S1) / (2n - 2)], where [S0] and [S1] are the
    bins of 0 Hz and of nyquist, the two bins without a mirrored copy.
    It is a real sequence when these two bins are real, as they are when
    the interpolated response is zero at 0 Hz and at nyquist. *)
Theorem ifft_imaginary_part (rng : nat -> R) (y : list Q) (t : nat) :
  let n := length y in
  let positive := spectral_samples y (map rng (seq 0 n)) in
  let S0 := nth 0 positive (0, 0)%R in
  let S1 := nth (n - 1) positive (0, 0)%R in
  (2 <= n)%nat -> (t < 2 * n - 2)%nat ->
  Im (nth t (ifft (full_spectrum rng y)) (0, 0)%R)
    = ((Im S0 + (-1) ^ t * Im S1) / INR (2 * n - 2))%R /\
  (Im S0 = 0%R -> Im S1 = 0%R ->
   Im (nth t (ifft (full_spectrum rng y)) (0, 0)%R) = 0%R) /\
  ((nth 0 y 0 == 0)%Q -> (nth (n - 1) y 0 == 0)%Q ->
   Im (nth t (ifft (full_spectrum rng y)) (0, 0)%R) = 0%R).
Proof.
  intros n positive S0 S1 Hn Ht.
  assert (Hlen : length positive = n) by apply spectral_samples_length.
  destruct (list_ends positive (0, 0)%R) as (M & Hpos & HM); [lia |].
  fold S0 in Hpos. rewrite Hlen in Hpos, HM. fold S1 in Hpos.
  assert (Hmain : Im (nth t (ifft (full_spectrum rng y)) (0, 0)%R)
                  = ((Im S0 + (-1) ^ t * Im S1) / INR (2 * n - 2))%R).
  { change (full_spectrum rng y) with (mirror positive).
    rewrite Hpos, ifft_mirror_imaginary by lia.
    do 2 f_equal; lia. }
  split; [exact Hmain | split].
  - intros H0 H1. rewrite Hmain, H0, H1. unfold Rdiv; ring.
  - intros H0 H1. rewrite Hmain.
    unfold S0, S1, positive, n in *.
    rewrite !nth_spectral_samples by lia.
    rewrite (Qeq_eqR _ _ H0), (Qeq_eqR _ _ H1), RMicromega.Q2R_0.
    unfold Cscale; cbn [Im snd]. unfold Rdiv; ring.
Qed.

(** With the phase [pi/2] drawn for every bin (a draw from
    [[0, 2*pi)]), the control point [(0, 1)], nyquist [1], one second and
    the linear high policy, the inverse transform of the spectrum has
    imaginary part [1/2] at its first sample. *)
Lemma ifft_of_spectrum_not_real :
  exists x_f y,
    extend_boundaries [0%Q] [1%Q] 1 "linear" "linear" default_eps
      = Ok ([0%Q; 1%Q], [1%Q; 0%Q]) /\
    sample_response [0%Q; 1%Q] [1%Q; 0%Q] 1 1 = Ok (x_f, y) /\
    (0 <= PI / 2 < 2 * PI)%R /\
    Im (nth 0 (ifft (full_spectrum (fun _ => (PI / 2)%R) y)) (0, 0)%R) = (1 / 2)%R /\
    Im (nth 0 (ifft (full_spectrum (fun _ => (PI / 2)%R) y)) (0, 0)%R) <> 0%R.
Proof.
  exists [0%Q; 1%Q], [1%Q; 0%Q].
  split; [reflexivity | split; [reflexivity |]].
  split; [pose proof PI_RGT_0; lra |].
  assert (H : Im (nth 0 (ifft (full_spectrum (fun _ => (PI / 2)%R) [1%Q; 0%Q]))
                    (0, 0)%R) = (1 / 2)%R).
  { change (full_spectrum (fun _ => (PI / 2)%R) [1%Q; 0%Q])
      with (mirror (Cscale (Q2R 1) (cis (PI / 2)) :: [] ++
                    [Cscale (Q2R 0) (cis (PI / 2))])).
    rewrite ifft_mirror_imaginary by (simpl; lia).
    unfold Cscale, cis; cbn [Im Re fst snd length Nat.mul Nat.add pow INR].
    rewrite sin_PI2, RMicromega.Q2R_0, RMicromega.Q2R_1. lra. }
  split; [exact H | rewrite H; lra].
Qed.

(** ** Amplitude normalization *)

Section Normalization.
Local Open Scope R_scope.

Lemma fold_left_Rmax_ge (l : list R) (a : R) :
  a <= fold_left Rmax l a /\ forall x, In x l -> x <= fold_left Rmax l a.
Proof.
  revert a; induction l as [| b l IH]; intros a; simpl.
  - split; [lra | intros x []].
  - destruct (IH (Rmax a b)) as [H1 H2].
    pose proof (Rmax_l a b). pose proof (Rmax_r a b).
    split; [lra |].
    intros x [<- | Hx]; [lra | apply H2; exact Hx].
Qed.

Lemma fold_left_Rmax_in (l : list R) (a : R) :
  fold_left Rmax l a = a \/ In (fold_left Rmax l a) l.
Proof.
  revert a; induction l as [| b l IH]; intros a; simpl; [left; reflexivity |].
  destruct (IH (Rmax a b)) as [H | H]; [| right; right; exact H].
  rewrite H. unfold Rmax. destruct (Rle_dec a b); auto.
Qed.

(** The builtin [max] returns an entry that bounds every entry. *)
Lemma py_max_R_spec (l : list R) (m : R) :
  py_max_R l = Ok m -> In m l /\ forall x, In x l -> x <= m.
Proof.
  destruct l as [| a l]; simpl; intros H; inversion H; subst; clear H.
  destruct (fold_left_Rmax_ge l a) as [H1 H2].
  split.
  - destruct (fold_left_Rmax_in l a) as [E | E]; [left; symmetry; exact E | right; exact E].
  - intros x [<- | Hx]; [exact H1 | apply H2; exact Hx].
Qed.

Lemma py_max_R_nonempty (l : list R) :
  l <> [] -> exists m, py_max_R l = Ok m.
Proof.
  destruct l as [| a l]; [congruence |].
  intros _; eexists; reflexivity.
Qed.

Lemma np_div_finite (a b : R) : b <> 0 -> np_div a b = Finite (a / b).
Proof.
  intros Hb; unfold np_div. destruct (Req_dec_T b 0); [contradiction | reflexivity].
Qed.

Lemma np_div_zero_by_zero : np_div (8 / 10 * 0) 0 = NotANumber.
Proof.
  unfold np_div.
  destruct (Req_dec_T 0 0) as [_ | H]; [| exfalso; apply H; reflexivity].
  destruct (Req_dec_T (8 / 10 * 0) 0) as [_ | H]; [reflexivity |].
  exfalso; apply H; lra.
Qed.

Lemma Rabs_scaled (s m : R) :
  0 < m -> Rabs (8 / 10 * s / m) = 8 / 10 * (Rabs s / m).
Proof.
  intros Hm.
  replace (8 / 10 * s / m) with ((8 / 10 * / m) * s) by (field; lra).
  rewrite Rabs_mult, (Rabs_pos_eq (8 / 10 * / m)).
  - field; lra.
  - apply Rmult_le_pos; [lra |].
    apply Rlt_le, Rinv_0_lt_compat; exact Hm.
Qed.

Lemma write_normalized_peak (outfile_path : string) (sampling_rate : Q)
    (signal : list R) :
  Exists (fun s => s <> 0) signal ->
  exists m,
    0 < m /\
    py_max_R (map Rabs signal) = Ok m /\
    write_normalized outfile_path sampling_rate signal
      = Ok {| wav_path := outfile_path;
              wav_rate := sampling_rate;
              wav_data := map (fun s => Finite (8 / 10 * s / m)) signal |} /\
    Forall (within (8 / 10)) (map (fun s => Finite (8 / 10 * s / m)) signal) /\
    Exists (peaks_at (8 / 10)) (map (fun s => Finite (8 / 10 * s / m)) signal).
Proof.
  intros Hex.
  destruct (py_max_R_nonempty (map Rabs signal)) as [m Hm].
  { destruct signal; [inversion Hex | discriminate]. }
  destruct (py_max_R_spec _ _ Hm) as [Hin Hall].
  assert (Hpos : 0 < m).
  { apply Exists_exists in Hex as (s & Hs & Hs0).
    assert (H1 : Rabs s <= m) by (apply Hall; apply in_map; exact Hs).
    pose proof (Rabs_pos_lt s Hs0). lra. }
  exists m; split; [exact Hpos | split; [exact Hm |]].
  split; [| split].
  - unfold write_normalized; rewrite Hm; cbn [bind].
    do 2 f_equal. apply map_ext. intros s. apply np_div_finite; lra.
  - apply Forall_forall. intros x Hx.
    apply in_map_iff in Hx as (s & <- & Hs).
    exists (8 / 10 * s / m); split; [reflexivity |].
    assert (H1 : Rabs s <= m) by (apply Hall; apply in_map; exact Hs).
    rewrite Rabs_scaled by exact Hpos.
    assert (H2 : Rabs s / m <= 1).
    { apply (Rmult_le_reg_r m); [exact Hpos |].
      unfold Rdiv. rewrite Rmult_assoc, Rinv_l; lra. }
    lra.
  - apply in_map_iff in Hin as (s & Hs & Hin).
    apply Exists_exists. exists (Finite (8 / 10 * s / m)); split.
    + apply in_map_iff. exists s; split; [reflexivity | exact Hin].
    + exists (8 / 10 * s / m); split; [reflexivity |].
      rewrite Rabs_scaled by exact Hpos.
      rewrite Hs. field; lra.
Qed.

Lemma write_normalized_zero (outfile_path : string) (sampling_rate : Q)
    (signal : list R) :
  signal <> [] -> Forall (fun s => s = 0) signal ->
  py_max_R (map Rabs signal) = Ok 0 /\
  write_normalized outfile_path sampling_rate signal
    = Ok {| wav_path := outfile_path;
            wav_rate := sampling_rate;
            wav_data := map (fun _ => NotANumber) signal |}.
Proof.
  intros Hne Hall.
  destruct (py_max_R_nonempty (map Rabs signal)) as [m Hm].
  { destruct signal; [congruence | discriminate]. }
  destruct (py_max_R_spec _ _ Hm) as [Hin _].
  assert (Hm0 : m = 0).
  { apply in_map_iff in Hin as (s & <- & Hs).
    rewrite Forall_forall in Hall. rewrite (Hall s Hs). apply Rabs_R0. }
  subst m. split; [exact Hm |].
  unfold write_normalized; rewrite Hm; cbn [bind].
  do 2 f_equal. apply map_ext_in. intros s Hs.
  rewrite Forall_forall in Hall. rewrite (Hall s Hs).
  apply np_div_zero_by_zero.
Qed.

End Normalization.

(** C9.  When the signal [get_signal] returns has a sample other than
    zero, [generate_white_noise] writes a file whose samples are numbers
    of absolute value at most [0.8], one of which has absolute value
    [0.8] exactly. *)
Theorem written_peak_is_eight_tenths (rng : nat -> R) (outfile_path : string)
    (freqs responses : list Q) (nyquist sampling_rate : option pynum)
    (duration : pynum) (lb_type ub_type : string) (eps : Q)
    (nyq sr : pynum) (t : list Q) (signal : list R) :
  resolve_rates freqs nyquist sampling_rate = Ok (nyq, sr) ->
  get_signal rng freqs responses nyq sr duration lb_type ub_type eps
    = Ok (t, signal) ->
  Exists (fun s => s <> 0%R) signal ->
  exists w,
    generate_white_noise rng outfile_path freqs responses nyquist sampling_rate
      duration lb_type ub_type eps = Ok w /\
    length (wav_data w) = length signal /\
    Forall (within (8 / 10)) (wav_data w) /\
    Exists (peaks_at (8 / 10)) (wav_data w).
Proof.
  intros Hres Hget Hex.
  destruct (write_normalized_peak outfile_path sr signal Hex)
    as (m & _ & _ & Hw & Hall & Hpeak).
  eexists; split; [| split; [| split]].
  - unfold generate_white_noise.
    rewrite Hres; cbn [bind]. rewrite Hget; cbn [bind]. exact Hw.
  - cbn [wav_data]. apply length_map.
  - exact Hall.
  - exact Hpeak.
Qed.

(** ** A spectrum of zero magnitudes *)

Section ZeroSpectrum.
Local Open Scope R_scope.

Lemma spectral_samples_zero (y : list Q) (phase : list R) :
  Forall (fun q => (q == 0)%Q) y ->
  Forall (fun z => z = (0, 0)) (spectral_samples y phase).
Proof.
  intros Hy; revert phase; induction Hy as [| a y Ha Hy IH]; intros phase.
  - destruct phase; constructor.
  - destruct phase as [| p phase]; [constructor |].
    cbn [spectral_samples]. constructor; [| apply IH].
    unfold Cscale, cis; cbn [Re Im fst snd].
    rewrite (Qeq_eqR _ _ Ha), RMicromega.Q2R_0. f_equal; ring.
Qed.

Lemma mirror_zero (z : list C) :
  Forall (fun c => c = (0, 0)) z -> Forall (fun c => c = (0, 0)) (mirror z).
Proof.
  intros Hz. rewrite Forall_forall in Hz.
  apply Forall_forall. intros c Hc. unfold mirror in Hc.
  apply in_app_or in Hc as [Hc | Hc]; [apply Hz; exact Hc |].
  apply in_map_iff in Hc as (c' & <- & Hc').
  unfold interior_reversed in Hc'. apply in_rev in Hc'.
  assert (Hin : In c' z).
  { destruct (removelast z) as [| h r] eqn:E; [destruct Hc' |].
    assert (Hr : In c' (removelast z)) by (rewrite E; right; exact Hc').
    clear - Hr. induction z as [| a z IH]; [destruct Hr |].
    destruct z as [| b z]; [destruct Hr |].
    change (removelast (a :: b :: z)) with (a :: removelast (b :: z)) in Hr.
    destruct Hr as [<- | Hr]; [left; reflexivity | right; apply IH; exact Hr]. }
  rewrite (Hz c' Hin). unfold Cconj; cbn [Re Im fst snd]. f_equal; ring.
Qed.

Lemma weighted_sum_zero (w : nat -> C) (k : nat) (x : list C) :
  Forall (fun c => c = (0, 0)) x -> weighted_sum w k x = (0, 0).
Proof.
  intros Hx; revert k; induction Hx as [| c x Hc Hx IH]; intros k; simpl.
  - reflexivity.
  - rewrite IH, Hc. unfold Cadd, Cmul; cbn [Re Im fst snd]. f_equal; ring.
Qed.

(** Magnitudes that are all zero give a signal that is all zero. *)
Lemma zero_magnitudes_zero_signal (rng : nat -> R) (y : list Q) :
  Forall (fun q => (q == 0)%Q) y ->
  Forall (fun s => s = 0) (map Re (ifft (full_spectrum rng y))).
Proof.
  intros Hy.
  assert (Hz : Forall (fun c => c = (0, 0)) (full_spectrum rng y)).
  { unfold full_spectrum. apply mirror_zero, spectral_samples_zero; exact Hy. }
  apply Forall_forall. intros s Hs.
  apply in_map_iff in Hs as (c & <- & Hc).
  unfold ifft in Hc. apply in_map_iff in Hc as (t & <- & _).
  rewrite (weighted_sum_zero _ _ _ Hz).
  unfold Cscale; cbn [Re fst]. ring.
Qed.

Lemma twiddle_first_sample (N k : nat) : twiddle N 0 k = (1, 0).
Proof.
  unfold twiddle, cis. simpl INR.
  replace (2 * PI * 0 * INR k / INR N) with 0 by (unfold Rdiv; ring).
  rewrite cos_0, sin_0; reflexivity.
Qed.

Lemma weighted_sum_ext (w w' : nat -> C) (k : nat) (x : list C) :
  (forall i, w i = w' i) -> weighted_sum w k x = weighted_sum w' k x.
Proof.
  intros Hw; revert k; induction x as [| c x IH]; intros k; simpl;
    [reflexivity | rewrite IH, Hw; reflexivity].
Qed.

(** The first sample of the signal is the mean of the real parts of the
    spectrum. *)
Lemma signal_first_sample (x : list C) :
  (0 < length x)%nat ->
  nth 0 (map Re (ifft x)) 0
  = / INR (length x) * Re (weighted_sum (fun _ => (1, 0)) 0 x).
Proof.
  intros Hx.
  change (nth 0 (map Re (ifft x)) 0) with (nth 0 (map Re (ifft x)) (Re (0, 0))).
  rewrite map_nth, nth_ifft by exact Hx.
  rewrite (weighted_sum_ext _ (fun _ => (1, 0)))
    by (intros i; apply twiddle_first_sample).
  reflexivity.
Qed.

End ZeroSpectrum.

(** ** Responses that are all zero *)

Section ZeroResponses.
Local Open Scope Q_scope.

Lemma nth_snd_zero (f : list point) (k : nat) :
  (forall p, In p f -> snd p == 0) -> snd (nth k f (0, 0)) == 0.
Proof.
  intros Hf. destruct (Nat.lt_ge_cases k (length f)) as [Hk | Hk].
  - apply Hf. apply nth_In; exact Hk.
  - rewrite nth_overflow by exact Hk. reflexivity.
Qed.

Lemma call_linear_zero (f : list point) (q : Q) :
  (forall p, In p f -> snd p == 0) -> call_linear f q == 0.
Proof.
  intros Hf. unfold call_linear.
  destruct (bisect_right (map fst f) q) as [| j].
  - destruct f as [| a f]; [reflexivity |]. apply Hf; left; reflexivity.
  - cbv zeta.
    destruct (_ =? _)%nat; [apply nth_snd_zero; exact Hf |].
    destruct (Qeq_bool _ _); [apply nth_snd_zero; exact Hf |].
    rewrite (nth_snd_zero f j Hf), (nth_snd_zero f (S j) Hf).
    unfold Qdiv. ring.
Qed.

Lemma extend_low_responses_zero (freqs responses : list Q) (lb_type : string)
    (eps : Q) (fe re : list Q) :
  Forall (fun r => r == 0) responses ->
  extend_low freqs responses lb_type eps = Ok (fe, re) ->
  Forall (fun r => r == 0) re.
Proof.
  intros Hz; unfold extend_low; intros H.
  bind_inv H. bind_inv H.
  destruct (Qltb a0 0); [discriminate |].
  destruct (Qltb 0 a0); [| inversion H; subst; exact Hz].
  destruct (String.eqb lb_type "flat").
  { bind_inv H. inversion H; subst.
    apply Forall_app; split; [exact Hz |].
    constructor; [| constructor].
    unfold py_index in Ha1. destruct (nth_error responses a) eqn:E; [| discriminate].
    inversion Ha1; subst. rewrite Forall_forall in Hz.
    apply Hz. exact (nth_error_In _ _ E). }
  destruct (String.eqb lb_type "linear").
  { inversion H; subst. apply Forall_app; split; [exact Hz |].
    repeat constructor. }
  destruct (String.eqb lb_type "zero"); [| discriminate].
  inversion H; subst. apply Forall_app; split; [exact Hz |].
  repeat constructor.
Qed.

Lemma extend_high_responses_zero (fe re : list Q) (nyquist : Q)
    (ub_type : string) (eps : Q) (fe' re' : list Q) :
  Forall (fun r => r == 0) re ->
  extend_high fe re nyquist ub_type eps = Ok (fe', re') ->
  Forall (fun r => r == 0) re'.
Proof.
  intros Hz; unfold extend_high; intros H.
  bind_inv H. bind_inv H.
  destruct (Qltb nyquist a0); [discriminate |].
  destruct (Qltb a0 nyquist); [| inversion H; subst; exact Hz].
  destruct (String.eqb ub_type "flat").
  { bind_inv H. inversion H; subst.
    apply Forall_app; split; [exact Hz |].
    constructor; [| constructor].
    unfold py_index in Ha1. destruct (nth_error re a) eqn:E; [| discriminate].
    inversion Ha1; subst. rewrite Forall_forall in Hz.
    apply Hz. exact (nth_error_In _ _ E). }
  destruct (String.eqb ub_type "linear").
  { inversion H; subst. apply Forall_app; split; [exact Hz |].
    repeat constructor. }
  destruct (String.eqb ub_type "zero"); [| discriminate].
  inversion H; subst. apply Forall_app; split; [exact Hz |].
  repeat constructor.
Qed.

Lemma sample_response_zero (fe re : list Q) (nyquist duration : pynum)
    (x_f y : list Q) :
  Forall (fun r => r == 0) re ->
  sample_response fe re nyquist duration = Ok (x_f, y) ->
  Forall (fun r => r == 0) y.
Proof.
  intros Hz; unfold sample_response; intros H.
  bind_inv H. bind_inv H. bind_inv H. inversion H; subst; clear H.
  unfold interp1d in Ha.
  destruct (negb _); [discriminate |].
  destruct (_ <? _)%nat; [discriminate |].
  inversion Ha; subst a; clear Ha.
  unfold interp_call in Ha1.
  destruct (existsb _ _); [discriminate |].
  assert (Hpts : forall p, In p (sort_points (combine fe re)) -> snd p == 0).
  { intros [px py] Hp. apply (proj1 (sort_points_in _ _)) in Hp.
    apply in_combine_r in Hp.
    rewrite Forall_forall in Hz. exact (Hz py Hp). }
  inversion Ha1; subst y. apply Forall_forall. intros v Hv.
  apply in_map_iff in Hv as (q & <- & _).
  exact (call_linear_zero _ q Hpts).
Qed.

(** Responses that are all zero give a signal that is all zero. *)
Lemma zero_responses_zero_signal (rng : nat -> R) (freqs responses : list Q)
    (nyquist sampling_rate duration : pynum) (lb_type ub_type : string) (eps : Q)
    (t : list Q) (signal : list R) :
  Forall (fun r => r == 0) responses ->
  get_signal rng freqs responses nyquist sampling_rate duration lb_type ub_type eps
    = Ok (t, signal) ->
  Forall (fun s => s = 0%R) signal.
Proof.
  intros Hz Hget.
  destruct (get_signal_stages _ _ _ _ _ _ _ _ _ _ _ Hget)
    as (fe & re & x_f & y & Hext & Hsamp & _ & _ & -> & _).
  apply zero_magnitudes_zero_signal.
  apply (sample_response_zero fe re nyquist duration x_f y); [| exact Hsamp].
  unfold extend_boundaries in Hext.
  apply bind_ok in Hext as ([fe0 re0] & Hl & Hh).
  apply (extend_high_responses_zero _ _ _ _ _ _ _
           (extend_low_responses_zero _ _ _ _ _ _ Hz Hl) Hh).
Qed.

End ZeroResponses.

(** C10.  When every sample of the signal [get_signal] returns is zero,
    as it is when every supplied response is zero, [max(abs(signal))] is
    zero, nothing is raised, and every sample handed to the writer is
    the [nan] of the division of zero by zero: no sample of the file has
    absolute value [0.8]. *)
Theorem zero_signal_writes_nan (rng : nat -> R) (outfile_path : string)
    (freqs responses : list Q) (nyquist sampling_rate : option pynum)
    (duration : pynum) (lb_type ub_type : string) (eps : Q)
    (nyq sr : pynum) (t : list Q) (signal : list R) :
  resolve_rates freqs nyquist sampling_rate = Ok (nyq, sr) ->
  get_signal rng freqs responses nyq sr duration lb_type ub_type eps
    = Ok (t, signal) ->
  (Forall (fun r => (r == 0)%Q) responses -> Forall (fun s => s = 0%R) signal) /\
  (Forall (fun s => s = 0%R) signal ->
   py_max_R (map Rabs signal) = Ok 0%R /\
   generate_white_noise rng outfile_path freqs responses nyquist sampling_rate
     duration lb_type ub_type eps
   = Ok {| wav_path := outfile_path;
           wav_rate := sr;
           wav_data := map (fun _ => NotANumber) signal |} /\
   signal <> [] /\
   ~ Exists (peaks_at (8 / 10))
       (wav_data {| wav_path := outfile_path;
                    wav_rate := sr;
                    wav_data := map (fun _ => NotANumber) signal |})).
Proof.
  intros Hres Hget. split.
  { intros Hz. exact (zero_responses_zero_signal _ _ _ _ _ _ _ _ _ _ _ Hz Hget). }
  intros Hall.
  assert (Hne : signal <> []).
  { destruct (get_signal_stages _ _ _ _ _ _ _ _ _ _ _ Hget)
      as (fe & re & x_f & y & _ & _ & _ & _ & Hsig & Hy).
    intros E. apply (f_equal (@length R)) in E.
    rewrite Hsig, length_map, ifft_length, full_spectrum_length in E.
    simpl in E; lia. }
  destruct (write_normalized_zero outfile_path sr signal Hne Hall) as [Hm Hw].
  split; [exact Hm | split; [| split; [exact Hne |]]].
  - unfold generate_white_noise.
    rewrite Hres; cbn [bind]. rewrite Hget; cbn [bind]. exact Hw.
  - cbn [wav_data]. intros Hex.
    apply Exists_exists in Hex as (x & Hx & r & Hr & _).
    apply in_map_iff in Hx as (s & <- & _). discriminate.
Qed.

(** ** A valid input returns a signal *)

Section Totality.
Local Open Scope Q_scope.

(** The points of the grid lie in [[0, nyquist]]. *)
Lemma np_linspace_range (nyquist : Q) (num : nat) (q : Q) :
  0 <= nyquist -> (2 <= num)%nat -> In q (np_linspace 0 nyquist num) ->
  0 <= q /\ q <= nyquist.
Proof.
  intros Hn Hnum Hq. unfold np_linspace in Hq.
  apply in_map_iff in Hq as (k & <- & Hk). apply in_seq in Hk.
  set (d := inject_Z (Z.of_nat num) - 1).
  assert (Hd : 0 < d).
  { unfold d. assert (H : 2 <= inject_Z (Z.of_nat num)).
    { change 2 with (inject_Z 2). rewrite <- Zle_Qle. lia. }
    lra. }
  assert (Hk0 : 0 <= inject_Z (Z.of_nat k)).
  { change 0 with (inject_Z 0). rewrite <- Zle_Qle. lia. }
  assert (Hk1 : inject_Z (Z.of_nat k) <= d).
  { unfold d. assert (H : inject_Z (Z.of_nat k) + 1 <= inject_Z (Z.of_nat num)).
    { change 1 with (inject_Z 1). rewrite <- inject_Z_plus, <- Zle_Qle. lia. }
    lra. }
  assert (Hc : 0 <= (nyquist - 0) / d) by (apply Qle_shift_div_l; lra).
  assert (Hfull : d * ((nyquist - 0) / d) == nyquist) by (field; lra).
  set (c := (nyquist - 0) / d) in *.
  split; nra.
Qed.

(** Queries between two points of the interpolant are all answered. *)
Lemma interp_call_defined (f : list point) (qs : list Q) (a b : point) :
  sorted_by_x f -> In a f -> In b f ->
  (forall q, In q qs -> fst a <= q /\ q <= fst b) ->
  interp_call f qs = Ok (map (call_linear f) qs).
Proof.
  intros Hs Ha Hb Hq. unfold interp_call.
  destruct (existsb (out_of_bounds f) qs) eqn:E; [| reflexivity].
  apply existsb_exists in E as (q & Hin & Hout).
  destruct (Hq q Hin) as [Hlo Hhi].
  rewrite (within_bounds f a b q Hs Ha Hb Hlo Hhi) in Hout. discriminate.
Qed.

(** With a point at or below [0] Hz and one at or above [nyquist], and
    [duration * nyquist] a positive [int], the grid is sampled. *)
Lemma sample_response_returns (fe re : list Q) (nyquist duration : pynum)
    (p : positive) (p0 pn : point) :
  length fe = length re ->
  In p0 (combine fe re) -> fst p0 <= 0 ->
  In pn (combine fe re) -> nyquist <= fst pn ->
  0 <= nyquist ->
  py_mul duration nyquist = PyInt (Zpos p) ->
  exists x_f y,
    sample_response fe re nyquist duration = Ok (x_f, y) /\
    length y = (Pos.to_nat p + 1)%nat.
Proof.
  intros Hlen Hp0 Hp0' Hpn Hpn' Hnyq Hdur.
  assert (Hlen1 : (1 <= length fe)%nat).
  { assert (H : length (combine fe re) = length fe)
      by (rewrite length_combine; lia).
    rewrite <- H. destruct (combine fe re); [destruct Hp0 | simpl; lia]. }
  unfold sample_response, interp1d.
  rewrite Hlen, Nat.eqb_refl; cbn [negb].
  destruct (Nat.ltb_spec (length re) 1) as [H | _]; [lia |].
  cbn [bind].
  rewrite Hdur. cbn [py_add].
  rewrite (as_count_integer (Z.pos p + 1)) by lia; cbn [bind].
  rewrite (interp_call_defined (sort_points (combine fe re))
             (np_linspace 0 nyquist (Z.to_nat (Z.pos p + 1))) p0 pn).
  - cbn [bind]. do 2 eexists; split; [reflexivity |].
    rewrite length_map, np_linspace_length. lia.
  - apply sort_points_sorted.
  - apply sort_points_in; exact Hp0.
  - apply sort_points_in; exact Hpn.
  - intros q Hq.
    apply np_linspace_range in Hq; [| exact Hnyq | lia].
    destruct Hq as [Hq0 Hq1]. split; lra.
Qed.

End Totality.

Section ValidInput.
Local Open Scope Q_scope.

Variables (freqs responses : list Q) (nyquist eps : Q).
Variables (i j : nat) (m M r_m r_M : Q) (pl pu : BoundaryPolicy).
Hypothesis Hmin : is_first_min freqs i m.
Hypothesis Hmax : is_first_max freqs j M.
Hypothesis Hrm : nth_error responses i = Some r_m.
Hypothesis HrM : nth_error responses j = Some r_M.
Hypothesis Hm : 0 <= m.
Hypothesis HM : M <= nyquist.

Let cf : list point := combine freqs responses.
Let low : list point := if Qltb 0 m then spec_low_points pl m r_m eps else [].
Let high : list point :=
  if Qltb M nyquist then spec_high_points pu M r_M nyquist eps else [].

Lemma control_point_at_max : nth_error cf j = Some (M, r_M).
Proof.
  apply nth_error_combine; [| exact HrM]. destruct Hmax as (Hn & _); exact Hn.
Qed.

(** Some extended point lies at [nyquist] or beyond. *)
Lemma extended_reaches_nyquist :
  exists pn, In pn (cf ++ low ++ high) /\ nyquist <= fst pn.
Proof.
  destruct (Qltb M nyquist) eqn:E.
  - assert (H : exists r, In (nyquist, r) high).
    { unfold high; try rewrite E. destruct pu; cbn [spec_high_points].
      - exists 0; right; left; reflexivity.
      - exists r_M; left; reflexivity.
      - exists 0; left; reflexivity. }
    destruct H as [r Hr]. exists (nyquist, r); split; [| cbn [fst]; lra].
    apply in_or_app; right; apply in_or_app; right; exact Hr.
  - apply Qltb_ge in E. exists (M, r_M); split; [| exact E].
    apply in_or_app; left. exact (nth_error_In _ _ control_point_at_max).
Qed.

(** Some extended point lies at [0] Hz. *)
Lemma extended_reaches_zero :
  exists p0, In p0 (cf ++ low ++ high) /\ fst p0 <= 0.
Proof.
  destruct (Qltb 0 m) eqn:E.
  - assert (H : exists r, In (0, r) low).
    { unfold low; try rewrite E. destruct pl; cbn [spec_low_points].
      - exists 0; right; left; reflexivity.
      - exists r_m; left; reflexivity.
      - exists 0; left; reflexivity. }
    destruct H as [r Hr]. exists (0, r); split; [| cbn [fst]; lra].
    apply in_or_app; right; apply in_or_app; left; exact Hr.
  - apply Qltb_ge in E. exists (m, r_m); split; [| exact E].
    apply in_or_app; left.
    apply (nth_error_In _ i). apply nth_error_combine; [| exact Hrm].
    destruct Hmin as (Hn & _); exact Hn.
Qed.

End ValidInput.

(** For frequencies within [[0, nyquist]], valid policies, as many
    responses as frequencies, and [duration] and [nyquist] two [int]s of
    positive product, [get_signal] returns a signal, of
    [2*duration*nyquist] samples. *)
Lemma get_signal_returns (rng : nat -> R) (freqs responses : list Q)
    (nyquist sampling_rate duration : pynum) (lb_type ub_type : string) (eps : Q)
    (i j : nat) (m M r_m r_M : Q) (pl pu : BoundaryPolicy) (p : positive) :
  is_first_min freqs i m ->
  is_first_max freqs j M ->
  length responses = length freqs ->
  nth_error responses i = Some r_m ->
  nth_error responses j = Some r_M ->
  (0 <= m)%Q -> (M <= nyquist)%Q -> (0 <= eps)%Q ->
  ((0 < m)%Q -> policy_of lb_type = Some pl) ->
  ((M < nyquist)%Q -> policy_of ub_type = Some pu) ->
  py_mul duration nyquist = PyInt (Zpos p) ->
  ~ (sampling_rate == 0)%Q ->
  exists x_t signal_t,
    get_signal rng freqs responses nyquist sampling_rate duration lb_type ub_type eps
      = Ok (x_t, signal_t) /\
    length signal_t = (2 * Pos.to_nat p)%nat.
Proof.
  intros Hmin Hmax Hlen Hrm HrM Hm HM Heps Hpl Hpu Hdur Hsr.
  pose proof (is_first_min_le_max _ _ _ _ _ Hmin Hmax) as HmM.
  pose proof (extend_boundaries_result _ _ nyquist lb_type ub_type eps _ _ _ _ _ _
                pl pu Hmin Hmax Hrm HrM Heps Hm HM Hpl Hpu) as Hext.
  cbv zeta in Hext.
  set (low := if Qltb 0 m then spec_low_points pl m r_m eps else []) in *.
  set (high := if Qltb M nyquist then spec_high_points pu M r_M nyquist eps else [])
    in *.
  set (fe := freqs ++ map fst low ++ map fst high) in *.
  set (re := responses ++ map snd low ++ map snd high) in *.
  assert (Hcomb : combine fe re = combine freqs responses ++ low ++ high).
  { unfold fe, re. rewrite combine_app_same by (symmetry; exact Hlen).
    rewrite combine_app_same by (rewrite !length_map; reflexivity).
    rewrite !combine_fst_snd; reflexivity. }
  assert (Hlen' : length fe = length re).
  { unfold fe, re; rewrite !length_app, !length_map, Hlen; reflexivity. }
  destruct (extended_reaches_zero freqs responses nyquist eps i m M r_m r_M pl pu
              Hmin Hrm) as (p0 & Hp0 & Hp0').
  destruct (extended_reaches_nyquist freqs responses nyquist eps j m M r_m r_M
              pl pu Hmax HrM) as (pn & Hpn & Hpn').
  fold low high in Hp0, Hpn. rewrite <- Hcomb in Hp0, Hpn.
  destruct (sample_response_returns fe re nyquist duration p p0 pn
              Hlen' Hp0 Hp0' Hpn Hpn' ltac:(lra) Hdur)
    as (x_f & y & Hsamp & Hy).
  assert (Hsr' : Qeq_bool sampling_rate 0 = false).
  { destruct (Qeq_bool sampling_rate 0) eqn:E; [| reflexivity].
    apply Qeq_bool_iff in E; contradiction. }
  exists (np_arange 0 duration (fl (1 / sampling_rate))),
         (map Re (ifft (full_spectrum rng y))).
  split.
  - apply (get_signal_run rng _ _ _ _ _ _ _ _ _ _ _ _ Hext Hsamp Hsr'). lia.
  - rewrite length_map, ifft_length, full_spectrum_length, Hy. lia.
Qed.

(** * Instances *)

(** One control point [(1, 1)], nyquist [2], one second, flat policies:
    a grid of three bins and a signal of four samples. *)
Lemma flat_example_run :
  exists x_f y,
    extend_boundaries [1%Q] [1%Q] 2 "flat" "flat" default_eps
      = Ok ([1%Q; 0%Q; 2%Q], [1%Q; 1%Q; 1%Q]) /\
    sample_response [1%Q; 0%Q; 2%Q] [1%Q; 1%Q; 1%Q] 2 1 = Ok (x_f, y) /\
    y = [1%Q; 1%Q; 1%Q] /\
    get_signal rng_zero [1%Q] [1%Q] 2 4 1 "flat" "flat" default_eps
      = Ok (np_arange 0 1 (fl (1 / 4)), map Re (ifft (full_spectrum rng_zero y))).
Proof.
  exists [0 # 2; 2 # 2; 4 # 2], [1%Q; 1%Q; 1%Q].
  assert (He : extend_boundaries [1%Q] [1%Q] 2 "flat" "flat" default_eps
               = Ok ([1%Q; 0%Q; 2%Q], [1%Q; 1%Q; 1%Q]))
    by (vm_compute; reflexivity).
  assert (Hs : sample_response [1%Q; 0%Q; 2%Q] [1%Q; 1%Q; 1%Q] 2 1
               = Ok ([0 # 2; 2 # 2; 4 # 2], [1%Q; 1%Q; 1%Q]))
    by (vm_compute; reflexivity).
  split; [exact He | split; [exact Hs | split; [reflexivity |]]].
  apply (get_signal_run rng_zero _ _ 2 4 1 _ _ _ _ _ _ _ He Hs).
  - vm_compute; reflexivity.
  - simpl; lia.
Defined.

Lemma get_signal_sample_count_witness :
  exists x_t signal_t,
    get_signal rng_zero [1%Q] [1%Q] 2 4 1 "flat" "flat" default_eps
      = Ok (x_t, signal_t) /\
    (value 2 == value 4 / 2)%Q /\
    (value 1 * value 2 == inject_Z 2)%Q /\
    (inject_Z (Z.of_nat (length signal_t)) == value 1 * value 4)%Q.
Proof.
  destruct flat_example_run as (x_f & y & _ & _ & _ & Hrun).
  exists (np_arange 0 1 (fl (1 / 4))), (map Re (ifft (full_spectrum rng_zero y))).
  assert (H1 : (value 2 == value 4 / 2)%Q) by (vm_compute; reflexivity).
  assert (H2 : (value 1 * value 2 == inject_Z 2)%Q) by (vm_compute; reflexivity).
  split; [exact Hrun | split; [exact H1 | split; [exact H2 |]]].
  exact (proj1 (proj2
    (get_signal_sample_count rng_zero [1%Q] [1%Q] 2 4 1 "flat" "flat"
       default_eps _ _ 2%positive Hrun H1 H2))).
Defined.

Lemma full_spectrum_conjugate_symmetry_witness :
  (1 <= 1 <= 3 - 2)%nat /\
  nth (2 * 3 - 2 - 1) (full_spectrum rng_zero [1%Q; 1%Q; 1%Q]) (0, 0)%R
  = Cconj (nth 1 (full_spectrum rng_zero [1%Q; 1%Q; 1%Q]) (0, 0)%R).
Proof.
  assert (H : (1 <= 1 <= 3 - 2)%nat) by (simpl; lia).
  split; [exact H |].
  exact (proj2 (proj2 (proj2 (proj2
    (full_spectrum_conjugate_symmetry rng_zero [1%Q; 1%Q; 1%Q] 1 H))))).
Defined.

(** The control point [(0, 1)] with an unknown low policy: the file is
    written, no invalid-policy error is raised. *)
Lemma invalid_lb_type_accepted :
  policy_of "bogus" = None /\
  (exists w,
     generate_white_noise rng_zero "out.wav" [0%Q] [1%Q] (Some 1%py) None 1
       "bogus" "linear" default_eps = Ok w) /\
  ~ raises (generate_white_noise rng_zero "out.wav" [0%Q] [1%Q] (Some 1%py) None 1
              "bogus" "linear" default_eps) InvalidPolicyError.
Proof.
  assert (Hres : resolve_rates [0%Q] (Some 1%py) None = Ok (1%py, 2%py))
    by reflexivity.
  assert (He : extend_boundaries [0%Q] [1%Q] 1 "bogus" "linear" default_eps
               = Ok ([0%Q; 1%Q], [1%Q; 0%Q]))
    by (vm_compute; reflexivity).
  assert (Hs : sample_response [0%Q; 1%Q] [1%Q; 0%Q] 1 1
               = Ok ([0%Q; 1%Q], [1%Q; 0%Q]))
    by (vm_compute; reflexivity).
  destruct (generate_white_noise_writes rng_zero "out.wav" [0%Q] [1%Q]
              (Some 1%py) None 1 "bogus" "linear" default_eps _ _ _ _ _ _
              Hres He Hs eq_refl ltac:(simpl; lia)) as (m & _ & Hw).
  split; [reflexivity | split].
  - eexists; exact Hw.
  - intros (e & He' & _). rewrite Hw in He'. discriminate.
Qed.

Lemma invalid_policy_raises_on_extended_side_witness :
  is_first_min [1%Q] 0 1%Q /\
  (0 < 1)%Q /\
  policy_of "bogus" = None /\
  get_signal rng_zero [1%Q] [1%Q] 2 4 1 "bogus" "flat" default_eps
    = Raise LbTypeMustBeOneOf.
Proof.
  assert (Hmin : is_first_min [1%Q] 0 1%Q) by exact (first_min_correct 1%Q []).
  assert (Hpos : (0 < 1)%Q) by reflexivity.
  split; [exact Hmin | split; [exact Hpos | split; [reflexivity |]]].
  exact (proj1
    (invalid_policy_raises_on_extended_side rng_zero [1%Q] [1%Q] 2 4 1
       "bogus" "flat" default_eps 0 1%Q Hmin) Hpos eq_refl).
Defined.

Lemma ifft_imaginary_part_witness :
  (2 <= 3)%nat /\ (1 < 2 * 3 - 2)%nat /\
  Im (nth 1 (ifft (full_spectrum (fun _ => 1%R) [0%Q; 1%Q; 0%Q])) (0, 0)%R) = 0%R.
Proof.
  assert (H1 : (2 <= 3)%nat) by lia.
  assert (H2 : (1 < 2 * 3 - 2)%nat) by (simpl; lia).
  split; [exact H1 | split; [exact H2 |]].
  apply (proj2 (proj2
    (ifft_imaginary_part (fun _ => 1%R) [0%Q; 1%Q; 0%Q] 1 H1 H2)));
    reflexivity.
Defined.

Lemma config_error_iff_witness :
  rate_argument (Some 2%py) /\ rate_argument None /\
  ~ raises (generate_white_noise rng_zero "out.wav" [1%Q] [1%Q] (Some 2%py) None 1
              "flat" "flat" default_eps) ConfigError.
Proof.
  assert (H1 : rate_argument (Some 2%py)) by (simpl; intros H; discriminate H).
  assert (H2 : rate_argument None) by exact I.
  split; [exact H1 | split; [exact H2 |]].
  intros Hr.
  apply (proj1 (proj1 (proj2
    (config_error_iff rng_zero "out.wav" [1%Q] [1%Q] (Some 2%py) None 1
       "flat" "flat" default_eps)) H1 H2)) in Hr.
  destruct Hr as [[H _] | (a & b & _ & H & _)]; discriminate H.
Defined.

Lemma domain_error_on_out_of_range_frequency_witness :
  rates_consistent (Some 2%py) (Some 4%py) /\
  Exists (fun f => (effective_nyquist (Some 2%py) (Some 4%py) < f)%Q) [3%Q] /\
  policy_of "flat" <> None /\
  raises (generate_white_noise rng_zero "out.wav" [3%Q] [1%Q] (Some 2%py)
            (Some 4%py) 1 "flat" "flat" default_eps) DomainError.
Proof.
  assert (H1 : rates_consistent (Some 2%py) (Some 4%py)).
  { split; [left; reflexivity | intros _ _; reflexivity]. }
  assert (H2 : Exists (fun f => (effective_nyquist (Some 2%py) (Some 4%py) < f)%Q)
                 [3%Q]).
  { constructor. reflexivity. }
  assert (H3 : policy_of "flat" <> None) by discriminate.
  split; [exact H1 | split; [exact H2 | split; [exact H3 |]]].
  exact (proj1 (proj2
    (domain_error_on_out_of_range_frequency rng_zero "out.wav" [3%Q] [1%Q]
       (Some 2%py) (Some 4%py) 1 "flat" "flat" default_eps))
    H1 H2 (or_intror (conj H3 eq_refl))).
Defined.

Lemma extend_boundaries_appends_policy_points_witness :
  is_first_min [2%Q; 6%Q] 0 2%Q /\
  is_first_max [2%Q; 6%Q] 1 6%Q /\
  extend_boundaries [2%Q; 6%Q] [1%Q; 3%Q] 8 "zero" "flat" (1 # 2)
    = Ok ([2%Q; 6%Q; (2 - (1 # 2))%Q; 0%Q; 8%Q], [1%Q; 3%Q; 0%Q; 0%Q; 3%Q]).
Proof.
  assert (Hmin : is_first_min [2%Q; 6%Q] 0 2%Q)
    by exact (first_min_correct 2%Q [6%Q]).
  assert (Hmax : is_first_max [2%Q; 6%Q] 1 6%Q)
    by exact (first_max_correct 2%Q [6%Q]).
  split; [exact Hmin | split; [exact Hmax |]].
  assert (H1 : (0 <= 1 # 2)%Q) by discriminate.
  assert (H2 : (0 <= 2)%Q) by discriminate.
  assert (H3 : (6 <= 8)%Q) by discriminate.
  exact (proj1
    (extend_boundaries_appends_policy_points [2%Q; 6%Q] [1%Q; 3%Q] 8
       "zero" "flat" (1 # 2) 0 1 2%Q 6%Q 1%Q 3%Q Zero Flat
       Hmin Hmax eq_refl eq_refl H1 H2 H3 (fun _ => eq_refl) (fun _ => eq_refl))).
Defined.


Lemma flat_example_nonzero :
  Exists (fun s => s <> 0%R)
    (map Re (ifft (full_spectrum rng_zero [1%Q; 1%Q; 1%Q]))).
Proof.
  apply Exists_exists.
  exists (nth 0 (map Re (ifft (full_spectrum rng_zero [1%Q; 1%Q; 1%Q]))) 0%R).
  split.
  - apply nth_In. rewrite length_map, ifft_length, full_spectrum_length. simpl; lia.
  - rewrite signal_first_sample
      by (rewrite full_spectrum_length; simpl; lia).
    rewrite full_spectrum_length.
    unfold full_spectrum, mirror, interior_reversed, rng_zero.
    cbn [length seq map spectral_samples removelast tl rev app weighted_sum
         Cadd Cmul Cscale Cconj cis Re Im fst snd Nat.add Nat.sub].
    rewrite cos_0, sin_0.
    unfold Q2R; cbn [Qnum Qden].
    simpl INR. lra.
Defined.

Lemma written_peak_is_eight_tenths_witness :
  exists t signal w,
    resolve_rates [1%Q] (Some 2%py) None = Ok (2%py, 4%py) /\
    get_signal rng_zero [1%Q] [1%Q] 2 4 1 "flat" "flat" default_eps
      = Ok (t, signal) /\
    Exists (fun s => s <> 0%R) signal /\
    generate_white_noise rng_zero "out.wav" [1%Q] [1%Q] (Some 2%py) None 1
      "flat" "flat" default_eps = Ok w /\
    Forall (within (8 / 10)) (wav_data w) /\
    Exists (peaks_at (8 / 10)) (wav_data w).
Proof.
  destruct flat_example_run as (x_f & y & _ & _ & Hy & Hrun).
  subst y.
  assert (Hres : resolve_rates [1%Q] (Some 2%py) None = Ok (2%py, 4%py))
    by reflexivity.
  destruct (written_peak_is_eight_tenths rng_zero "out.wav" [1%Q] [1%Q]
              (Some 2%py) None 1 "flat" "flat" default_eps 2 4 _ _
              Hres Hrun flat_example_nonzero)
    as (w & Hw & _ & Hall & Hpeak).
  exists (np_arange 0 1 (fl (1 / 4))),
         (map Re (ifft (full_spectrum rng_zero [1%Q; 1%Q; 1%Q]))), w.
  repeat split; try assumption. exact flat_example_nonzero.
Defined.

(** The control point [(0, 0)]: every magnitude is zero. *)
Lemma zero_example_run :
  get_signal rng_zero [0%Q] [0%Q] 1 2 1 "linear" "linear" default_eps
  = Ok (np_arange 0 1 (fl (1 / 2)),
        map Re (ifft (full_spectrum rng_zero [0%Q; 0%Q]))).
Proof.
  assert (He : extend_boundaries [0%Q] [0%Q] 1 "linear" "linear" default_eps
               = Ok ([0%Q; 1%Q], [0%Q; 0%Q]))
    by (vm_compute; reflexivity).
  assert (Hs : sample_response [0%Q; 1%Q] [0%Q; 0%Q] 1 1
               = Ok ([0%Q; 1%Q], [0%Q; 0%Q]))
    by (vm_compute; reflexivity).
  apply (get_signal_run rng_zero _ _ 1 2 1 _ _ _ _ _ _ _ He Hs).
  - vm_compute; reflexivity.
  - simpl; lia.
Defined.

Lemma zero_signal_writes_nan_witness :
  exists t signal,
    resolve_rates [0%Q] (Some 1%py) None = Ok (1%py, 2%py) /\
    get_signal rng_zero [0%Q] [0%Q] 1 2 1 "linear" "linear" default_eps
      = Ok (t, signal) /\
    Forall (fun s => s = 0%R) signal /\
    generate_white_noise rng_zero "out.wav" [0%Q] [0%Q] (Some 1%py) None 1
      "linear" "linear" default_eps
    = Ok {| wav_path := "out.wav";
            wav_rate := 2;
            wav_data := map (fun _ => NotANumber) signal |}.
Proof.
  exists (np_arange 0 1 (fl (1 / 2))),
         (map Re (ifft (full_spectrum rng_zero [0%Q; 0%Q]))).
  assert (Hres : resolve_rates [0%Q] (Some 1%py) None = Ok (1%py, 2%py))
    by reflexivity.
  assert (Hresp : Forall (fun r => (r == 0)%Q) [0%Q]) by (repeat constructor).
  destruct (zero_signal_writes_nan rng_zero "out.wav" [0%Q] [0%Q] (Some 1%py)
              None 1 "linear" "linear" default_eps 1 2 _ _ Hres zero_example_run)
    as [Hzero Hnan].
  specialize (Hzero Hresp).
  split; [exact Hres | split; [exact zero_example_run | split; [exact Hzero |]]].
  exact (proj1 (proj2 (Hnan Hzero))).
Defined.

(** With both rates supplied, the low policy is looked at before the
    frequencies are compared with nyquist: for the frequency [3] above
    the nyquist limit [2] and an unknown [lb_type], what is raised is
    the invalid-policy error, not a [DomainError]. *)
Lemma lb_type_checked_before_nyquist :
  rates_consistent (Some 2%py) (Some 4%py) /\
  Exists (fun f => (effective_nyquist (Some 2%py) (Some 4%py) < f)%Q) [3%Q] /\
  generate_white_noise rng_zero "out.wav" [3%Q] [1%Q] (Some 2%py) (Some 4%py) 1
    "bogus" "flat" default_eps = Raise LbTypeMustBeOneOf /\
  ~ raises (generate_white_noise rng_zero "out.wav" [3%Q] [1%Q] (Some 2%py)
              (Some 4%py) 1 "bogus" "flat" default_eps) DomainError.
Proof.
  assert (He : extend_boundaries [3%Q] [1%Q] 2 "bogus" "flat" default_eps
               = Raise LbTypeMustBeOneOf) by (vm_compute; reflexivity).
  assert (Hres : resolve_rates [3%Q] (Some 2%py) (Some 4%py) = Ok (2%py, 4%py))
    by reflexivity.
  assert (Hgen : generate_white_noise rng_zero "out.wav" [3%Q] [1%Q] (Some 2%py)
                   (Some 4%py) 1 "bogus" "flat" default_eps
                 = Raise LbTypeMustBeOneOf).
  { unfold generate_white_noise. rewrite Hres; cbn [bind].
    rewrite (get_signal_extend_raise rng_zero _ _ 2 4 1 _ _ _ _ He). reflexivity. }
  split; [| split; [| split; [exact Hgen |]]].
  - split; [left; reflexivity | intros _ _; reflexivity].
  - constructor. reflexivity.
  - intros (e & He' & Hk). rewrite Hgen in He'. inversion He'; subst e.
    discriminate Hk.
Qed.


(** * Further properties *)

(** ** Interpolated values lie between the points *)

Section Segments.
Local Open Scope Q_scope.

(** A number between the two responses of the segment. *)
Lemma line_through_between (a b : point) (q lo hi : Q) :
  fst a < fst b -> fst a <= q -> q <= fst b ->
  lo <= snd a -> snd a <= hi -> lo <= snd b -> snd b <= hi ->
  lo <= line_through a b q /\ line_through a b q <= hi.
Proof.
  intros Hab H1 H2 La Ha Lb Hb. unfold line_through.
  set (t := (q - fst a) / (fst b - fst a)).
  assert (Ht0 : 0 <= t) by (apply Qle_shift_div_l; lra).
  assert (Ht1 : t <= 1) by (apply Qle_shift_div_r; lra).
  assert (E : (snd b - snd a) / (fst b - fst a) * (q - fst a) + snd a
              == snd a + (snd b - snd a) * t).
  { unfold t. field. lra. }
  rewrite E. split; nra.
Qed.

Lemma interp1d_sorted (x y : list Q) (f : list point) :
  interp1d x y = Ok f ->
  f = sort_points (combine x y) /\ length x = length y /\ (1 <= length f)%nat /\
  sorted_by_x f.
Proof.
  unfold interp1d.
  destruct (Nat.eqb_spec (length x) (length y)) as [E | E]; cbn [negb];
    [| discriminate].
  destruct (Nat.ltb_spec (length x) 1) as [H | H]; [discriminate |].
  intros Hf; inversion Hf; subst f; clear Hf.
  split; [reflexivity | split; [exact E | split; [| apply sort_points_sorted]]].
  assert (L : forall l : list point, length (sort_points l) = length l).
  { induction l as [| p l IH]; [reflexivity |]. simpl.
    assert (Li : forall (p : Q * Q) l, length (insert_point p l) = S (length l)).
    { clear. intros p l; induction l as [| a l IH]; [reflexivity |]. simpl.
      destruct (Qle_bool (fst p) (fst a)); simpl; [reflexivity | rewrite IH; reflexivity]. }
    rewrite Li, IH; reflexivity. }
  rewrite L, length_combine. lia.
Qed.

(** The interpolated value stays within what bounds the responses. *)
Lemma interp_at_between (f : list point) (q v lo hi : Q) :
  sorted_by_x f -> (1 <= length f)%nat ->
  (forall p, In p f -> lo <= snd p /\ snd p <= hi) ->
  interp_at f q = Ok v -> lo <= v /\ v <= hi.
Proof.
  intros Hs Hlen Hy Hv.
  destruct (interp_at_ok _ _ _ Hv) as (Hlo & Hhi & ->).
  assert (Hne : f <> []) by (intros ->; simpl in Hlen; lia).
  destruct (segment_of_query f q Hne Hlo)
    as [(pre & a & -> & Ha) | (pre & a & b & post & -> & Ha & Hb)].
  - rewrite (call_linear_last pre a q Hs Ha).
    apply Hy. apply in_or_app; right; left; reflexivity.
  - rewrite (call_linear_segment pre post a b q Hs Ha Hb).
    destruct (Hy a) as [La Hia]; [apply in_or_app; right; left; reflexivity |].
    destruct (Hy b) as [Lb Hib];
      [apply in_or_app; right; right; left; reflexivity |].
    apply line_through_between; try assumption; lra.
Qed.

End Segments.

(** ** What the extender adds *)

Lemma extend_low_shape (freqs responses : list Q) (lb_type : string) (eps : Q)
    (fe re : list Q) :
  extend_low freqs responses lb_type eps = Ok (fe, re) ->
  freqs <> [] /\
  exists ef er,
    fe = freqs ++ ef /\ re = responses ++ er /\
    length ef = length er /\ (length ef <= 2)%nat /\
    forall y, In y er -> y = 0%Q \/ In y responses.
Proof.
  unfold extend_low; intros H.
  split; [intros ->; discriminate |].
  bind_inv H. bind_inv H.
  destruct (Qltb a0 0); [discriminate |].
  destruct (Qltb 0 a0).
  - destruct (String.eqb lb_type "flat").
    { bind_inv H. inversion H; subst.
      exists [0%Q], [a1]; repeat split; simpl; try lia.
      intros y [<- | []]. right.
      unfold py_index in Ha1. destruct (nth_error responses a) eqn:E; [| discriminate].
      inversion Ha1; subst. exact (nth_error_In _ _ E). }
    destruct (String.eqb lb_type "linear").
    { inversion H; subst. exists [0%Q], [0%Q]; repeat split; simpl; try lia.
      intros y [<- | []]; left; reflexivity. }
    destruct (String.eqb lb_type "zero"); [| discriminate].
    inversion H; subst. exists [(a0 - eps)%Q; 0%Q], [0%Q; 0%Q].
    repeat split; simpl; try lia.
    intros y [<- | [<- | []]]; left; reflexivity.
  - inversion H; subst. exists [], []. rewrite !app_nil_r.
    repeat split; simpl; try lia.
Qed.

Lemma extend_high_shape (fe re : list Q) (nyquist : Q) (ub_type : string)
    (eps : Q) (fe' re' : list Q) :
  extend_high fe re nyquist ub_type eps = Ok (fe', re') ->
  exists ef er,
    fe' = fe ++ ef /\ re' = re ++ er /\
    length ef = length er /\ (length ef <= 2)%nat /\
    forall y, In y er -> y = 0%Q \/ In y re.
Proof.
  unfold extend_high; intros H.
  bind_inv H. bind_inv H.
  destruct (Qltb nyquist a0); [discriminate |].
  destruct (Qltb a0 nyquist).
  - destruct (String.eqb ub_type "flat").
    { bind_inv H. inversion H; subst.
      exists [nyquist], [a1]; repeat split; simpl; try lia.
      intros y [<- | []]. right.
      unfold py_index in Ha1. destruct (nth_error re a) eqn:E; [| discriminate].
      inversion Ha1; subst. exact (nth_error_In _ _ E). }
    destruct (String.eqb ub_type "linear").
    { inversion H; subst. exists [nyquist], [0%Q]; repeat split; simpl; try lia.
      intros y [<- | []]; left; reflexivity. }
    destruct (String.eqb ub_type "zero"); [| discriminate].
    inversion H; subst. exists [(a0 + eps)%Q; nyquist], [0%Q; 0%Q].
    repeat split; simpl; try lia.
    intros y [<- | [<- | []]]; left; reflexivity.
  - inversion H; subst. exists [], []. rewrite !app_nil_r.
    repeat split; simpl; try lia.
Qed.

(** The extender keeps the control points, adds as many responses as
    frequencies, at most four, and every response it adds is zero or one
    of the responses given. *)
Lemma extend_boundaries_shape (freqs responses : list Q) (nyquist : Q)
    (lb_type ub_type : string) (eps : Q) (fe re : list Q) :
  extend_boundaries freqs responses nyquist lb_type ub_type eps = Ok (fe, re) ->
  freqs <> [] /\
  exists ef er,
    fe = freqs ++ ef /\ re = responses ++ er /\
    length ef = length er /\ (length ef <= 4)%nat /\
    forall y, In y er -> y = 0%Q \/ In y responses.
Proof.
  unfold extend_boundaries; intros H.
  apply bind_ok in H as ([fe0 re0] & Hl & Hh).
  destruct (extend_low_shape _ _ _ _ _ _ Hl)
    as (Hne & ef & er & -> & -> & L1 & L2 & Hy).
  destruct (extend_high_shape _ _ _ _ _ _ _ Hh)
    as (ef' & er' & -> & -> & L1' & L2' & Hy').
  split; [exact Hne |].
  exists (ef ++ ef'), (er ++ er').
  rewrite <- !app_assoc, !length_app. repeat split; try lia.
  intros y Hin. apply in_app_or in Hin as [Hin | Hin]; [apply Hy; exact Hin |].
  destruct (Hy' y Hin) as [H0 | H0]; [left; exact H0 |].
  apply in_app_or in H0 as [H0 | H0]; [right; exact H0 | apply Hy; exact H0].
Qed.

(** Every entry of [freq_func(x_f)] is [freq_func] at an entry of
    [x_f]. *)
Lemma interp_call_in (f : list point) (qs ys : list Q) (v : Q) :
  interp_call f qs = Ok ys -> In v ys ->
  exists q, In q qs /\ interp_at f q = Ok v.
Proof.
  unfold interp_call, interp_at; intros H Hv.
  destruct (existsb (out_of_bounds f) qs) eqn:E; [discriminate |].
  inversion H; subst ys.
  apply in_map_iff in Hv as (q & <- & Hq).
  exists q; split; [exact Hq |].
  destruct (out_of_bounds f q) eqn:Eq; [| reflexivity].
  assert (Hex : existsb (out_of_bounds f) qs = true)
    by (apply existsb_exists; exists q; split; assumption).
  congruence.
Qed.

Lemma sample_response_stages (fe re : list Q) (nyquist duration : pynum)
    (x_f y : list Q) :
  sample_response fe re nyquist duration = Ok (x_f, y) ->
  exists f num,
    interp1d fe re = Ok f /\
    as_count (py_add (py_mul duration nyquist) 1) = Ok num /\
    x_f = np_linspace 0 nyquist num /\
    interp_call f x_f = Ok y.
Proof.
  unfold sample_response; intros H.
  bind_inv H. bind_inv H. bind_inv H. inversion H; subst; clear H.
  exists a, a0; repeat split; assumption.
Qed.

(** X1.  The magnitudes of the bins stay within the range of the
    responses: with every response in [[0, B]], every magnitude is in [[0,
    B]]. *)
Theorem magnitudes_within_responses (freqs responses : list Q)
    (nyquist duration : pynum) (lb_type ub_type : string) (eps B : Q)
    (fe re x_f y : list Q) :
  extend_boundaries freqs responses nyquist lb_type ub_type eps = Ok (fe, re) ->
  sample_response fe re nyquist duration = Ok (x_f, y) ->
  Forall (fun r => (0 <= r)%Q /\ (r <= B)%Q) responses ->
  Forall (fun v => (0 <= v)%Q /\ (v <= B)%Q) y.
Proof.
  intros Hext Hsamp Hr.
  destruct (extend_boundaries_shape _ _ _ _ _ _ _ _ Hext)
    as (Hne & ef & er & Hfe & Hre & L & _ & Hadd).
  destruct (sample_response_stages _ _ _ _ _ _ Hsamp)
    as (f & num & Hf & _ & _ & Hcall).
  destruct (interp1d_sorted _ _ _ Hf) as (Ef & Hlen & Hlen2 & Hsorted).
  rewrite Forall_forall in Hr.
  assert (HB : (0 <= B)%Q).
  { assert (Hl : length freqs = length responses).
    { rewrite Hfe, Hre, !length_app in Hlen. lia. }
    destruct responses as [| r0 rs].
    - destruct freqs; [congruence | discriminate].
    - destruct (Hr r0 (or_introl eq_refl)). lra. }
  assert (Hpts : forall p, In p f -> (0 <= snd p)%Q /\ (snd p <= B)%Q).
  { intros [px py] Hp. rewrite Ef in Hp.
    apply (proj1 (sort_points_in _ _)) in Hp. apply in_combine_r in Hp.
    rewrite Hre in Hp. apply in_app_or in Hp as [Hp | Hp]; cbn [snd].
    - exact (Hr py Hp).
    - destruct (Hadd py Hp) as [-> | Hp']; [split; lra | exact (Hr py Hp')]. }
  apply Forall_forall. intros v Hv.
  destruct (interp_call_in _ _ _ _ Hcall Hv) as (q & _ & Hq).
  exact (interp_at_between f q v 0 B Hsorted Hlen2 Hpts Hq).
Qed.

(** ** Control points at pairwise distinct frequencies *)

Section DistinctFrequencies.
Local Open Scope Q_scope.





End DistinctFrequencies.

(** ** The grids *)

Section Grids.
Local Open Scope Q_scope.



End Grids.


(** One control point [(1, 1)], nyquist [2], one second, linear policies:
    the magnitudes of the three bins are [0], [1] and [0]. *)
Lemma linear_example_run :
  extend_boundaries [1%Q] [1%Q] 2 "linear" "linear" default_eps
    = Ok ([1%Q; 0%Q; 2%Q], [1%Q; 0%Q; 0%Q]) /\
  sample_response [1%Q; 0%Q; 2%Q] [1%Q; 0%Q; 0%Q] 2 1
    = Ok ([0 # 2; 2 # 2; 4 # 2], [0%Q; 1%Q; 0%Q]).
Proof. split; vm_compute; reflexivity. Defined.

Lemma magnitudes_within_responses_witness :
  extend_boundaries [1%Q] [1%Q] 2 "linear" "linear" default_eps
    = Ok ([1%Q; 0%Q; 2%Q], [1%Q; 0%Q; 0%Q]) /\
  sample_response [1%Q; 0%Q; 2%Q] [1%Q; 0%Q; 0%Q] 2 1
    = Ok ([0 # 2; 2 # 2; 4 # 2], [0%Q; 1%Q; 0%Q]) /\
  Forall (fun r => (0 <= r)%Q /\ (r <= 1)%Q) [1%Q] /\
  Forall (fun v => (0 <= v)%Q /\ (v <= 1)%Q) [0%Q; 1%Q; 0%Q].
Proof.
  destruct linear_example_run as [He Hs].
  assert (Hr : Forall (fun r => (0 <= r)%Q /\ (r <= 1)%Q) [1%Q]).
  { constructor; [split; unfold Qle; simpl; lia | constructor]. }
  split; [exact He | split; [exact Hs | split; [exact Hr |]]].
  exact (magnitudes_within_responses [1%Q] [1%Q] 2 1 "linear" "linear"
           default_eps 1 _ _ _ _ He Hs Hr).
Defined.


(** ** Valid input *)

Lemma py_mul_int (a b : pynum) (z : Z) :
  py_mul a b = PyInt z -> exists x y, a = PyInt x /\ b = PyInt y /\ z = (x * y)%Z.
Proof.
  destruct a as [x | x], b as [y | y]; cbn [py_mul]; intros H; inversion H.
  exists x, y; repeat split; reflexivity.
Qed.

Lemma py_mul_float (a : pynum) (q : Q) :
  py_mul a (PyFloat q) = PyFloat (a * q)%Q.
Proof. destruct a; reflexivity. Qed.

Lemma resolve_rates_ok (freqs : list Q) (nyquist sampling_rate : option pynum)
    (j : nat) (M : Q) :
  rates_consistent nyquist sampling_rate ->
  truthy nyquist = true ->
  is_first_max freqs j M ->
  (M <= number nyquist)%Q ->
  exists sr,
    resolve_rates freqs nyquist sampling_rate = Ok (number nyquist, sr) /\
    (sr == 2 * number nyquist)%Q.
Proof.
  intros [Hsome Hcons] Tn Hmax HM.
  pose proof (py_max_first_max _ _ _ Hmax) as Hpymax.
  unfold resolve_rates. rewrite Tn.
  destruct (truthy sampling_rate) eqn:Ts; cbn [negb andb py_truediv value].
  - specialize (Hcons Tn eq_refl).
    pose proof Hcons as Hc. apply Qeq_bool_iff in Hc; rewrite Hc; cbn [negb].
    eexists; split; [reflexivity |]. rewrite Hcons. field.
  - rewrite Hpymax; cbn [bind].
    apply Qltb_ge in HM; rewrite HM.
    eexists; split; [reflexivity |]. apply value_py_mul.
Qed.

(** With the sampling rate alone, the nyquist limit handed to
    [get_signal] is a [float]. *)
Lemma resolve_rates_from_sampling_rate (freqs : list Q)
    (nyquist sampling_rate : option pynum) (nyq sr : pynum) :
  truthy nyquist = false ->
  resolve_rates freqs nyquist sampling_rate = Ok (nyq, sr) ->
  nyq = PyFloat (number sampling_rate / 2) /\ sr = number sampling_rate.
Proof.
  intros Tn. unfold resolve_rates. rewrite Tn.
  destruct (truthy sampling_rate); cbn [negb andb]; [| discriminate].
  intros H. bind_inv H. destruct (Qltb _ _); [discriminate |].
  inversion H; split; reflexivity.
Qed.

Lemma responses_at_extrema (freqs responses : list Q) (i j : nat) (m M : Q) :
  is_first_min freqs i m -> is_first_max freqs j M ->
  length responses = length freqs ->
  exists r_m r_M, nth_error responses i = Some r_m /\ nth_error responses j = Some r_M.
Proof.
  intros Hmin Hmax Hlen.
  assert (Hri : exists r_m, nth_error responses i = Some r_m).
  { destruct (nth_error responses i) as [r |] eqn:E; [exists r; reflexivity |].
    apply nth_error_None in E. destruct Hmin as (Hn & _).
    assert (i < length freqs)%nat by (apply nth_error_Some; congruence). lia. }
  assert (Hrj : exists r_M, nth_error responses j = Some r_M).
  { destruct (nth_error responses j) as [r |] eqn:E; [exists r; reflexivity |].
    apply nth_error_None in E. destruct Hmax as (Hn & _).
    assert (j < length freqs)%nat by (apply nth_error_Some; congruence). lia. }
  destruct Hri as [r_m Hrm], Hrj as [r_M HrM].
  exists r_m, r_M; split; assumption.
Qed.

Lemma generate_white_noise_returns (rng : nat -> R) (outfile_path : string)
    (freqs responses : list Q) (nyquist sampling_rate : option pynum)
    (duration : pynum) (lb_type ub_type : string) (eps : Q) (nyq sr : pynum)
    (i j : nat) (m M : Q) (pl pu : BoundaryPolicy) (p : positive) :
  resolve_rates freqs nyquist sampling_rate = Ok (nyq, sr) ->
  ~ (sr == 0)%Q ->
  is_first_min freqs i m ->
  is_first_max freqs j M ->
  length responses = length freqs ->
  (0 <= m)%Q -> (M <= nyq)%Q -> (0 <= eps)%Q ->
  ((0 < m)%Q -> policy_of lb_type = Some pl) ->
  ((M < nyq)%Q -> policy_of ub_type = Some pu) ->
  py_mul duration nyq = PyInt (Zpos p) ->
  exists w,
    generate_white_noise rng outfile_path freqs responses nyquist sampling_rate
      duration lb_type ub_type eps = Ok w /\
    wav_path w = outfile_path /\
    wav_rate w = sr /\
    length (wav_data w) = (2 * Pos.to_nat p)%nat.
Proof.
  intros Hres Hsr0 Hmin Hmax Hlen Hm HM Heps Hpl Hpu Hdur.
  destruct (responses_at_extrema _ _ _ _ _ _ Hmin Hmax Hlen)
    as (r_m & r_M & Hrm & HrM).
  destruct (get_signal_returns rng freqs responses nyq sr duration lb_type ub_type
              eps i j m M r_m r_M pl pu p Hmin Hmax Hlen Hrm HrM Hm HM Heps
              Hpl Hpu Hdur Hsr0) as (x_t & signal_t & Hget & Hsig).
  unfold generate_white_noise. rewrite Hres; cbn [bind]. rewrite Hget; cbn [bind].
  unfold write_normalized.
  destruct (map Rabs signal_t) as [| a l] eqn:E.
  { apply (f_equal (@length R)) in E. rewrite length_map, Hsig in E.
    simpl in E; lia. }
  cbn [py_max_R bind].
  eexists; split; [reflexivity |]. cbn [wav_path wav_rate wav_data].
  split; [reflexivity | split; [reflexivity |]].
  rewrite length_map; exact Hsig.
Qed.

(** X3.  The nyquist limit supplied (alone, or with a sampling rate that
    agrees with it), [duration] and [nyquist] two [int]s whose product is
    a positive [p], frequencies within [[0, nyquist]], as many responses
    as frequencies, valid policies on the sides that are extended and
    [eps >= 0]: nothing is raised, and [write] is called with
    [outfile_path], the rate [2*nyquist] and [2p] samples. *)
Theorem valid_input_reaches_write (rng : nat -> R) (outfile_path : string)
    (freqs responses : list Q) (nyquist sampling_rate : option pynum)
    (duration : pynum) (lb_type ub_type : string) (eps : Q)
    (i j : nat) (m M : Q) (pl pu : BoundaryPolicy) (p : positive) :
  rates_consistent nyquist sampling_rate ->
  py_mul duration (number nyquist) = PyInt (Zpos p) ->
  is_first_min freqs i m ->
  is_first_max freqs j M ->
  length responses = length freqs ->
  (0 <= m)%Q -> (M <= number nyquist)%Q -> (0 <= eps)%Q ->
  ((0 < m)%Q -> policy_of lb_type = Some pl) ->
  ((M < number nyquist)%Q -> policy_of ub_type = Some pu) ->
  exists w,
    generate_white_noise rng outfile_path freqs responses nyquist sampling_rate
      duration lb_type ub_type eps = Ok w /\
    wav_path w = outfile_path /\
    (wav_rate w == 2 * number nyquist)%Q /\
    length (wav_data w) = (2 * Pos.to_nat p)%nat.
Proof.
  intros Hrates Hdur Hmin Hmax Hlen Hm HM Heps Hpl Hpu.
  destruct (py_mul_int _ _ _ Hdur) as (d & n & Ed & En & Hp).
  assert (Hn0 : ~ (number nyquist == 0)%Q).
  { rewrite En. cbn [value]. intros E.
    apply (proj1 (inject_Z_injective n 0)) in E. subst n. lia. }
  assert (Tn : truthy nyquist = true).
  { destruct nyquist as [y |]; cbn [truthy number] in *.
    - destruct (Qeq_bool y 0) eqn:E; [| reflexivity].
      apply Qeq_bool_iff in E. contradiction.
    - exfalso. apply Hn0. reflexivity. }
  destruct (resolve_rates_ok freqs nyquist sampling_rate j M Hrates Tn Hmax HM)
    as (sr & Hres & Hsr).
  assert (Hsr0 : ~ (sr == 0)%Q).
  { intros E. apply Hn0. rewrite E in Hsr. lra. }
  destruct (generate_white_noise_returns rng outfile_path freqs responses nyquist
              sampling_rate duration lb_type ub_type eps (number nyquist) sr
              i j m M pl pu p
              Hres Hsr0 Hmin Hmax Hlen Hm HM Heps Hpl Hpu Hdur)
    as (w & Hw & Hpath & Hrate & Hlenw).
  exists w. split; [exact Hw | split; [exact Hpath | split; [| exact Hlenw]]].
  rewrite Hrate. exact Hsr.
Qed.

Lemma valid_input_reaches_write_witness :
  rates_consistent (Some 2%py) None /\
  py_mul 1 (number (Some 2%py)) = PyInt 2 /\
  is_first_min [1%Q] 0 1%Q /\
  is_first_max [1%Q] 0 1%Q /\
  exists w,
    generate_white_noise rng_zero "out.wav" [1%Q] [1%Q] (Some 2%py) None 1
      "flat" "flat" default_eps = Ok w /\
    wav_path w = "out.wav"%string /\
    (wav_rate w == 2 * number (Some 2%py))%Q /\
    length (wav_data w) = (2 * Pos.to_nat 2)%nat.
Proof.
  assert (Hrates : rates_consistent (Some 2%py) None).
  { split; [left; reflexivity | intros _ H; discriminate H]. }
  assert (Hdur : py_mul 1 (number (Some 2%py)) = PyInt 2) by reflexivity.
  assert (Hmin : is_first_min [1%Q] 0 1%Q) by exact (first_min_correct 1%Q []).
  assert (Hmax : is_first_max [1%Q] 0 1%Q) by exact (first_max_correct 1%Q []).
  split; [exact Hrates | split; [exact Hdur | split; [exact Hmin |
    split; [exact Hmax |]]]].
  apply (valid_input_reaches_write rng_zero "out.wav" [1%Q] [1%Q] (Some 2%py) None 1
           "flat" "flat" default_eps 0 0 1%Q 1%Q Flat Flat 2%positive
           Hrates Hdur Hmin Hmax eq_refl).
  - discriminate.
  - discriminate.
  - discriminate.
  - intros _; reflexivity.
  - intros _; reflexivity.
Defined.

(** ** The time axis (line 88) *)

(** X4.  The number of times is taken from a quotient of floats: for one
    second at the sampling rate [98] the quotient of [1] by
    [1.0/98] is rounded to a number above [98], and [get_signal] returns
    [99] times with a signal of [98] samples. *)
Theorem time_axis_longer_than_signal :
  exists x_t signal_t,
    get_signal rng_zero [1%Q] [1%Q] 49 98 1 "flat" "flat" default_eps
      = Ok (x_t, signal_t) /\
    length signal_t = 98%nat /\
    length x_t = 99%nat.
Proof.
  assert (Hmin : is_first_min [1%Q] 0 1%Q) by exact (first_min_correct 1%Q []).
  assert (Hmax : is_first_max [1%Q] 0 1%Q) by exact (first_max_correct 1%Q []).
  destruct (get_signal_returns rng_zero [1%Q] [1%Q] 49 98 1 "flat" "flat"
              default_eps 0 0 1%Q 1%Q 1%Q 1%Q Flat Flat 49%positive
              Hmin Hmax eq_refl eq_refl eq_refl)
    as (x_t & signal_t & Hget & Hlen);
    [discriminate | discriminate | discriminate | intros _; reflexivity
    | intros _; reflexivity | reflexivity | discriminate |].
  exists x_t, signal_t. split; [exact Hget | split; [exact Hlen |]].
  destruct (get_signal_stages _ _ _ _ _ _ _ _ _ _ _ Hget)
    as (_ & _ & _ & _ & _ & _ & _ & -> & _).
  unfold np_arange. rewrite length_map, length_seq.
  vm_compute; reflexivity.
Qed.

(** ** Malformed control points *)

Lemma malformed_get_signal (rng : nat -> R) (freqs responses : list Q)
    (nyquist sampling_rate duration : pynum) (lb_type ub_type : string) (eps : Q) :
  length freqs <> length responses \/ freqs = [] ->
  exists e,
    get_signal rng freqs responses nyquist sampling_rate duration lb_type ub_type eps
      = Raise e /\
    (extend_boundaries freqs responses nyquist lb_type ub_type eps = Raise e \/
     e = ValueError).
Proof.
  intros H. unfold get_signal.
  destruct (extend_boundaries freqs responses nyquist lb_type ub_type eps)
    as [[fe re] | e] eqn:E.
  - destruct (extend_boundaries_shape _ _ _ _ _ _ _ _ E)
      as (Hne & ef & er & Hfe & Hre & L & _ & _).
    destruct H as [H | H]; [| contradiction].
    exists ValueError; split; [| right; reflexivity].
    cbn [bind]. unfold sample_response, interp1d.
    assert (Hl : (length fe =? length re)%nat = false).
    { apply Nat.eqb_neq. rewrite Hfe, Hre, !length_app. lia. }
    rewrite Hl; reflexivity.
  - exists e; split; [reflexivity | left; reflexivity].
Qed.

(** X5.  With fewer or more responses than frequencies, or with no control
    point at all, [get_signal] raises, and [generate_white_noise] raises
    before anything is written. *)
Theorem malformed_control_points_raise (rng : nat -> R) (outfile_path : string)
    (freqs responses : list Q) (nyquist sampling_rate : option pynum)
    (duration : pynum) (lb_type ub_type : string) (eps : Q) :
  length freqs <> length responses \/ freqs = [] ->
  (forall nyq sr,
     exists e,
       get_signal rng freqs responses nyq sr duration lb_type ub_type eps = Raise e /\
       (extend_boundaries freqs responses nyq lb_type ub_type eps = Raise e \/
        e = ValueError)) /\
  exists e,
    generate_white_noise rng outfile_path freqs responses nyquist sampling_rate
      duration lb_type ub_type eps = Raise e.
Proof.
  intros H. split.
  - intros nyq sr. apply malformed_get_signal; exact H.
  - unfold generate_white_noise.
    destruct (resolve_rates freqs nyquist sampling_rate) as [[nyq sr] | e] eqn:E.
    + destruct (malformed_get_signal rng freqs responses nyq sr duration
                  lb_type ub_type eps H) as (e & He & _).
      exists e. cbn [bind]. rewrite He; reflexivity.
    + exists e; reflexivity.
Qed.

Lemma malformed_control_points_raise_witness :
  (length [1%Q; 2%Q] <> length [1%Q] \/ [1%Q; 2%Q] = []) /\
  exists e,
    generate_white_noise rng_zero "out.wav" [1%Q; 2%Q] [1%Q] (Some 4%py) None 1
      "linear" "linear" default_eps = Raise e.
Proof.
  assert (H : length [1%Q; 2%Q] <> length [1%Q] \/ [1%Q; 2%Q] = [])
    by (left; discriminate).
  split; [exact H |].
  exact (proj2 (malformed_control_points_raise rng_zero "out.wav" [1%Q; 2%Q] [1%Q]
                  (Some 4%py) None 1 "linear" "linear" default_eps H)).
Defined.

(** ** The interpolated response above the highest control frequency *)

Section SortedTail.
Local Open Scope Q_scope.






End SortedTail.

Section HighBoundaryResponse.
Local Open Scope Q_scope.

Variables (freqs responses : list Q) (nyquist eps : Q).
Variables (i j : nat) (m M r_m r_M : Q) (pl pu : BoundaryPolicy).
Hypothesis Hmin : is_first_min freqs i m.
Hypothesis Hmax : is_first_max freqs j M.
Hypothesis Hunique :
  forall k f, k <> j -> nth_error freqs k = Some f -> f < M.
Hypothesis HrM : nth_error responses j = Some r_M.
Hypothesis Heps : 0 < eps.
Hypothesis HM : M + eps < nyquist.

Let cf : list point := combine freqs responses.
Let low : list point := if Qltb 0 m then spec_low_points pl m r_m eps else [].
Let high : list point := spec_high_points pu M r_M nyquist eps.


End HighBoundaryResponse.



(** ** The signal as a sum of cosines *)

Section CosineSynthesis.
Local Open Scope R_scope.

Lemma Re_weighted_sum_app (w : nat -> C) (k : nat) (l1 l2 : list C) :
  Re (weighted_sum w k (l1 ++ l2))
  = Re (weighted_sum w k l1) + Re (weighted_sum w (k + length l1) l2).
Proof.
  revert k; induction l1 as [| z l1 IH]; intros k; simpl.
  - rewrite Nat.add_0_r; lra.
  - rewrite IH. replace (S k + length l1)%nat with (k + S (length l1))%nat by lia.
    lra.
Qed.

(** A bin and its conjugate, weighted by conjugate factors, have the same
    real part. *)
Lemma Re_conjugate_pair (z u : C) :
  Re (Cmul (Cconj z) (Cconj u)) = Re (Cmul z u).
Proof. destruct z, u; simpl; lra. Qed.

Lemma Re_weighted_sum_mirrored (w : nat -> C) (M : list C) (k1 k2 : nat) :
  (forall i, (i < length M)%nat ->
             w (k2 + (length M - 1 - i))%nat = Cconj (w (k1 + i)%nat)) ->
  Re (weighted_sum w k2 (map Cconj (rev M))) = Re (weighted_sum w k1 M).
Proof.
  revert k1; induction M as [| z M IH]; intros k1 Hw.
  - reflexivity.
  - cbn [rev weighted_sum]. rewrite map_app, Re_weighted_sum_app.
    rewrite length_map, length_rev. cbn [map weighted_sum].
    specialize (IH (S k1)).
    assert (Hstep : forall i, (i < length M)%nat ->
               w (k2 + (length M - 1 - i))%nat = Cconj (w (S k1 + i)%nat)).
    { intros i Hi. specialize (Hw (S i)). simpl length in Hw.
      replace (k1 + S i)%nat with (S k1 + i)%nat in Hw by lia.
      rewrite <- Hw by lia. f_equal; lia. }
    specialize (IH Hstep).
    assert (H0 : w (k2 + length M)%nat = Cconj (w k1)).
    { specialize (Hw O). simpl length in Hw.
      rewrite Nat.add_0_r in Hw. rewrite <- Hw by lia. f_equal; lia. }
    rewrite H0, IH.
    pose proof (Re_conjugate_pair z (w k1)) as Hpair.
    unfold Cadd. cbn [Re fst] in *.
    lra.
Qed.

(** The real part of the inverse transform of a mirrored spectrum: the
    two bins without a mirrored copy count once, the others twice. *)
Lemma ifft_mirror_real (a b : C) (M : list C) (t : nat) :
  (t < 2 * length M + 2)%nat ->
  Re (nth t (ifft (mirror (a :: M ++ [b]))) (0, 0))
  = (Re a + (-1) ^ t * Re b
     + 2 * Re (weighted_sum (twiddle (2 * length M + 2) t) 1 M))
    / INR (2 * length M + 2).
Proof.
  intros Ht.
  assert (Hlen : length (mirror (a :: M ++ [b])) = (2 * length M + 2)%nat).
  { rewrite mirror_length. simpl length. rewrite length_app. simpl. lia. }
  rewrite nth_ifft by (rewrite Hlen; exact Ht).
  rewrite Hlen. set (N := (2 * length M + 2)%nat) in *.
  unfold mirror. rewrite interior_reversed_middle.
  unfold Cscale; cbn [Re fst].
  change (a :: M ++ [b]) with ([a] ++ M ++ [b]).
  rewrite <- !app_assoc, !Re_weighted_sum_app.
  cbn [length weighted_sum Nat.add].
  rewrite twiddle_zero.
  replace (1 + length M)%nat with (S (length M)) by lia.
  assert (HN : N = (2 * S (length M))%nat) by (unfold N; lia).
  rewrite HN.
  rewrite twiddle_half by lia.
  rewrite (Re_weighted_sum_mirrored (twiddle (2 * S (length M)) t) M 1
             (S (length M + 1)))
    by (intros i Hi; apply twiddle_conjugate; lia).
  unfold Cadd, Cmul; cbn [Re Im fst snd].
  unfold Rdiv; ring.
Qed.

Lemma spectral_samples_length_from (rng : nat -> R) (y : list Q) (s : nat) :
  length (spectral_samples y (map rng (seq s (length y)))) = length y.
Proof.
  revert s; induction y as [| a y IH]; intros s; simpl; [reflexivity |].
  f_equal; apply IH.
Qed.

Lemma spectral_samples_app (rng : nat -> R) (l1 l2 : list Q) (s : nat) :
  spectral_samples (l1 ++ l2) (map rng (seq s (length (l1 ++ l2))))
  = spectral_samples l1 (map rng (seq s (length l1)))
    ++ spectral_samples l2 (map rng (seq (s + length l1) (length l2))).
Proof.
  revert s; induction l1 as [| a l1 IH]; intros s.
  - cbn [app length]. rewrite Nat.add_0_r. reflexivity.
  - cbn [app length seq map spectral_samples]. rewrite IH.
    replace (S s + length l1)%nat with (s + S (length l1))%nat by lia.
    reflexivity.
Qed.

(** The weighted sum over bins of magnitude [l] and phases [rng] is, in
    its real part, a sum of cosines. *)
Lemma Re_weighted_sum_spectral (rng : nat -> R) (N t : nat) (l : list Q) (k : nat) :
  Re (weighted_sum (twiddle N t) k
        (spectral_samples l (map rng (seq k (length l)))))
  = cosine_sum rng N t k l.
Proof.
  revert k; induction l as [| a l IH]; intros k; [reflexivity |].
  cbn [length seq map spectral_samples weighted_sum cosine_sum].
  unfold Cadd at 1. cbn [Re fst]. rewrite IH.
  unfold twiddle, cis, Cscale, Cmul; cbn [Re Im fst snd].
  rewrite cos_plus. ring.
Qed.

End CosineSynthesis.

Lemma signal_cosine_formula (rng : nat -> R) (y : list Q) (t : nat) :
  let n := length y in
  let N := (2 * n - 2)%nat in
  (2 <= n)%nat -> (t < N)%nat ->
  nth t (map Re (ifft (full_spectrum rng y))) 0%R
  = ((Q2R (nth 0 y 0%Q) * cos (rng 0%nat)
      + (-1) ^ t * (Q2R (nth (n - 1) y 0%Q) * cos (rng (n - 1)%nat))
      + 2 * cosine_sum rng N t 1 (tl (removelast y))) / INR N)%R.
Proof.
  intros n N Hn Ht.
  destruct (list_ends y 0%Q Hn) as (mid & Hy & Hmid).
  fold n in Hy, Hmid.
  set (a := nth 0 y 0%Q) in *. set (b := nth (n - 1) y 0%Q) in *.
  assert (Hint : tl (removelast y) = mid).
  { rewrite Hy. change (a :: mid ++ [b]) with ((a :: mid) ++ [b]).
    rewrite removelast_last. reflexivity. }
  rewrite Hint.
  assert (Hspec : spectral_samples y (map rng (seq 0 (length y)))
                  = Cscale (Q2R a) (cis (rng 0%nat))
                    :: spectral_samples mid (map rng (seq 1 (length mid)))
                    ++ [Cscale (Q2R b) (cis (rng (n - 1)%nat))]).
  { rewrite Hy at 1 2. cbn [length seq map spectral_samples]. f_equal.
    rewrite spectral_samples_app. f_equal.
    cbn [length seq map spectral_samples].
    replace (1 + length mid)%nat with (n - 1)%nat by lia. reflexivity. }
  change (nth t (map Re (ifft (full_spectrum rng y))) 0%R)
    with (nth t (map Re (ifft (full_spectrum rng y))) (Re (0, 0)%R)).
  rewrite map_nth. unfold full_spectrum. rewrite Hspec.
  assert (Hlen : length (spectral_samples mid (map rng (seq 1 (length mid))))
                 = length mid) by apply spectral_samples_length_from.
  rewrite ifft_mirror_real by (rewrite Hlen; lia).
  rewrite Hlen.
  replace (2 * length mid + 2)%nat with N by (unfold N; lia).
  rewrite Re_weighted_sum_spectral.
  unfold Cscale, cis; cbn [Re fst]. reflexivity.
Qed.

(** X7.  Sample [t] of the signal that [get_signal] returns, for
    [duration*nyquist] a positive integer [p]: with [y] the magnitudes of
    the [p + 1] bins and [N = 2p] samples, the 0 Hz and the nyquist bin
    contribute [y[0]*cos(phase[0])] and [(-1)^t * y[p]*cos(phase[p])],
    every bin [k] in between contributes [2*y[k]*cos(phase[k] +
    2*pi*k*t/N)], and the sample is the sum of these divided by [N]. *)
Theorem signal_is_sum_of_cosines (rng : nat -> R) (freqs responses : list Q)
    (nyquist sampling_rate duration : pynum) (lb_type ub_type : string) (eps : Q)
    (x_t : list Q) (signal_t : list R) (p : positive) :
  get_signal rng freqs responses nyquist sampling_rate duration lb_type ub_type eps
    = Ok (x_t, signal_t) ->
  (duration * nyquist == inject_Z (Zpos p))%Q ->
  let n := Pos.to_nat p in
  exists fe re x_f y,
    extend_boundaries freqs responses nyquist lb_type ub_type eps = Ok (fe, re) /\
    sample_response fe re nyquist duration = Ok (x_f, y) /\
    length y = (n + 1)%nat /\
    forall t, (t < 2 * n)%nat ->
      nth t signal_t 0%R
      = ((Q2R (nth 0 y 0%Q) * cos (rng 0%nat)
          + (-1) ^ t * (Q2R (nth n y 0%Q) * cos (rng n))
          + 2 * cosine_sum rng (2 * n) t 1 (tl (removelast y))) / INR (2 * n))%R.
Proof.
  intros Hget Hp n.
  destruct (get_signal_stages _ _ _ _ _ _ _ _ _ _ _ Hget)
    as (fe & re & x_f & y & Hext & Hsamp & _ & _ & Hsig & _).
  assert (Hn : (duration * nyquist + 1 == inject_Z (Zpos p + 1))%Q).
  { rewrite Hp, inject_Z_plus; reflexivity. }
  destruct (sample_response_length _ _ _ _ _ _ _ Hsamp Hn ltac:(lia)) as [_ Ly].
  assert (Hy : length y = (n + 1)%nat) by (unfold n; lia).
  exists fe, re, x_f, y.
  split; [exact Hext | split; [exact Hsamp | split; [exact Hy |]]].
  intros t Ht. rewrite Hsig.
  rewrite signal_cosine_formula by (rewrite Hy; lia).
  rewrite Hy.
  replace (2 * (n + 1) - 2)%nat with (2 * n)%nat by lia.
  replace (n + 1 - 1)%nat with n by lia.
  reflexivity.
Qed.

Lemma signal_is_sum_of_cosines_witness :
  exists x_t signal_t y,
    get_signal rng_zero [1%Q] [1%Q] 2 4 1 "flat" "flat" default_eps
      = Ok (x_t, signal_t) /\
    (1 * 2 == inject_Z 2)%Q /\
    length y = 3%nat /\
    nth 1 signal_t 0%R
    = ((Q2R (nth 0 y 0%Q) * cos (rng_zero 0%nat)
        + (-1) ^ 1 * (Q2R (nth 2 y 0%Q) * cos (rng_zero 2%nat))
        + 2 * cosine_sum rng_zero 4 1 1 (tl (removelast y))) / INR 4)%R.
Proof.
  destruct flat_example_run as (x_f0 & y0 & _ & _ & _ & Hrun).
  assert (H2 : (1 * 2 == inject_Z 2)%Q) by reflexivity.
  destruct (signal_is_sum_of_cosines rng_zero [1%Q] [1%Q] 2 4 1 "flat" "flat"
              default_eps _ _ 2%positive Hrun H2)
    as (fe & re & x_f & y & _ & _ & Hy & Hsum).
  exists (np_arange 0 1 (fl (1 / 4))), (map Re (ifft (full_spectrum rng_zero y0))), y.
  split; [exact Hrun | split; [exact H2 | split; [exact Hy |]]].
  apply (Hsum 1%nat). simpl; lia.
Defined.

(** ** [eps] is not validated *)

(** The extended lists and the interpolant built from them. *)
Lemma extended_interpolant
    (freqs responses : list Q) (nyquist : Q) (lb_type ub_type : string) (eps : Q)
    (i j : nat) (m M r_m r_M : Q) (pl pu : BoundaryPolicy) :
  is_first_min freqs i m ->
  is_first_max freqs j M ->
  length responses = length freqs ->
  nth_error responses i = Some r_m ->
  nth_error responses j = Some r_M ->
  (0 <= eps)%Q -> (0 <= m)%Q -> (M <= nyquist)%Q ->
  ((0 < m)%Q -> policy_of lb_type = Some pl) ->
  ((M < nyquist)%Q -> policy_of ub_type = Some pu) ->
  let low := if Qltb 0 m then spec_low_points pl m r_m eps else [] in
  let high := if Qltb M nyquist then spec_high_points pu M r_M nyquist eps else [] in
  exists fe re,
    extend_boundaries freqs responses nyquist lb_type ub_type eps = Ok (fe, re) /\
    combine fe re = combine freqs responses ++ low ++ high /\
    interp1d fe re = Ok (sort_points (combine freqs responses ++ low ++ high)).
Proof.
  intros Hmin Hmax Hlen Hrm HrM Heps Hm HM Hpl Hpu low high.
  pose proof (extend_boundaries_result _ _ nyquist lb_type ub_type eps _ _ _ _ _ _
                pl pu Hmin Hmax Hrm HrM Heps Hm HM Hpl Hpu) as Hext.
  cbv zeta in Hext. fold low high in Hext.
  set (fe := freqs ++ map fst low ++ map fst high) in *.
  set (re := responses ++ map snd low ++ map snd high) in *.
  assert (Hcomb : combine fe re = combine freqs responses ++ low ++ high).
  { unfold fe, re. rewrite combine_app_same by (symmetry; exact Hlen).
    rewrite combine_app_same by (rewrite !length_map; reflexivity).
    rewrite !combine_fst_snd; reflexivity. }
  exists fe, re. split; [exact Hext | split; [exact Hcomb |]].
  unfold interp1d.
  assert (L1 : length fe = length re).
  { unfold fe, re; rewrite !length_app, !length_map, Hlen; reflexivity. }
  assert (L2 : (1 <= length fe)%nat).
  { unfold fe; rewrite !length_app.
    destruct (is_first_min_nonempty _ _ _ Hmin) as (x & r & ->); simpl; lia. }
  rewrite L1, Nat.eqb_refl; cbn [negb].
  destruct (Nat.ltb_spec (length re) 1); [lia |].
  rewrite Hcomb; reflexivity.
Qed.

(** X8.  Under the zero low policy with [eps] greater than the lowest
    control frequency [m > 0], the extender appends the negative frequency
    [m - eps] and raises nothing; the interpolant then joins [(0, 0)] to
    [(m, r_m)] by a line, as under the linear policy: the response at [q]
    is [r_m/m * q] for [q] in [[0, m)], and at [m] as well when no other
    control point lies at [m]. *)
Theorem zero_policy_large_eps_is_linear
    (freqs responses : list Q) (nyquist : Q) (ub_type : string) (eps : Q)
    (i j : nat) (m M r_m r_M : Q) (pu : BoundaryPolicy) :
  is_first_min freqs i m ->
  is_first_max freqs j M ->
  length responses = length freqs ->
  nth_error responses i = Some r_m ->
  nth_error responses j = Some r_M ->
  (0 < m)%Q -> (m < eps)%Q -> (M <= nyquist)%Q ->
  ((M < nyquist)%Q -> policy_of ub_type = Some pu) ->
  exists fe re freq_func,
    extend_boundaries freqs responses nyquist "zero" ub_type eps = Ok (fe, re) /\
    In (m - eps)%Q fe /\ (m - eps < 0)%Q /\
    interp1d fe re = Ok freq_func /\
    forall q, (0 <= q)%Q -> (q <= m)%Q ->
      (q < m)%Q \/ occurs_once freqs i m ->
      responds freq_func q (r_m / m * q).
Proof.
  intros Hmin Hmax Hlen Hrm HrM Hm Heps HM Hpu.
  pose proof (is_first_min_le_max _ _ _ _ _ Hmin Hmax) as HmM.
  assert (E0 : Qltb 0 m = true) by (apply Qltb_lt; exact Hm).
  destruct (extended_interpolant freqs responses nyquist "zero" ub_type eps
              i j m M r_m r_M Zero pu Hmin Hmax Hlen Hrm HrM
              ltac:(lra) ltac:(lra) HM (fun _ => eq_refl) Hpu)
    as (fe & re & Hext & Hcomb & Hinterp).
  rewrite E0 in Hcomb, Hinterp. cbn [spec_low_points app] in Hcomb, Hinterp.
  set (cf := combine freqs responses) in *.
  set (high := if Qltb M nyquist then spec_high_points pu M r_M nyquist eps else [])
    in *.
  assert (Hcf : forall q, In q cf -> (m <= fst q)%Q).
  { intros [x y] Hq. apply in_combine_l in Hq.
    destruct Hmin as (_ & Hall & _). apply Hall; exact Hq. }
  assert (Hhigh : forall q, In q high -> (m < fst q)%Q).
  { unfold high. destruct (Qltb M nyquist) eqn:EM; [| intros q []].
    apply Qltb_lt in EM.
    destruct pu; cbn [spec_high_points In].
    - intros q [<- | [<- | []]]; cbn [fst]; lra.
    - intros q [<- | []]; cbn [fst]; lra.
    - intros q [<- | []]; cbn [fst]; lra. }
  assert (Hcfm : nth_error cf i = Some (m, r_m)).
  { apply nth_error_combine; [| exact Hrm]. destruct Hmin as (Hn & _); exact Hn. }
  assert (Hi : (i < length cf)%nat).
  { apply nth_error_Some. rewrite Hcfm; discriminate. }
  destruct (sort_points_head (cf ++ high) i (m, r_m)) as (tl & Htl & Hrest).
  { rewrite nth_error_app1; [exact Hcfm | exact Hi]. }
  { intros q Hq. cbn [fst]. apply in_app_or in Hq as [Hq | Hq];
      [exact (Hcf q Hq) | apply Qlt_le_weak; exact (Hhigh q Hq)]. }
  { intros k q Hk Hq. cbn [fst].
    rewrite nth_error_app1 in Hq by lia.
    apply nth_error_combine_inv in Hq as [Hq _].
    destruct Hmin as (_ & _ & Hb). exact (Hb k (fst q) Hk Hq). }
  assert (Hafter : occurs_once freqs i m -> forall p, In p tl -> (m < fst p)%Q).
  { intros Honce p Hp. destruct (Hrest p Hp) as (k & Hk & Hnth).
    destruct (Nat.lt_ge_cases k (length cf)) as [Hlt | Hge].
    - rewrite nth_error_app1 in Hnth by exact Hlt.
      pose proof (Hcf p (nth_error_In _ _ Hnth)) as Hle.
      apply nth_error_combine_inv in Hnth as [Hnth _].
      pose proof (Honce k (fst p) Hk Hnth) as Hne.
      apply Qnot_le_lt. intros Hge. apply Hne. apply Qle_antisym; assumption.
    - rewrite nth_error_app2 in Hnth by exact Hge.
      exact (Hhigh p (nth_error_In _ _ Hnth)). }
  assert (Hsort : sort_points (cf ++ ((m - eps)%Q, 0%Q) :: (0%Q, 0%Q) :: high)
                  = ((m - eps)%Q, 0%Q) :: (0%Q, 0%Q) :: (m, r_m) :: tl).
  { rewrite sort_points_min_front; cbn [fst].
    - f_equal. rewrite sort_points_min_front; cbn [fst].
      + rewrite Htl; reflexivity.
      + intros q Hq. specialize (Hcf q Hq). lra.
      + intros q Hq. specialize (Hhigh q Hq). lra.
    - intros q Hq. specialize (Hcf q Hq). lra.
    - intros q [<- | Hq]; [cbn [fst]; lra | specialize (Hhigh q Hq); lra]. }
  pose proof (sort_points_sorted (cf ++ ((m - eps)%Q, 0%Q) :: (0%Q, 0%Q) :: high))
    as Hsorted.
  rewrite Hsort in Hinterp, Hsorted.
  exists fe, re, (((m - eps)%Q, 0%Q) :: (0%Q, 0%Q) :: (m, r_m) :: tl).
  split; [exact Hext |].
  split.
  { assert (Hin : In ((m - eps)%Q, 0%Q) (combine fe re)).
    { rewrite Hcomb. apply in_or_app; right; left; reflexivity. }
    exact (in_combine_l _ _ _ _ Hin). }
  split; [lra | split; [exact Hinterp |]].
  intros q Hq0 Hq1 Hcase.
  destruct (Qlt_le_dec q m) as [Hlt | Hge].
  - destruct (interp_at_segment [((m - eps)%Q, 0%Q)] tl (0%Q, 0%Q) (m, r_m) q
                Hsorted Hq0 Hlt) as (v & Hv & Ev).
    exists v; split; [exact Hv |]. rewrite Ev.
    unfold line_through; cbn [fst snd]. field. lra.
  - destruct Hcase as [Hlt | Honce]; [lra |].
    assert (Hq : (q == m)%Q) by lra.
    destruct (interp_at_point [((m - eps)%Q, 0%Q); (0%Q, 0%Q)] tl (m, r_m) q
                Hsorted (Hafter Honce) Hq) as (v & Hv & Ev).
    exists v; split; [exact Hv |]. rewrite Ev, Hq. cbn [snd]. field. lra.
Qed.

Lemma zero_policy_large_eps_is_linear_witness :
  is_first_min [1%Q] 0 1%Q /\
  (0 < 1)%Q /\ (1 < 2)%Q /\
  exists fe re freq_func,
    extend_boundaries [1%Q] [1%Q] 4 "zero" "linear" 2 = Ok (fe, re) /\
    In (1 - 2)%Q fe /\
    interp1d fe re = Ok freq_func /\
    responds freq_func (1 # 2) (1 / 1 * (1 # 2)).
Proof.
  assert (Hmin : is_first_min [1%Q] 0 1%Q) by exact (first_min_correct 1%Q []).
  assert (Hmax : is_first_max [1%Q] 0 1%Q) by exact (first_max_correct 1%Q []).
  assert (H1 : (0 < 1)%Q) by reflexivity.
  assert (H2 : (1 < 2)%Q) by reflexivity.
  assert (H3 : (1 <= 4)%Q) by discriminate.
  split; [exact Hmin | split; [exact H1 | split; [exact H2 |]]].
  destruct (zero_policy_large_eps_is_linear [1%Q] [1%Q] 4 "linear" 2
              0 0 1%Q 1%Q 1%Q 1%Q Linear
              Hmin Hmax eq_refl eq_refl eq_refl H1 H2 H3 (fun _ => eq_refl))
    as (fe & re & f & He & Hin & _ & Hi & Hline).
  exists fe, re, f.
  split; [exact He | split; [exact Hin | split; [exact Hi |]]].
  apply Hline; [discriminate | discriminate | left; reflexivity].
Defined.

(** ** A single control point under the zero policies *)

Section SingleBin.
Local Open Scope Q_scope.

Variables (f0 r nyquist eps : Q).
Hypothesis Heps : 0 < eps.
Hypothesis Hlow : eps < f0.
Hypothesis Hhigh : f0 + eps < nyquist.






End SingleBin.

Section SingleCosine.
Local Open Scope R_scope.


End SingleCosine.



Section SingleBinSignal.
Local Open Scope Q_scope.

Variables (f0 r eps : Q) (nyquist duration : pynum) (p : positive) (k0 : nat).
Hypothesis Heps : 0 < eps.
Hypothesis Hlow : eps < f0.
Hypothesis Hhigh : f0 + eps < nyquist.
Hypothesis Hdur : duration * nyquist == inject_Z (Zpos p).
Hypothesis Hbin : f0 == inject_Z (Z.of_nat k0) / duration.
Hypothesis Hgrid : eps * duration < 1.





End SingleBinSignal.



(** ** The example script *)

Lemma run_examples_ok (good : example -> wav -> Prop) (rngs : nat -> nat -> R)
    (l : list example) (k : nat) :
  Forall (fun c => forall rng, exists w, run_example rng c = Ok w /\ good c w) l ->
  exists ws, run_examples rngs k l = Ok ws /\ Forall2 good l ws.
Proof.
  intros H; revert k; induction H as [| c l Hc _ IH]; intros k.
  - exists []; split; [reflexivity | constructor].
  - destruct (Hc (rngs k)) as (w & Hw & Hg).
    destruct (IH (S k)) as (ws & Hws & Hall).
    exists (w :: ws). split; [| constructor; assumption].
    cbn [run_examples]. rewrite Hw; cbn [bind]. rewrite Hws; reflexivity.
Qed.

(** A call of the script with frequencies inside [(0, 8000)] or a single
    one at 0 Hz writes ten seconds at 16 kHz. *)
Lemma run_example_ok (rng : nat -> R) (c : example)
    (i j : nat) (m M : Q) (pl pu : BoundaryPolicy) :
  is_first_min (ex_freqs c) i m ->
  is_first_max (ex_freqs c) j M ->
  length (ex_responses c) = length (ex_freqs c) ->
  (0 <= m)%Q -> (M <= 8000)%Q ->
  ((0 < m)%Q -> policy_of (ex_lb_type c) = Some pl) ->
  ((M < 8000)%Q -> policy_of (ex_ub_type c) = Some pu) ->
  exists w,
    run_example rng c = Ok w /\
    wav_path w = ex_path c /\
    (wav_rate w == 16000)%Q /\
    Z.of_nat (length (wav_data w)) = 160000%Z.
Proof.
  intros Hmin Hmax Hlen Hm HM Hpl Hpu.
  assert (Hres : resolve_rates (ex_freqs c) (Some 8000%py) None
                 = Ok (8000%py, 16000%py)).
  { unfold resolve_rates.
    change (truthy (Some 8000%py)) with true. change (truthy None) with false.
    cbn [negb andb number].
    rewrite (py_max_first_max _ _ _ Hmax); cbn [bind].
    assert (E : Qltb (value 8000) M = false) by (apply Qltb_ge; exact HM).
    rewrite E. reflexivity. }
  destruct (generate_white_noise_returns rng (ex_path c) (ex_freqs c)
              (ex_responses c) (Some 8000%py) None default_duration
              (ex_lb_type c) (ex_ub_type c) default_eps 8000 16000 i j m M
              pl pu 80000%positive Hres ltac:(discriminate) Hmin Hmax Hlen Hm HM
              ltac:(discriminate) Hpl Hpu ltac:(reflexivity))
    as (w & Hw & Hpath & Hrate & Hn).
  exists w. split; [exact Hw | split; [exact Hpath | split]].
  - rewrite Hrate. reflexivity.
  - rewrite Hn, Nat2Z.inj_mul, positive_nat_Z. reflexivity.
Qed.

(** X10.  The script raises nothing: each of its eight calls writes a
    file, at the path given, of 160000 samples at the rate 16000. *)
Theorem examples_are_written (rngs : nat -> nat -> R) :
  exists ws,
    examples_main rngs = Ok ws /\
    map wav_path ws = map ex_path examples /\
    Forall (fun w => (wav_rate w == 16000)%Q /\
                     Z.of_nat (length (wav_data w)) = 160000%Z) ws.
Proof.
  set (good := fun (c : example) (w : wav) =>
                 wav_path w = ex_path c /\
                 (wav_rate w == 16000)%Q /\
                 Z.of_nat (length (wav_data w)) = 160000%Z).
  destruct (run_examples_ok good rngs examples 0) as (ws & Hws & Hall).
  { unfold examples. repeat constructor; intros rng.
    - apply (run_example_ok rng _ 0 0 4000 4000 Flat Flat);
        cbn [ex_freqs ex_responses ex_lb_type ex_ub_type].
      + exact (first_min_correct 4000 []).
      + exact (first_max_correct 4000 []).
      + reflexivity.
      + discriminate.
      + discriminate.
      + intros _; reflexivity.
      + intros _; reflexivity.
    - apply (run_example_ok rng _ 0 1 2000 6000 Zero Zero);
        cbn [ex_freqs ex_responses ex_lb_type ex_ub_type].
      + exact (first_min_correct 2000 [6000%Q]).
      + exact (first_max_correct 2000 [6000%Q]).
      + reflexivity.
      + discriminate.
      + discriminate.
      + intros _; reflexivity.
      + intros _; reflexivity.
    - apply (run_example_ok rng _ 0 1 2000 6000 Linear Linear);
        cbn [ex_freqs ex_responses ex_lb_type ex_ub_type].
      + exact (first_min_correct 2000 [6000%Q]).
      + exact (first_max_correct 2000 [6000%Q]).
      + reflexivity.
      + discriminate.
      + discriminate.
      + intros _; reflexivity.
      + intros _; reflexivity.
    - apply (run_example_ok rng _ 0 0 4000 4000 Linear Linear);
        cbn [ex_freqs ex_responses ex_lb_type ex_ub_type].
      + exact (first_min_correct 4000 []).
      + exact (first_max_correct 4000 []).
      + reflexivity.
      + discriminate.
      + discriminate.
      + intros _; reflexivity.
      + intros _; reflexivity.
    - apply (run_example_ok rng _ 0 2 2000 6000 Linear Linear);
        cbn [ex_freqs ex_responses ex_lb_type ex_ub_type].
      + exact (first_min_correct 2000 [4000%Q; 6000%Q]).
      + exact (first_max_correct 2000 [4000%Q; 6000%Q]).
      + reflexivity.
      + discriminate.
      + discriminate.
      + intros _; reflexivity.
      + intros _; reflexivity.
    - apply (run_example_ok rng _ 0 0 0 0 Linear Linear);
        cbn [ex_freqs ex_responses ex_lb_type ex_ub_type].
      + exact (first_min_correct 0 []).
      + exact (first_max_correct 0 []).
      + reflexivity.
      + discriminate.
      + discriminate.
      + intros _; reflexivity.
      + intros _; reflexivity.
    - apply (run_example_ok rng _ 0 0 2000 2000 Zero Linear);
        cbn [ex_freqs ex_responses ex_lb_type ex_ub_type].
      + exact (first_min_correct 2000 []).
      + exact (first_max_correct 2000 []).
      + reflexivity.
      + discriminate.
      + discriminate.
      + intros _; reflexivity.
      + intros _; reflexivity.
    - apply (run_example_ok rng _ 0 0 4000 4000 Zero Zero);
        cbn [ex_freqs ex_responses ex_lb_type ex_ub_type].
      + exact (first_min_correct 4000 []).
      + exact (first_max_correct 4000 []).
      + reflexivity.
      + discriminate.
      + discriminate.
      + intros _; reflexivity.
      + intros _; reflexivity. }
  exists ws. split; [exact Hws | split].
  - clear Hws. induction Hall as [| c w l ws' (Hp & _) _ IH]; [reflexivity |].
    cbn [map]. rewrite Hp, IH. reflexivity.
  - clear Hws. induction Hall as [| c w l ws' (_ & Hg) _ IH]; constructor;
      assumption.
Qed.

(** ** The magnitudes of the spectrum *)

Section SpectrumMagnitudes.
Local Open Scope R_scope.

Lemma Cabs_scaled_cis (a phase : R) : Cabs (Cscale a (cis phase)) = Rabs a.
Proof.
  unfold Cabs, Cscale, cis; cbn [Re Im fst snd].
  replace (a * cos phase * (a * cos phase) + a * sin phase * (a * sin phase))
    with (Rsqr a * (Rsqr (sin phase) + Rsqr (cos phase)))
    by (unfold Rsqr; ring).
  rewrite sin2_cos2, Rmult_1_r. apply sqrt_Rsqr_abs.
Qed.

Lemma Cabs_conj (z : C) : Cabs (Cconj z) = Cabs z.
Proof.
  unfold Cabs, Cconj; cbn [Re Im fst snd]. f_equal. ring.
Qed.

End SpectrumMagnitudes.

(** X11.  Whatever phases are drawn, the spectrum handed to [ifft] has the
    interpolated magnitudes: bin [k] of the [n] positive-frequency bins
    has modulus [|y[k]|], and so has the mirrored bin [2n - 2 - k] of an
    interior bin [k]. *)
Theorem spectrum_has_interpolated_magnitudes (rng : nat -> R) (y : list Q) (k : nat) :
  let n := length y in
  let S := full_spectrum rng y in
  (k < n)%nat ->
  Cabs (nth k S (0, 0)%R) = Rabs (Q2R (nth k y 0%Q)) /\
  ((1 <= k <= n - 2)%nat ->
   Cabs (nth (2 * n - 2 - k) S (0, 0)%R) = Rabs (Q2R (nth k y 0%Q))) /\
  ((0 <= nth k y 0)%Q -> Cabs (nth k S (0, 0)%R) = Q2R (nth k y 0%Q)).
Proof.
  intros n S Hk.
  assert (Hlen : length (spectral_samples y (map rng (seq 0 n))) = n)
    by apply spectral_samples_length.
  assert (Hlow : Cabs (nth k S (0, 0)%R) = Rabs (Q2R (nth k y 0%Q))).
  { unfold S, full_spectrum. fold n.
    rewrite mirror_nth_low by (rewrite Hlen; exact Hk).
    unfold n. rewrite nth_spectral_samples by exact Hk.
    apply Cabs_scaled_cis. }
  split; [exact Hlow | split].
  - intros Hint. unfold S, full_spectrum. fold n.
    rewrite <- Hlen at 1.
    rewrite mirror_nth_high by (rewrite Hlen; exact Hint).
    rewrite Cabs_conj.
    unfold n. rewrite nth_spectral_samples by exact Hk.
    apply Cabs_scaled_cis.
  - intros Hpos. rewrite Hlow. apply Rabs_pos_eq.
    rewrite <- RMicromega.Q2R_0. apply Qle_Rle. exact Hpos.
Qed.

Lemma spectrum_has_interpolated_magnitudes_witness :
  (1 < length [1%Q; 2%Q; 1%Q])%nat /\
  Cabs (nth 1 (full_spectrum rng_zero [1%Q; 2%Q; 1%Q]) (0, 0)%R)
  = Rabs (Q2R (nth 1 [1%Q; 2%Q; 1%Q] 0%Q)).
Proof.
  assert (H : (1 < length [1%Q; 2%Q; 1%Q])%nat) by (simpl; lia).
  split; [exact H |].
  exact (proj1 (spectrum_has_interpolated_magnitudes rng_zero [1%Q; 2%Q; 1%Q] 1 H)).
Defined.

(** ** Uniform responses under the flat policies *)

Lemma extend_low_flat_shape (freqs responses : list Q) (eps : Q) (fe re : list Q) :
  extend_low freqs responses "flat" eps = Ok (fe, re) ->
  exists ef er,
    fe = freqs ++ ef /\ re = responses ++ er /\
    length ef = length er /\
    forall y, In y er -> In y responses.
Proof.
  unfold extend_low; intros H.
  bind_inv H. bind_inv H.
  destruct (Qltb a0 0); [discriminate |].
  destruct (Qltb 0 a0).
  - cbn [String.eqb Ascii.eqb Bool.eqb] in H.
    bind_inv H. inversion H; subst.
    exists [0%Q], [a1]; repeat split.
    intros y [<- | []].
    unfold py_index in Ha1. destruct (nth_error responses a) eqn:E; [| discriminate].
    inversion Ha1; subst. exact (nth_error_In _ _ E).
  - inversion H; subst. exists [], []. rewrite !app_nil_r.
    repeat split. intros y [].
Qed.

Lemma extend_high_flat_shape (fe re : list Q) (nyquist eps : Q) (fe' re' : list Q) :
  extend_high fe re nyquist "flat" eps = Ok (fe', re') ->
  exists ef er,
    fe' = fe ++ ef /\ re' = re ++ er /\
    length ef = length er /\
    forall y, In y er -> In y re.
Proof.
  unfold extend_high; intros H.
  bind_inv H. bind_inv H.
  destruct (Qltb nyquist a0); [discriminate |].
  destruct (Qltb a0 nyquist).
  - cbn [String.eqb Ascii.eqb Bool.eqb] in H.
    bind_inv H. inversion H; subst.
    exists [nyquist], [a1]; repeat split.
    intros y [<- | []].
    unfold py_index in Ha1. destruct (nth_error re a) eqn:E; [| discriminate].
    inversion Ha1; subst. exact (nth_error_In _ _ E).
  - inversion H; subst. exists [], []. rewrite !app_nil_r.
    repeat split. intros y [].
Qed.

(** X12.  With the same response [r] at every control point and the flat
    policy on both sides, every bin has the magnitude [r]: the spectrum is
    white. *)
Theorem uniform_response_is_white (freqs responses : list Q)
    (nyquist duration : pynum) (eps r : Q) (fe re x_f y : list Q) :
  extend_boundaries freqs responses nyquist "flat" "flat" eps = Ok (fe, re) ->
  sample_response fe re nyquist duration = Ok (x_f, y) ->
  Forall (fun v => (v == r)%Q) responses ->
  Forall (fun v => (v == r)%Q) y.
Proof.
  intros Hext Hsamp Hr.
  unfold extend_boundaries in Hext.
  apply bind_ok in Hext as ([fe0 re0] & Hl & Hh).
  destruct (extend_low_flat_shape _ _ _ _ _ Hl) as (ef & er & -> & -> & L & Hy).
  destruct (extend_high_flat_shape _ _ _ _ _ _ Hh) as (ef' & er' & -> & -> & L' & Hy').
  destruct (sample_response_stages _ _ _ _ _ _ Hsamp)
    as (f & num & Hf & _ & _ & Hcall).
  destruct (interp1d_sorted _ _ _ Hf) as (Ef & Hlen & Hlen2 & Hsorted).
  rewrite Forall_forall in Hr.
  assert (Hre : forall v, In v ((responses ++ er) ++ er') -> (v == r)%Q).
  { intros v Hv. apply in_app_or in Hv as [Hv | Hv].
    - apply in_app_or in Hv as [Hv | Hv]; [exact (Hr v Hv) | exact (Hr v (Hy v Hv))].
    - specialize (Hy' v Hv). apply in_app_or in Hy' as [Hv' | Hv'];
        [exact (Hr v Hv') | exact (Hr v (Hy v Hv'))]. }
  assert (Hpts : forall p, In p f -> (r <= snd p)%Q /\ (snd p <= r)%Q).
  { intros [px py] Hp. rewrite Ef in Hp.
    apply (proj1 (sort_points_in _ _)) in Hp. apply in_combine_r in Hp.
    cbn [snd]. specialize (Hre py Hp). split; lra. }
  apply Forall_forall. intros v Hv.
  destruct (interp_call_in _ _ _ _ Hcall Hv) as (q & _ & Hq).
  destruct (interp_at_between f q v r r Hsorted Hlen2 Hpts Hq). lra.
Qed.

Lemma uniform_response_is_white_witness :
  exists x_f y,
    extend_boundaries [1%Q] [1%Q] 2 "flat" "flat" default_eps
      = Ok ([1%Q; 0%Q; 2%Q], [1%Q; 1%Q; 1%Q]) /\
    sample_response [1%Q; 0%Q; 2%Q] [1%Q; 1%Q; 1%Q] 2 1 = Ok (x_f, y) /\
    Forall (fun v => (v == 1)%Q) [1%Q] /\
    Forall (fun v => (v == 1)%Q) y.
Proof.
  destruct flat_example_run as (x_f & y & He & Hs & _ & _).
  exists x_f, y.
  assert (Hr : Forall (fun v => (v == 1)%Q) [1%Q]).
  { constructor; [reflexivity | constructor]. }
  split; [exact He | split; [exact Hs | split; [exact Hr |]]].
  exact (uniform_response_is_white [1%Q] [1%Q] 2 1 default_eps 1 _ _ _ _ He Hs Hr).
Defined.

(** ** Scaling the responses *)

Section ResponseScale.
Local Open Scope Q_scope.

Variable c : Q.

(** [b] is [c] times [a]. *)
Let scaled (a b : Q) : Prop := b == c * a.

(** Two points at the same frequency, the response of the second [c]
    times that of the first. *)
Let scaled_point (p p' : point) : Prop := fst p' = fst p /\ snd p' == c * snd p.

Lemma scaled_map (l : list Q) : Forall2 scaled l (map (Qmult c) l).
Proof.
  induction l as [| a l IH]; constructor; [reflexivity | exact IH].
Qed.

Lemma scaled_nth_error (l l' : list Q) (k : nat) (a : Q) :
  Forall2 scaled l l' -> nth_error l k = Some a ->
  exists a', nth_error l' k = Some a' /\ scaled a a'.
Proof.
  intros H; revert k; induction H as [| x x' l l' Hx _ IH]; intros k Hk.
  - destruct k; discriminate.
  - destruct k as [| k]; cbn [nth_error] in *.
    + inversion Hk; subst. exists x'; split; [reflexivity | exact Hx].
    + exact (IH k Hk).
Qed.

Lemma scaled_py_index (l l' : list Q) (k : nat) (a : Q) :
  Forall2 scaled l l' -> py_index l k = Ok a ->
  exists a', py_index l' k = Ok a' /\ scaled a a'.
Proof.
  intros H Hk. unfold py_index in *.
  destruct (nth_error l k) as [x |] eqn:E; [| discriminate].
  inversion Hk; subst x.
  destruct (scaled_nth_error l l' k a H E) as (a' & Ha' & Hs).
  exists a'. rewrite Ha'. split; [reflexivity | exact Hs].
Qed.

Lemma scaled_zero : scaled 0 0.
Proof. unfold scaled. ring. Qed.

Lemma scaled_py_index_raise (l l' : list Q) (k : nat) (e : exn) :
  Forall2 scaled l l' -> py_index l k = Raise e -> py_index l' k = Raise e.
Proof.
  intros H Hk. unfold py_index in *.
  destruct (nth_error l k) as [x |] eqn:E; [discriminate |].
  apply nth_error_None in E. rewrite (Forall2_length H) in E.
  apply nth_error_None in E. rewrite E. exact Hk.
Qed.

Lemma scaled_extend_low (freqs responses responses' : list Q) (lb_type : string)
    (eps : Q) :
  Forall2 scaled responses responses' ->
  match extend_low freqs responses lb_type eps with
  | Ok (fe, re) =>
      exists re', extend_low freqs responses' lb_type eps = Ok (fe, re') /\
                  Forall2 scaled re re'
  | Raise e => extend_low freqs responses' lb_type eps = Raise e
  end.
Proof.
  intros Hs. unfold extend_low.
  destruct (np_argmin freqs) as [idx | e0]; cbn [bind]; try reflexivity.
  destruct (py_index freqs idx) as [m | e0]; cbn [bind]; try reflexivity.
  destruct (Qltb m 0); [reflexivity |].
  destruct (Qltb 0 m).
  - destruct (String.eqb lb_type "flat").
    { destruct (py_index responses idx) as [a | e] eqn:Ha; cbn [bind].
      - destruct (scaled_py_index _ _ _ _ Hs Ha) as (a' & Ha' & Hsa).
        rewrite Ha'; cbn [bind]. eexists; split; [reflexivity |].
        apply Forall2_app; [exact Hs | constructor; [exact Hsa | constructor]].
      - rewrite (scaled_py_index_raise _ _ _ _ Hs Ha); reflexivity. }
    destruct (String.eqb lb_type "linear").
    { eexists; split; [reflexivity |].
      apply Forall2_app; [exact Hs | constructor; [exact scaled_zero | constructor]]. }
    destruct (String.eqb lb_type "zero"); [| reflexivity].
    eexists; split; [reflexivity |].
    apply Forall2_app; [exact Hs |].
    constructor; [exact scaled_zero | constructor; [exact scaled_zero | constructor]].
  - eexists; split; [reflexivity | exact Hs].
Qed.

Lemma scaled_extend_high (fe re re' : list Q) (nyquist : Q) (ub_type : string)
    (eps : Q) :
  Forall2 scaled re re' ->
  match extend_high fe re nyquist ub_type eps with
  | Ok (fe2, re2) =>
      exists re2', extend_high fe re' nyquist ub_type eps = Ok (fe2, re2') /\
                   Forall2 scaled re2 re2'
  | Raise e => extend_high fe re' nyquist ub_type eps = Raise e
  end.
Proof.
  intros Hs. unfold extend_high.
  destruct (np_argmax fe) as [idx | e0]; cbn [bind]; try reflexivity.
  destruct (py_index fe idx) as [m | e0]; cbn [bind]; try reflexivity.
  destruct (Qltb nyquist m); [reflexivity |].
  destruct (Qltb m nyquist).
  - destruct (String.eqb ub_type "flat").
    { destruct (py_index re idx) as [a | e] eqn:Ha; cbn [bind].
      - destruct (scaled_py_index _ _ _ _ Hs Ha) as (a' & Ha' & Hsa).
        rewrite Ha'; cbn [bind]. eexists; split; [reflexivity |].
        apply Forall2_app; [exact Hs | constructor; [exact Hsa | constructor]].
      - rewrite (scaled_py_index_raise _ _ _ _ Hs Ha); reflexivity. }
    destruct (String.eqb ub_type "linear").
    { eexists; split; [reflexivity |].
      apply Forall2_app; [exact Hs | constructor; [exact scaled_zero | constructor]]. }
    destruct (String.eqb ub_type "zero"); [| reflexivity].
    eexists; split; [reflexivity |].
    apply Forall2_app; [exact Hs |].
    constructor; [exact scaled_zero | constructor; [exact scaled_zero | constructor]].
  - eexists; split; [reflexivity | exact Hs].
Qed.

Lemma scaled_extend_boundaries (freqs responses responses' : list Q) (nyquist : Q)
    (lb_type ub_type : string) (eps : Q) :
  Forall2 scaled responses responses' ->
  match extend_boundaries freqs responses nyquist lb_type ub_type eps with
  | Ok (fe, re) =>
      exists re', extend_boundaries freqs responses' nyquist lb_type ub_type eps
                    = Ok (fe, re') /\
                  Forall2 scaled re re'
  | Raise e => extend_boundaries freqs responses' nyquist lb_type ub_type eps = Raise e
  end.
Proof.
  intros Hs. unfold extend_boundaries.
  pose proof (scaled_extend_low freqs responses responses' lb_type eps Hs) as Hl.
  destruct (extend_low freqs responses lb_type eps) as [[fe0 re0] | e];
    cbn [bind].
  - destruct Hl as (re0' & Hl' & Hs0). rewrite Hl'; cbn [bind].
    exact (scaled_extend_high fe0 re0 re0' nyquist ub_type eps Hs0).
  - rewrite Hl; reflexivity.
Qed.

(** *** The interpolant *)

Lemma scaled_combine (x y y' : list Q) :
  Forall2 scaled y y' -> Forall2 scaled_point (combine x y) (combine x y').
Proof.
  intros H; revert x; induction H as [| a a' y y' Ha _ IH]; intros x.
  - destruct x; constructor.
  - destruct x as [| b x]; cbn [combine]; constructor.
    + split; [reflexivity | exact Ha].
    + apply IH.
Qed.

Lemma scaled_insert_point (p p' : point) (l l' : list point) :
  scaled_point p p' -> Forall2 scaled_point l l' ->
  Forall2 scaled_point (insert_point p l) (insert_point p' l').
Proof.
  intros Hp H; induction H as [| a a' l l' Ha Hl IH]; cbn [insert_point].
  - constructor; [exact Hp | constructor].
  - destruct Hp as [Hp1 Hp2], Ha as [Ha1 Ha2]. rewrite Hp1, Ha1.
    destruct (Qle_bool (fst p) (fst a)).
    + constructor; [split; assumption |].
      constructor; [split; assumption | exact Hl].
    + constructor; [split; assumption | exact IH].
Qed.

Lemma scaled_sort_points (l l' : list point) :
  Forall2 scaled_point l l' ->
  Forall2 scaled_point (sort_points l) (sort_points l').
Proof.
  intros H; induction H as [| a a' l l' Ha _ IH]; cbn [sort_points].
  - constructor.
  - apply scaled_insert_point; assumption.
Qed.

Lemma scaled_map_fst (f f' : list point) :
  Forall2 scaled_point f f' -> map fst f' = map fst f.
Proof.
  intros H; induction H as [| a a' l l' [Ha _] _ IH]; cbn [map];
    [reflexivity | rewrite Ha, IH; reflexivity].
Qed.

Lemma scaled_nth (f f' : list point) (k : nat) :
  Forall2 scaled_point f f' -> scaled_point (nth k f (0, 0)) (nth k f' (0, 0)).
Proof.
  intros H; revert k; induction H as [| a a' l l' Ha _ IH]; intros k.
  - destruct k; cbn [nth]; (split; [reflexivity | exact scaled_zero]).
  - destruct k as [| k]; cbn [nth]; [exact Ha | apply IH].
Qed.

Lemma scaled_hd (f f' : list point) :
  Forall2 scaled_point f f' -> fst (hd (0, 0) f') = fst (hd (0, 0) f).
Proof. intros H; destruct H as [| a a' l l' [Ha _] _]; [reflexivity | exact Ha]. Qed.

Lemma scaled_last (f f' : list point) :
  Forall2 scaled_point f f' -> fst (last f' (0, 0)) = fst (last f (0, 0)).
Proof.
  intros H; induction H as [| a a' l l' [Ha _] Hl IH]; [reflexivity |].
  destruct Hl as [| b b' l l' Hb Hl]; [exact Ha | exact IH].
Qed.

Lemma scaled_out_of_bounds (f f' : list point) (q : Q) :
  Forall2 scaled_point f f' -> out_of_bounds f' q = out_of_bounds f q.
Proof.
  intros H. unfold out_of_bounds.
  rewrite (scaled_hd _ _ H), (scaled_last _ _ H). reflexivity.
Qed.

Lemma scaled_call_linear (f f' : list point) (q : Q) :
  Forall2 scaled_point f f' -> scaled (call_linear f q) (call_linear f' q).
Proof.
  intros H. unfold call_linear; cbv zeta.
  rewrite (scaled_map_fst _ _ H), <- (Forall2_length H).
  destruct (bisect_right (map fst f) q) as [| j].
  - destruct H as [| a a' l l' [_ Ha] _]; [exact scaled_zero | exact Ha].
  - destruct (scaled_nth f f' j H) as [Hl1 Hl2].
    destruct (scaled_nth f f' (S j) H) as [Hi1 Hi2].
    rewrite Hi1, Hl1.
    destruct (S j =? length f)%nat; [exact Hl2 |].
    destruct (Qeq_bool (fst (nth j f (0, 0))) q); [exact Hl2 |].
    unfold scaled. rewrite Hi2, Hl2. unfold Qdiv. ring.
Qed.

Lemma scaled_map_call_linear (f f' : list point) (qs : list Q) :
  Forall2 scaled_point f f' ->
  Forall2 scaled (map (call_linear f) qs) (map (call_linear f') qs).
Proof.
  intros H. induction qs as [| q qs IH]; cbn [map]; constructor;
    [exact (scaled_call_linear f f' q H) | exact IH].
Qed.

Lemma scaled_sample_response (fe re re' : list Q) (nyquist duration : pynum) :
  Forall2 scaled re re' ->
  match sample_response fe re nyquist duration with
  | Ok (x_f, y) => exists y', sample_response fe re' nyquist duration = Ok (x_f, y') /\
                              Forall2 scaled y y'
  | Raise e => sample_response fe re' nyquist duration = Raise e
  end.
Proof.
  intros H. unfold sample_response, interp1d.
  rewrite <- (Forall2_length H).
  destruct (negb (length fe =? length re)%nat); [reflexivity |].
  destruct (length fe <? 1)%nat; [reflexivity |].
  cbn [bind].
  destruct (as_count (py_add (py_mul duration nyquist) (PyInt 1))) as [num | e];
    cbn [bind]; [| reflexivity].
  pose proof (scaled_sort_points _ _ (scaled_combine fe re re' H)) as Hf.
  set (f := sort_points (combine fe re)) in *.
  set (f' := sort_points (combine fe re')) in *.
  set (xs := np_linspace 0 nyquist num).
  unfold interp_call.
  assert (Hb : existsb (out_of_bounds f') xs = existsb (out_of_bounds f) xs).
  { induction xs as [| x xs IH]; [reflexivity |].
    cbn [existsb]. rewrite IH, (scaled_out_of_bounds _ _ x Hf). reflexivity. }
  rewrite Hb.
  destruct (existsb (out_of_bounds f) xs); [reflexivity |].
  eexists; split; [reflexivity | exact (scaled_map_call_linear f f' xs Hf)].
Qed.

End ResponseScale.

Section SignalScale.
Local Open Scope R_scope.

Variable k : R.

Lemma removelast_map {A B : Type} (g : A -> B) (l : list A) :
  removelast (map g l) = map g (removelast l).
Proof.
  induction l as [| a l IH]; [reflexivity |].
  destruct l as [| b l]; [reflexivity |].
  cbn [map removelast] in *. rewrite IH. reflexivity.
Qed.

Lemma interior_reversed_map {A B : Type} (g : A -> B) (l : list A) :
  interior_reversed (map g l) = map g (interior_reversed l).
Proof.
  unfold interior_reversed. rewrite removelast_map.
  destruct (removelast l) as [| a r]; [reflexivity |].
  cbn [map tl]. symmetry. apply map_rev.
Qed.

Lemma Cconj_scale (z : C) : Cconj (Cscale k z) = Cscale k (Cconj z).
Proof. unfold Cconj, Cscale; cbn [Re Im fst snd]. f_equal; ring. Qed.

Lemma mirror_scale (z : list C) :
  mirror (map (Cscale k) z) = map (Cscale k) (mirror z).
Proof.
  unfold mirror. rewrite interior_reversed_map, map_app, !map_map. f_equal.
  apply map_ext. intros a. apply Cconj_scale.
Qed.

Lemma weighted_sum_scale (w : nat -> C) (s : nat) (x : list C) :
  weighted_sum w s (map (Cscale k) x) = Cscale k (weighted_sum w s x).
Proof.
  revert s; induction x as [| z x IH]; intros s; cbn [map weighted_sum].
  - unfold Cscale; cbn [Re Im fst snd]. f_equal; ring.
  - rewrite IH. unfold Cadd, Cmul, Cscale; cbn [Re Im fst snd]. f_equal; ring.
Qed.

Lemma ifft_scale (x : list C) : ifft (map (Cscale k) x) = map (Cscale k) (ifft x).
Proof.
  unfold ifft. rewrite length_map, map_map. apply map_ext. intros j.
  rewrite weighted_sum_scale. unfold Cscale; cbn [Re Im fst snd]. f_equal; ring.
Qed.

Lemma map_Re_scale (z : list C) :
  map Re (map (Cscale k) z) = map (Rmult k) (map Re z).
Proof. rewrite !map_map. apply map_ext. intros a. reflexivity. Qed.

Hypothesis Hk : 0 < k.

Lemma fold_left_Rmax_scale (l : list R) (a : R) :
  fold_left Rmax (map (Rmult k) l) (k * a) = k * fold_left Rmax l a.
Proof.
  revert a; induction l as [| b l IH]; intros a; cbn [map fold_left];
    [reflexivity |].
  rewrite RmaxRmult by lra. apply IH.
Qed.

Lemma np_div_scale (s m : R) : np_div (8 / 10 * (k * s)) (k * m) = np_div (8 / 10 * s) m.
Proof.
  unfold np_div.
  destruct (Req_dec_T m 0) as [Hm | Hm].
  - destruct (Req_dec_T (k * m) 0) as [_ | H]; [| exfalso; apply H; rewrite Hm; ring].
    destruct (Req_dec_T (8 / 10 * s) 0) as [Hs | Hs].
    + destruct (Req_dec_T (8 / 10 * (k * s)) 0) as [_ | H]; [reflexivity |].
      exfalso; apply H. assert (s = 0) by lra. subst s. ring.
    + destruct (Req_dec_T (8 / 10 * (k * s)) 0) as [H | _].
      * exfalso; apply Hs.
        assert (Hks : k * s = 0) by lra.
        apply Rmult_integral in Hks as [Hks | Hks]; [lra | rewrite Hks; ring].
      * destruct (Rlt_dec 0 (8 / 10 * s)) as [Hp | Hp],
                 (Rlt_dec 0 (8 / 10 * (k * s))) as [Hp' | Hp'];
          try reflexivity; exfalso.
        -- apply Hp'. assert (0 < s) by lra. assert (0 < k * s) by nra. lra.
        -- apply Hp. assert (0 < k * s) by lra.
           assert (0 < s) by nra. lra.
  - destruct (Req_dec_T (k * m) 0) as [H | _].
    + exfalso. apply Rmult_integral in H as [H | H]; [lra | exact (Hm H)].
    + f_equal. field. split; [exact Hm | lra].
Qed.

Lemma write_normalized_scale (outfile_path : string) (sampling_rate : Q)
    (signal : list R) :
  write_normalized outfile_path sampling_rate (map (Rmult k) signal)
  = write_normalized outfile_path sampling_rate signal.
Proof.
  unfold write_normalized.
  destruct signal as [| a l]; [reflexivity |].
  cbn [map py_max_R bind].
  assert (Ha : Rabs (k * a) = k * Rabs a).
  { rewrite Rabs_mult, (Rabs_pos_eq k) by lra. reflexivity. }
  assert (Hl : map Rabs (map (Rmult k) l) = map (Rmult k) (map Rabs l)).
  { rewrite !map_map. apply map_ext. intros b.
    rewrite Rabs_mult, (Rabs_pos_eq k) by lra. reflexivity. }
  rewrite Ha, Hl, fold_left_Rmax_scale.
  do 2 f_equal. cbn [map]. f_equal.
  - apply np_div_scale.
  - rewrite map_map. apply map_ext. intros b. apply np_div_scale.
Qed.

End SignalScale.

Lemma scaled_spectral_samples (c : Q) (y y' : list Q) (phase : list R) :
  Forall2 (fun a b => (b == c * a)%Q) y y' ->
  spectral_samples y' phase = map (Cscale (Q2R c)) (spectral_samples y phase).
Proof.
  intros H; revert phase; induction H as [| a a' y y' Ha _ IH]; intros phase.
  - reflexivity.
  - destruct phase as [| ph phase]; [reflexivity |].
    cbn [spectral_samples map]. rewrite IH. f_equal.
    rewrite (Qeq_eqR _ _ Ha), Q2R_mult.
    unfold Cscale; cbn [Re Im fst snd]. f_equal; ring.
Qed.

Lemma scaled_full_spectrum (c : Q) (rng : nat -> R) (y y' : list Q) :
  Forall2 (fun a b => (b == c * a)%Q) y y' ->
  full_spectrum rng y' = map (Cscale (Q2R c)) (full_spectrum rng y).
Proof.
  intros H. unfold full_spectrum.
  rewrite <- (Forall2_length H), (scaled_spectral_samples c y y' _ H).
  apply mirror_scale.
Qed.

(** Scaling every response by [c] scales the signal by [c]; the
    exceptions are the same. *)
Lemma scaled_get_signal (c : Q) (rng : nat -> R) (freqs responses : list Q)
    (nyquist sampling_rate duration : pynum) (lb_type ub_type : string) (eps : Q) :
  match get_signal rng freqs responses nyquist sampling_rate duration
          lb_type ub_type eps with
  | Ok (x_t, signal_t) =>
      get_signal rng freqs (map (Qmult c) responses) nyquist sampling_rate duration
        lb_type ub_type eps = Ok (x_t, map (Rmult (Q2R c)) signal_t)
  | Raise e =>
      get_signal rng freqs (map (Qmult c) responses) nyquist sampling_rate duration
        lb_type ub_type eps = Raise e
  end.
Proof.
  unfold get_signal.
  pose proof (scaled_extend_boundaries c freqs responses (map (Qmult c) responses)
                nyquist lb_type ub_type eps (scaled_map c responses)) as He.
  destruct (extend_boundaries freqs responses nyquist lb_type ub_type eps)
    as [[fe re] | e]; cbn [bind].
  2: { rewrite He; reflexivity. }
  destruct He as (re' & He' & Hs). rewrite He'; cbn [bind].
  pose proof (scaled_sample_response c fe re re' nyquist duration Hs) as Hsr.
  destruct (sample_response fe re nyquist duration) as [[x_f y] | e]; cbn [bind].
  2: { rewrite Hsr; reflexivity. }
  destruct Hsr as (y' & Hy' & Hsy). rewrite Hy'; cbn [bind].
  rewrite (scaled_full_spectrum c rng y y' Hsy).
  unfold fftpack_ifft.
  destruct (full_spectrum rng y) as [| z zs]; cbn [map bind]; [reflexivity |].
  destruct (Qeq_bool sampling_rate 0); [reflexivity |].
  change (Cscale (Q2R c) z :: map (Cscale (Q2R c)) zs)
    with (map (Cscale (Q2R c)) (z :: zs)).
  rewrite ifft_scale, map_Re_scale. reflexivity.
Qed.

(** X13.  Only the shape of the response curve matters: multiplying every
    response by the same [c > 0] changes nothing in what
    [generate_white_noise] does, the file it writes or the exception it
    raises. *)
Theorem response_scale_cancels (rng : nat -> R) (outfile_path : string)
    (freqs responses : list Q) (nyquist sampling_rate : option pynum)
    (duration : pynum) (lb_type ub_type : string) (eps c : Q) :
  (0 < c)%Q ->
  generate_white_noise rng outfile_path freqs (map (Qmult c) responses)
    nyquist sampling_rate duration lb_type ub_type eps
  = generate_white_noise rng outfile_path freqs responses
      nyquist sampling_rate duration lb_type ub_type eps.
Proof.
  intros Hc.
  assert (Hk : (0 < Q2R c)%R).
  { rewrite <- RMicromega.Q2R_0. apply Qlt_Rlt. exact Hc. }
  unfold generate_white_noise.
  destruct (resolve_rates freqs nyquist sampling_rate) as [[nyq sr] | e];
    cbn [bind]; try reflexivity.
  pose proof (scaled_get_signal c rng freqs responses nyq sr duration
                lb_type ub_type eps) as Hg.
  destruct (get_signal rng freqs responses nyq sr duration lb_type ub_type eps)
    as [[x_t signal_t] | e]; rewrite Hg; cbn [bind]; try reflexivity.
  apply write_normalized_scale. exact Hk.
Qed.

Lemma response_scale_cancels_witness :
  (0 < 3)%Q /\
  generate_white_noise rng_zero "out.wav" [2000%Q; 6000%Q]
    (map (Qmult 3) [1%Q; 2%Q]) (Some 8000%py) None 10 "zero" "linear" default_eps
  = generate_white_noise rng_zero "out.wav" [2000%Q; 6000%Q]
      [1%Q; 2%Q] (Some 8000%py) None 10 "zero" "linear" default_eps.
Proof.
  assert (H : (0 < 3)%Q) by reflexivity.
  split; [exact H |].
  exact (response_scale_cancels rng_zero "out.wav" [2000%Q; 6000%Q] [1%Q; 2%Q]
           (Some 8000%py) None 10 "zero" "linear" default_eps 3 H).
Defined.

Lemma np_linspace_head (start stop : Q) (num : nat) :
  (1 <= num)%nat ->
  exists q rest, np_linspace start stop num = q :: rest /\ (q == start)%Q.
Proof.
  intros Hnum. unfold np_linspace.
  destruct num as [| num]; [lia |].
  cbn [seq map]. eexists; eexists; split; [reflexivity |].
  cbn [Z.of_nat inject_Z]. ring.
Qed.

(** ** The mean of the signal *)

Section SignalMean.
Local Open Scope R_scope.

Lemma total_app (l1 l2 : list R) : total (l1 ++ l2) = total l1 + total l2.
Proof.
  unfold total. induction l1 as [| a l1 IH]; cbn [app fold_right]; [ring |].
  rewrite IH; ring.
Qed.

Lemma total_seq_S (g : nat -> R) (n : nat) :
  total (map g (seq 0 (S n))) = total (map g (seq 0 n)) + g n.
Proof.
  rewrite seq_S, map_app, total_app. cbn [map Nat.add]. unfold total at 2.
  cbn [fold_right]. ring.
Qed.

Lemma total_map_ext (g h : nat -> R) (l : list nat) :
  (forall t, In t l -> g t = h t) -> total (map g l) = total (map h l).
Proof.
  intros H. f_equal. apply map_ext_in. exact H.
Qed.

Lemma total_map_plus (g h : nat -> R) (l : list nat) :
  total (map (fun t => g t + h t) l) = total (map g l) + total (map h l).
Proof.
  unfold total. induction l as [| a l IH]; cbn [map fold_right]; [ring |].
  rewrite IH; ring.
Qed.

Lemma total_map_scale (c : R) (g : nat -> R) (l : list nat) :
  total (map (fun t => c * g t) l) = c * total (map g l).
Proof.
  unfold total. induction l as [| a l IH]; cbn [map fold_right]; [ring |].
  rewrite IH; ring.
Qed.

Lemma total_map_zero (l : list nat) : total (map (fun _ => 0) l) = 0.
Proof.
  unfold total. induction l as [| a l IH]; cbn [map fold_right]; [ring |].
  rewrite IH; ring.
Qed.

(** The partial sums of [cos(t*theta)] and [sin(t*theta)]. *)
Lemma roots_partial_sums (theta : R) (n : nat) :
  let A := total (map (fun t => cos (INR t * theta)) (seq 0 n)) in
  let B := total (map (fun t => sin (INR t * theta)) (seq 0 n)) in
  (cos theta - 1) * A - sin theta * B = cos (INR n * theta) - 1 /\
  (cos theta - 1) * B + sin theta * A = sin (INR n * theta).
Proof.
  induction n as [| n IH].
  - cbn [seq map]. unfold total; cbn [fold_right INR].
    rewrite Rmult_0_l, cos_0, sin_0. split; ring.
  - cbv zeta in *. rewrite !total_seq_S.
    destruct IH as [IH1 IH2].
    set (A := total (map (fun t => cos (INR t * theta)) (seq 0 n))) in *.
    set (B := total (map (fun t => sin (INR t * theta)) (seq 0 n))) in *.
    rewrite S_INR, Rmult_plus_distr_r, Rmult_1_l, cos_plus, sin_plus.
    split; nra.
Qed.

Lemma cos_two_PI_nat (k : nat) : cos (2 * PI * INR k) = 1.
Proof.
  replace (2 * PI * INR k) with (PI * INR (2 * k))
    by (rewrite mult_INR; simpl INR; ring).
  rewrite cos_nat_PI, pow_1_even. reflexivity.
Qed.

Lemma sin_two_PI_nat (k : nat) : sin (2 * PI * INR k) = 0.
Proof.
  replace (2 * PI * INR k) with (PI * INR (2 * k))
    by (rewrite mult_INR; simpl INR; ring).
  apply sin_nat_PI.
Qed.

Lemma cos_lt_1 (theta : R) : 0 < theta < 2 * PI -> cos theta < 1.
Proof.
  intros [H0 H1].
  replace theta with (2 * (theta / 2)) by field.
  rewrite cos_2a_sin.
  assert (Hs : 0 < sin (theta / 2)) by (apply sin_gt_0; lra).
  nra.
Qed.

(** The [N]-th roots of unity other than 1 add up to zero. *)
Lemma roots_of_unity_sum (N k : nat) :
  (1 <= k < N)%nat ->
  total (map (fun t => cos (2 * PI * INR t * INR k / INR N)) (seq 0 N)) = 0 /\
  total (map (fun t => sin (2 * PI * INR t * INR k / INR N)) (seq 0 N)) = 0.
Proof.
  intros Hk.
  assert (HN : INR N <> 0) by (apply not_0_INR; lia).
  assert (HN0 : 0 < INR N) by (apply lt_0_INR; lia).
  set (theta := 2 * PI * INR k / INR N).
  assert (Hang : forall t, 2 * PI * INR t * INR k / INR N = INR t * theta).
  { intros t. unfold theta. field. exact HN. }
  rewrite (total_map_ext _ (fun t => cos (INR t * theta)))
    by (intros t _; rewrite Hang; reflexivity).
  rewrite (total_map_ext (fun t => sin _) (fun t => sin (INR t * theta)))
    by (intros t _; rewrite Hang; reflexivity).
  destruct (roots_partial_sums theta N) as [H1 H2].
  set (A := total (map (fun t => cos (INR t * theta)) (seq 0 N))) in *.
  set (B := total (map (fun t => sin (INR t * theta)) (seq 0 N))) in *.
  assert (HNt : INR N * theta = 2 * PI * INR k) by (unfold theta; field; exact HN).
  rewrite HNt, cos_two_PI_nat in H1. rewrite HNt, sin_two_PI_nat in H2.
  assert (Hc : cos theta < 1).
  { apply cos_lt_1. pose proof PI_RGT_0 as Hpi.
    assert (Hk0 : 0 < INR k) by (apply lt_0_INR; lia).
    assert (HkN : INR k < INR N) by (apply lt_INR; lia).
    unfold theta. split.
    - apply Rdiv_lt_0_compat; [nra | exact HN0].
    - apply (Rmult_lt_reg_r (INR N)); [exact HN0 |].
      unfold Rdiv. rewrite Rmult_assoc, Rinv_l, Rmult_1_r by exact HN. nra. }
  pose proof (sin2_cos2 theta) as Hsc. unfold Rsqr in Hsc.
  assert (HA : (2 - 2 * cos theta) * A = 0) by nra.
  assert (HB : (2 - 2 * cos theta) * B = 0) by nra.
  split.
  - apply Rmult_integral in HA as [HA | HA]; [lra | exact HA].
  - apply Rmult_integral in HB as [HB | HB]; [lra | exact HB].
Qed.

End SignalMean.

Section SignalMeanTransform.
Local Open Scope R_scope.

Lemma total_map_const (c : R) (n : nat) :
  total (map (fun _ => c) (seq 0 n)) = INR n * c.
Proof.
  induction n as [| n IH].
  - unfold total; cbn [seq map fold_right INR]. ring.
  - rewrite total_seq_S, IH, S_INR. ring.
Qed.

(** Bins other than the first add nothing to the sum of the samples. *)
Lemma total_weighted_sum_tail (N : nat) (x : list C) (s : nat) :
  (1 <= s)%nat -> (s + length x <= N)%nat ->
  total (map (fun t => Re (weighted_sum (twiddle N t) s x)) (seq 0 N)) = 0.
Proof.
  revert s; induction x as [| z x IH]; intros s Hs Hlen.
  - cbn [weighted_sum Re fst]. apply total_map_zero.
  - cbn [length] in Hlen.
    rewrite (total_map_ext _
               (fun t => Re z * cos (2 * PI * INR t * INR s / INR N)
                         + (- Im z * sin (2 * PI * INR t * INR s / INR N)
                            + Re (weighted_sum (twiddle N t) (S s) x)))).
    2:{ intros t _. cbn [weighted_sum]. unfold Cadd, Cmul, twiddle, cis.
        cbn [Re Im fst snd]. ring. }
    rewrite total_map_plus, total_map_plus, !total_map_scale.
    destruct (roots_of_unity_sum N s ltac:(lia)) as [Hc Hsn].
    rewrite Hc, Hsn, (IH (S s)) by lia. ring.
Qed.

(** The samples of an inverse transform add up to the first bin. *)
Lemma total_ifft (z : C) (r : list C) :
  total (map Re (ifft (z :: r))) = Re z.
Proof.
  unfold ifft. set (N := length (z :: r)).
  assert (HN : INR N <> 0) by (apply not_0_INR; unfold N; simpl; lia).
  rewrite map_map.
  rewrite (total_map_ext _
             (fun t => / INR N * (Re z + Re (weighted_sum (twiddle N t) 1 r)))).
  2:{ intros t _. cbn [weighted_sum]. rewrite twiddle_zero.
      unfold Cscale, Cadd, Cmul; cbn [Re Im fst snd]. ring. }
  rewrite total_map_scale, total_map_plus, total_map_const.
  rewrite total_weighted_sum_tail by (unfold N; simpl; lia).
  field. exact HN.
Qed.

End SignalMeanTransform.

(** The sum of the samples of the signal is the real part of the 0 Hz
    bin, [y[0]*cos(phase[0])]. *)
Lemma signal_total (rng : nat -> R) (y : list Q) :
  (1 <= length y)%nat ->
  total (map Re (ifft (full_spectrum rng y)))
  = (Q2R (nth 0 y 0%Q) * cos (rng 0%nat))%R.
Proof.
  intros Hy. destruct y as [| a y]; [simpl in Hy; lia |].
  unfold full_spectrum, mirror.
  cbn [length seq map spectral_samples app nth].
  rewrite total_ifft. reflexivity.
Qed.

(** X14.  The samples that [get_signal] returns add up to
    [y[0]*cos(phase[0])], the real part of the 0 Hz bin. Under the zero or
    the linear low policy, with [0 < eps < min(freqs)], the magnitude at 0
    Hz is zero and the samples add up to zero: the signal has no constant
    component. *)
Theorem signal_sum_is_dc_bin (rng : nat -> R) (freqs responses : list Q)
    (nyquist sampling_rate duration : pynum) (lb_type ub_type : string) (eps : Q)
    (x_t : list Q) (signal_t : list R) :
  get_signal rng freqs responses nyquist sampling_rate duration lb_type ub_type eps
    = Ok (x_t, signal_t) ->
  (exists fe re x_f y,
     extend_boundaries freqs responses nyquist lb_type ub_type eps = Ok (fe, re) /\
     sample_response fe re nyquist duration = Ok (x_f, y) /\
     total signal_t = (Q2R (nth 0 y 0%Q) * cos (rng 0%nat))%R) /\
  (forall (i j : nat) (m M r_m r_M : Q) (pl pu : BoundaryPolicy),
     is_first_min freqs i m ->
     is_first_max freqs j M ->
     length responses = length freqs ->
     nth_error responses i = Some r_m ->
     nth_error responses j = Some r_M ->
     (0 < eps)%Q -> (eps < m)%Q -> (M <= nyquist)%Q ->
     policy_of lb_type = Some pl -> pl <> Flat ->
     ((M < nyquist)%Q -> policy_of ub_type = Some pu) ->
     total signal_t = 0%R).
Proof.
  intros Hget.
  destruct (get_signal_stages _ _ _ _ _ _ _ _ _ _ _ Hget)
    as (fe & re & x_f & y & Hext & Hsamp & _ & _ & Hsig & Hy).
  assert (Htotal : total signal_t = (Q2R (nth 0 y 0%Q) * cos (rng 0%nat))%R).
  { rewrite Hsig. apply signal_total. lia. }
  split; [exists fe, re, x_f, y; repeat split; assumption |].
  intros i j m M r_m r_M pl pu Hmin Hmax Hlen Hrm HrM Heps Hm HM Hpl Hflat Hpu.
  assert (Hm0 : (0 < m)%Q) by lra.
  assert (E0 : Qltb 0 m = true) by (apply Qltb_lt; exact Hm0).
  destruct (extended_interpolant freqs responses nyquist lb_type ub_type eps
              i j m M r_m r_M pl pu Hmin Hmax Hlen Hrm HrM
              ltac:(lra) ltac:(lra) HM (fun _ => Hpl) Hpu)
    as (fe' & re' & Hext' & _ & Hinterp).
  rewrite Hext in Hext'. inversion Hext'; subst fe' re'. clear Hext'.
  rewrite E0 in Hinterp.
  destruct (sample_response_stages _ _ _ _ _ _ Hsamp)
    as (f & num & Hf & _ & Hxf & Hcall).
  rewrite Hinterp in Hf. inversion Hf as [Ef]. clear Hf.
  assert (Hnum : (1 <= num)%nat).
  { apply interp_call_length in Hcall.
    rewrite Hxf, np_linspace_length in Hcall. lia. }
  destruct (np_linspace_head 0 nyquist num Hnum) as (q & rest & Hl & Hq).
  rewrite <- Hxf in Hl.
  assert (Hq0 : nth_error x_f 0 = Some q) by (rewrite Hl; reflexivity).
  destruct (interp_call_nth _ _ _ _ _ Hcall Hq0) as (v & Hv & Hat).
  pose proof (sort_points_sorted
                (combine freqs responses ++ spec_low_points pl m r_m eps ++
                 (if Qltb M nyquist then spec_high_points pu M r_M nyquist eps
                  else []))) as Hsorted.
  rewrite Ef in Hsorted.
  destruct (sorted_low_segment freqs responses eps i m r_m Hmin Hlen Hrm Heps Hm pl
              (if Qltb M nyquist then spec_high_points pu M r_M nyquist eps else []))
    as (tl & _ & Htl).
  { intros p Hp. apply Qlt_le_weak.
    exact (high_points_right_of_min freqs nyquist eps i j m M r_M Hmin Hmax
             Heps pu p Hp). }
  rewrite Ef in Htl.
  assert (Hv0 : (v == 0)%Q).
  { destruct pl; [| contradiction |]; rewrite Htl in Hat, Hsorted;
      destruct (interp_at_first_segment _ _ _ _ _ q Hsorted) as (v' & Hv' & Ev);
      try lra; rewrite Hv' in Hat; inversion Hat; subst v'; rewrite Ev, Hq;
      field; lra. }
  rewrite Htotal, (nth_error_nth _ _ 0%Q Hv), (Qeq_eqR _ _ Hv0), RMicromega.Q2R_0.
  ring.
Qed.

Lemma signal_sum_is_dc_bin_witness :
  exists x_t signal_t,
    get_signal rng_zero [1%Q] [1%Q] 2 4 1 "linear" "linear" default_eps
      = Ok (x_t, signal_t) /\
    total signal_t = 0%R.
Proof.
  destruct linear_example_run as [He Hs].
  assert (Hrun : get_signal rng_zero [1%Q] [1%Q] 2 4 1 "linear" "linear" default_eps
                 = Ok (np_arange 0 1 (fl (1 / 4)),
                       map Re (ifft (full_spectrum rng_zero [0%Q; 1%Q; 0%Q])))).
  { apply (get_signal_run rng_zero _ _ 2 4 1 _ _ _ _ _ _ _ He Hs).
    - reflexivity.
    - simpl; lia. }
  exists (np_arange 0 1 (fl (1 / 4))),
         (map Re (ifft (full_spectrum rng_zero [0%Q; 1%Q; 0%Q]))).
  split; [exact Hrun |].
  apply (proj2 (signal_sum_is_dc_bin rng_zero [1%Q] [1%Q] 2 4 1 "linear" "linear"
                  default_eps _ _ Hrun)
           0%nat 0%nat 1%Q 1%Q 1%Q 1%Q Linear Linear).
  - exact (first_min_correct 1%Q []).
  - exact (first_max_correct 1%Q []).
  - reflexivity.
  - reflexivity.
  - reflexivity.
  - reflexivity.
  - reflexivity.
  - discriminate.
  - reflexivity.
  - discriminate.
  - intros _; reflexivity.
Defined.

(** ** Between two control points *)



(** ** A count that is a float *)

(** Once the interpolant is built, a [float] product [duration *
    nyquist] stops [get_signal] at [np.linspace]. *)
Lemma sample_response_float_count (fe re : list Q) (nyquist duration : pynum)
    (x : Q) :
  length fe = length re -> (1 <= length fe)%nat ->
  py_mul duration nyquist = PyFloat x ->
  sample_response fe re nyquist duration = Raise TypeError.
Proof.
  intros Hlen Hne Hx. unfold sample_response, interp1d.
  rewrite Hlen, Nat.eqb_refl; cbn [negb].
  destruct (Nat.ltb_spec (length re) 1) as [H | _]; [lia |].
  cbn [bind]. rewrite Hx. reflexivity.
Qed.

Lemma extend_boundaries_lengths (freqs responses : list Q) (nyquist : Q)
    (lb_type ub_type : string) (eps : Q) (fe re : list Q) :
  extend_boundaries freqs responses nyquist lb_type ub_type eps = Ok (fe, re) ->
  length responses = length freqs ->
  length fe = length re /\ (1 <= length fe)%nat.
Proof.
  intros Hext Hlen.
  destruct (extend_boundaries_shape _ _ _ _ _ _ _ _ Hext)
    as (Hne & ef & er & -> & -> & L & _ & _).
  rewrite !length_app. split; [lia |].
  destruct freqs; [congruence | simpl; lia].
Qed.

(** X16.  With the sampling rate alone, [generate_white_noise] makes the
    nyquist limit the [float] [sampling_rate/2.0] (line 129): [write] is
    never reached, and for frequencies within [[0, sampling_rate/2]], as
    many responses as frequencies, valid policies and [eps >= 0], what
    is raised is the [TypeError] of [np.linspace]. *)
Theorem sampling_rate_alone_is_not_written (rng : nat -> R) (outfile_path : string)
    (freqs responses : list Q) (nyquist sampling_rate : option pynum)
    (duration : pynum) (lb_type ub_type : string) (eps : Q) :
  truthy nyquist = false ->
  (forall w,
     generate_white_noise rng outfile_path freqs responses nyquist sampling_rate
       duration lb_type ub_type eps <> Ok w) /\
  (forall (i j : nat) (m M : Q) (pl pu : BoundaryPolicy),
     truthy sampling_rate = true ->
     is_first_min freqs i m ->
     is_first_max freqs j M ->
     length responses = length freqs ->
     (0 <= m)%Q -> (M <= number sampling_rate / 2)%Q -> (0 <= eps)%Q ->
     ((0 < m)%Q -> policy_of lb_type = Some pl) ->
     ((M < number sampling_rate / 2)%Q -> policy_of ub_type = Some pu) ->
     generate_white_noise rng outfile_path freqs responses nyquist sampling_rate
       duration lb_type ub_type eps = Raise TypeError).
Proof.
  intros Tn. split.
  - intros w Hw.
    destruct (generate_white_noise_stages _ _ _ _ _ _ _ _ _ _ _ Hw)
      as (nyq & sr & t & signal & mx & Hres & Hget & _).
    destruct (resolve_rates_from_sampling_rate _ _ _ _ _ Tn Hres) as [-> _].
    destruct (get_signal_stages _ _ _ _ _ _ _ _ _ _ _ Hget)
      as (fe & re & x_f & y & _ & Hsamp & _).
    destruct (sample_response_stages _ _ _ _ _ _ Hsamp)
      as (f & num & _ & Hnum & _).
    rewrite py_mul_float in Hnum. discriminate Hnum.
  - intros i j m M pl pu Ts Hmin Hmax Hlen Hm HM Heps Hpl Hpu.
    destruct (responses_at_extrema _ _ _ _ _ _ Hmin Hmax Hlen)
      as (r_m & r_M & Hrm & HrM).
    set (nyq := PyFloat (number sampling_rate / 2)).
    assert (Hres : resolve_rates freqs nyquist sampling_rate
                   = Ok (nyq, number sampling_rate)).
    { unfold resolve_rates. rewrite Tn, Ts. cbn [negb andb].
      rewrite (py_max_first_max _ _ _ Hmax); cbn [bind py_truediv value].
      assert (E : Qltb (number sampling_rate / 2) M = false)
        by (apply Qltb_ge; exact HM).
      rewrite E; reflexivity. }
    pose proof (extend_boundaries_result _ _ nyq lb_type ub_type eps _ _ _ _ _ _
                  pl pu Hmin Hmax Hrm HrM Heps Hm HM Hpl Hpu) as Hext.
    cbv zeta in Hext.
    destruct (extend_boundaries_lengths _ _ _ _ _ _ _ _ Hext Hlen) as [L1 L2].
    unfold generate_white_noise. rewrite Hres; cbn [bind].
    unfold get_signal. rewrite Hext; cbn [bind].
    rewrite (sample_response_float_count _ _ nyq duration _ L1 L2
               (py_mul_float duration _)).
    reflexivity.
Qed.

Lemma sampling_rate_alone_is_not_written_witness :
  truthy None = false /\
  truthy (Some 4%py) = true /\
  is_first_min [1%Q] 0 1%Q /\
  is_first_max [1%Q] 0 1%Q /\
  generate_white_noise rng_zero "out.wav" [1%Q] [1%Q] None (Some 4%py) 1
    "flat" "flat" default_eps = Raise TypeError.
Proof.
  assert (Hmin : is_first_min [1%Q] 0 1%Q) by exact (first_min_correct 1%Q []).
  assert (Hmax : is_first_max [1%Q] 0 1%Q) by exact (first_max_correct 1%Q []).
  split; [reflexivity | split; [reflexivity | split; [exact Hmin |
    split; [exact Hmax |]]]].
  apply (proj2 (sampling_rate_alone_is_not_written rng_zero "out.wav" [1%Q] [1%Q]
                  None (Some 4%py) 1 "flat" "flat" default_eps eq_refl)
           0%nat 0%nat 1%Q 1%Q Flat Flat eq_refl Hmin Hmax eq_refl).
  - discriminate.
  - discriminate.
  - discriminate.
  - intros _; reflexivity.
  - intros _; reflexivity.
Defined.

(** X17.  [np.linspace] takes the number of bins as an [int].  When
    [duration] or [nyquist] is a [float], so that [duration * nyquist]
    is one, [get_signal] raises a [TypeError] once the boundaries are
    extended and the interpolant is built, whatever the value of the
    product; and a signal that is returned was computed from an [int]
    duration and an [int] nyquist limit. *)
Theorem float_count_raises_type_error (rng : nat -> R) (freqs responses : list Q)
    (nyquist sampling_rate duration : pynum) (lb_type ub_type : string) (eps : Q) :
  (forall fe re x,
     extend_boundaries freqs responses nyquist lb_type ub_type eps = Ok (fe, re) ->
     length responses = length freqs ->
     py_mul duration nyquist = PyFloat x ->
     get_signal rng freqs responses nyquist sampling_rate duration
       lb_type ub_type eps = Raise TypeError) /\
  (forall x_t signal_t,
     get_signal rng freqs responses nyquist sampling_rate duration
       lb_type ub_type eps = Ok (x_t, signal_t) ->
     exists d n, duration = PyInt d /\ nyquist = PyInt n /\ (0 <= d * n)%Z).
Proof.
  split.
  - intros fe re x Hext Hlen Hx.
    destruct (extend_boundaries_lengths _ _ _ _ _ _ _ _ Hext Hlen) as [L1 L2].
    unfold get_signal. rewrite Hext; cbn [bind].
    rewrite (sample_response_float_count fe re nyquist duration x L1 L2 Hx).
    reflexivity.
  - intros x_t signal_t Hget.
    destruct (get_signal_stages _ _ _ _ _ _ _ _ _ _ _ Hget)
      as (fe & re & x_f & y & _ & Hsamp & _ & _ & _ & Hy).
    destruct (sample_response_stages _ _ _ _ _ _ Hsamp)
      as (f & num & _ & Hnum & Hxf & Hcall).
    apply interp_call_length in Hcall.
    rewrite Hxf, np_linspace_length in Hcall.
    destruct (as_count_ok _ _ Hnum) as (z & Hz & Hz0 & Hz1).
    destruct (py_mul duration nyquist) as [c | c] eqn:E;
      cbn [py_add] in Hz; [| discriminate].
    destruct (py_mul_int _ _ _ E) as (d & n & -> & -> & ->).
    exists d, n; repeat split. inversion Hz. lia.
Qed.

Lemma float_count_raises_type_error_witness :
  extend_boundaries [1%Q] [1%Q] 2 "flat" "flat" default_eps
    = Ok ([1%Q; 0%Q; 2%Q], [1%Q; 1%Q; 1%Q]) /\
  py_mul (PyFloat 1) 2 = PyFloat (1 * 2) /\
  get_signal rng_zero [1%Q] [1%Q] 2 4 (PyFloat 1) "flat" "flat" default_eps
    = Raise TypeError.
Proof.
  destruct flat_example_run as (x_f & y & He & _).
  assert (Hx : py_mul (PyFloat 1) 2 = PyFloat (1 * 2)) by reflexivity.
  split; [exact He | split; [exact Hx |]].
  exact (proj1 (float_count_raises_type_error rng_zero [1%Q] [1%Q] 2 4 (PyFloat 1)
                  "flat" "flat" default_eps) _ _ _ He eq_refl Hx).
Defined.
